(** * Crossy Road clone: the simulation core of [treeenhancedversion.py]

    A shallow embedding of the lane streamer ([World]), the lanes and their
    obstacles ([Lane], [Obstacle]), the hopping [Player] and the per-frame
    orchestration ([Game]), followed by the properties of the design
    document that can be settled on it.

    Conventions of the embedding.
    - Python [int] is [Z].  Python [float] is idealised as an exact rational
      [Q]: every float operation of the source ([+], [*], [<], [int(.)],
      [round(.)], [abs(.)]) is the corresponding exact operation, so no
      rounding error is modelled.  The one property that rounding decides,
      the displacement of a player who rides a log, is settled on
      [Binary64], a second embedding of the riding path with the binary64
      floats of the source.
    - A [random.Random] object is an explicit value [Rng.t]: an infinite tape
      of raw 53-bit draws and a read position.  [random()] is the next draw
      divided by 2^53, as in CPython; [uniform], [randint] and [choice] are
      derived from it the way [random.py] derives them, except that
      [_randbelow n] uses one draw and scales it instead of rejection
      sampling.  Seeding ([random.Random(seed)]) is a parameter
      [Random : Z -> Rng.t] of every definition that seeds a generator.
    - The module-level generator of [random] is a field of the game state.
    - [pygame.Rect] is a record of four integers with the operations of the
      pygame documentation that the core uses.
    - The clock ([pygame.time.get_ticks], [Clock.tick]) and the event queue
      are inputs of the frame function. *)

From Stdlib Require Import Floats.
From Stdlib Require Import ZArith QArith Qround Qabs Lia Lqa List Sorted.
From stdpp Require Import gmap list.

Open Scope Z_scope.

(** ** Numbers *)

(** [a < b] on floats. *)
Definition Qltb (a b : Q) : bool := negb (Qle_bool b a).

(** Python's [int(f)] on a float: truncation toward zero. *)
Definition int (f : Q) : Z := Z.quot (Qnum f) (Z.pos (Qden f)).

(** Python 3's [round(f)] with one argument: nearest integer, ties to even. *)
Definition round (f : Q) : Z :=
  let lo := Qfloor f in
  match Qcompare (f - inject_Z lo) (1 # 2) with
  | Lt => lo
  | Gt => lo + 1
  | Eq => if Z.even lo then lo else lo + 1
  end.

(** [clamp(v, lo, hi)], at its two uses: on integers and on floats. *)
Definition clamp (v lo hi : Z) : Z :=
  if v <? lo then lo else if hi <? v then hi else v.

Definition clampf (v lo hi : Q) : Q :=
  if Qltb v lo then lo else if Qltb hi v then hi else v.

(** ** Config *)

Definition WINDOW_W : Z := 720.
Definition WINDOW_H : Z := 960.
Definition TILE : Z := 48.
Definition GRID_COLS : Z := WINDOW_W / TILE.
Definition HOP_COOLDOWN_MS : Z := 110.
Definition AHEAD_ROWS : Z := 28.
Definition BEHIND_ROWS : Z := 12.
Definition CAR_SPAWN_GAP_RANGE : Q * Q := (22 # 10, 45 # 10)%Q.
Definition LOG_SPAWN_GAP_RANGE : Q * Q := (2 # 1, 4 # 1)%Q.
Definition ROAD_CAR_SPEED_RANGE : Q * Q := (140 # 1, 260 # 1)%Q.
Definition RIVER_LOG_SPEED_RANGE : Q * Q := (90 # 1, 180 # 1)%Q.
Definition PLAYER_HITBOX_INSET : Z := 10.

Definition Color : Type := Z * Z * Z.
Definition CAR_COLORS : list Color :=
  [(232, 80, 84); (82, 180, 255); (255, 170, 55);
   (170, 110, 255); (90, 220, 140); (245, 245, 245)].
Definition LOG_COLORS : list Color :=
  [(128, 86, 50); (148, 98, 56); (170, 112, 62)].

Inductive LaneType : Set := LANE_GRASS | LANE_ROAD | LANE_RIVER.

Definition LaneType_eqb (a b : LaneType) : bool :=
  match a, b with
  | LANE_GRASS, LANE_GRASS | LANE_ROAD, LANE_ROAD | LANE_RIVER, LANE_RIVER => true
  | _, _ => false
  end.

(** [range(a, b)] over integers. *)
Definition range (a b : Z) : list Z := seqZ a (b - a).

(** ** Random generators *)

Module Rng.

Record t : Type := mk { draws : nat -> Z; pos : nat }.

(** [random()]: a float in [0, 1) with 53 bits. *)
Definition unit_of (raw : Z) : Q := (raw mod 2 ^ 53) # (2 ^ 53).

Definition random (g : t) : Q * t :=
  (unit_of (draws g (pos g)), mk (draws g) (S (pos g))).

Definition _randbelow (n : Z) (g : t) : Z * t :=
  let (u, g') := random g in (Qfloor (u * inject_Z n), g').

(** [uniform(a, b) = a + (b - a) * random()]. *)
Definition uniform (ab : Q * Q) (g : t) : Q * t :=
  let (u, g') := random g in ((fst ab + (snd ab - fst ab) * u)%Q, g').

(** [randint(a, b) = a + _randbelow(b - a + 1)]. *)
Definition randint (a b : Z) (g : t) : Z * t :=
  let (k, g') := _randbelow (b - a + 1) g in (a + k, g').

(** [choice(seq) = seq[_randbelow(len(seq))]]; [d] stands for the
    [IndexError] that a non-empty [seq] never raises. *)
Definition choice {A : Type} (d : A) (seq : list A) (g : t) : A * t :=
  let (k, g') := _randbelow (Z.of_nat (length seq)) g in
  (nth (Z.to_nat k) seq d, g').

End Rng.

(** ** pygame.Rect *)

Module Rect.

Record t : Set := mk { x : Z; y : Z; w : Z; h : Z }.

Definition left (r : t) : Z := x r.
Definition right (r : t) : Z := x r + w r.
Definition top (r : t) : Z := y r.
Definition bottom (r : t) : Z := y r + h r.
Definition centerx (r : t) : Z := x r + Z.quot (w r) 2.

Definition inflate (dx dy : Z) (r : t) : t :=
  mk (x r - Z.quot dx 2) (y r - Z.quot dy 2) (w r + dx) (h r + dy).

Definition collidepoint (r : t) (p : Z * Z) : bool :=
  (x r <=? fst p) && (fst p <? x r + w r) &&
  (y r <=? snd p) && (snd p <? y r + h r).

Definition colliderect (a b : t) : bool :=
  if (w a =? 0) || (h a =? 0) || (w b =? 0) || (h b =? 0) then false
  else
    (Z.min (x a) (x a + w a) <? Z.max (x b) (x b + w b)) &&
    (Z.min (y a) (y a + h a) <? Z.max (y b) (y b + h b)) &&
    (Z.min (x b) (x b + w b) <? Z.max (x a) (x a + w a)) &&
    (Z.min (y b) (y b + h b) <? Z.max (y a) (y a + h a)).

End Rect.

(** ** Obstacle *)

Inductive Kind : Set := car | log.

Module Obstacle.

Record t : Type := mk {
  rect : Rect.t;
  speed : Q;          (* px/sec, +right, -left *)
  color : Color;
  kind : Kind
}.

(** [self.rect.x += int(self.speed * dt)] *)
Definition update (dt : Q) (o : t) : t :=
  let r := rect o in
  mk (Rect.mk (Rect.x r + int (speed o * dt)) (Rect.y r) (Rect.w r) (Rect.h r))
     (speed o) (color o) (kind o).

End Obstacle.

(** ** Lane *)

Module Lane.

Record t : Type := mk {
  lane_type : LaneType;
  row : Z;
  direction : Z;        (* +1 right, -1 left *)
  speed : Q;            (* px/sec magnitude *)
  spawn_gap : Q;
  last_spawn_t : Q;     (* countdown to the next spawn, seconds *)
  objects : list Obstacle.t;
  decoration_seed : Z;
  tree_positions : list Z
}.

Definition set_objects (os : list Obstacle.t) (l : t) : t :=
  mk (lane_type l) (row l) (direction l) (speed l) (spawn_gap l)
     (last_spawn_t l) os (decoration_seed l) (tree_positions l).

Definition set_last_spawn_t (s : Q) (l : t) : t :=
  mk (lane_type l) (row l) (direction l) (speed l) (spawn_gap l)
     s (objects l) (decoration_seed l) (tree_positions l).

(** The loop of [_generate_tree_positions] over the columns [cols]. *)
Fixpoint tree_scan (cols : list Z) (rng : Rng.t) : list Z :=
  match cols with
  | [] => []
  | col :: rest =>
      let (u, rng') := Rng.random rng in
      if Qltb u (2 # 10) then col :: tree_scan rest rng'
      else tree_scan rest rng'
  end.

Section Seeded.
Variable Random : Z -> Rng.t.

Definition _generate_tree_positions (seed : Z) : list Z :=
  tree_scan (range 0 GRID_COLS) (Random (seed + 1000)).

(** The dataclass constructor with [tree_positions] left at its default,
    followed by [__post_init__]. *)
Definition new (lane_type : LaneType) (row direction : Z)
    (speed spawn_gap last_spawn_t : Q) (objects : list Obstacle.t)
    (decoration_seed : Z) : t :=
  mk lane_type row direction speed spawn_gap last_spawn_t objects
     decoration_seed
     (match lane_type with
      | LANE_GRASS => _generate_tree_positions decoration_seed
      | _ => []
      end).
End Seeded.

Definition has_tree_at (l : t) (col : Z) : bool :=
  existsb (Z.eqb col) (tree_positions l).

Definition world_y (l : t) : Z := - row l * TILE.

Definition _is_far_offscreen (obj : Obstacle.t) : bool :=
  let margin := TILE * 4 in
  if Qltb 0 (Obstacle.speed obj)
  then WINDOW_W + margin <? Rect.left (Obstacle.rect obj)
  else Rect.right (Obstacle.rect obj) <? - margin.

(** [_spawn_vehicle]; [random] is the module-level generator. *)
Definition _spawn_vehicle (dt : Q) (l : t) (random : Rng.t) : t * Rng.t :=
  let l := set_last_spawn_t (last_spawn_t l - dt)%Q l in
  if Qltb 0 (last_spawn_t l) then (l, random)
  else
    let (gap, random) := Rng.uniform CAR_SPAWN_GAP_RANGE random in
    let l := set_last_spawn_t gap l in
    let (car_len_tiles, random) :=
      Rng.choice 0%Q [12 # 10; 15 # 10; 18 # 10; 22 # 10]%Q random in
    let car_w := int (inject_Z TILE * car_len_tiles) in
    let car_h := int (inject_Z TILE * (74 # 100)) in
    let y := world_y l + (TILE - car_h) / 2 in
    let (off, random) := Rng.randint 10 80 random in
    let x := if 0 <? direction l then - car_w - off else WINDOW_W + off in
    let rect := Rect.mk x y car_w car_h in
    let (color, random) := Rng.choice (0, 0, 0) CAR_COLORS random in
    let speed := (speed l * inject_Z (direction l))%Q in
    (set_objects (objects l ++ [Obstacle.mk rect speed color car]) l, random).

Definition _spawn_log (dt : Q) (l : t) (random : Rng.t) : t * Rng.t :=
  let l := set_last_spawn_t (last_spawn_t l - dt)%Q l in
  if Qltb 0 (last_spawn_t l) then (l, random)
  else
    let (gap, random) := Rng.uniform LOG_SPAWN_GAP_RANGE random in
    let l := set_last_spawn_t gap l in
    let (log_len_tiles, random) :=
      Rng.choice 0%Q [16 # 10; 20 # 10; 24 # 10; 30 # 10]%Q random in
    let log_w := int (inject_Z TILE * log_len_tiles) in
    let log_h := int (inject_Z TILE * (70 # 100)) in
    let y := world_y l + (TILE - log_h) / 2 in
    let (off, random) := Rng.randint 10 120 random in
    let x := if 0 <? direction l then - log_w - off else WINDOW_W + off in
    let rect := Rect.mk x y log_w log_h in
    let (color, random) := Rng.choice (0, 0, 0) LOG_COLORS random in
    let speed := (speed l * inject_Z (direction l))%Q in
    (set_objects (objects l ++ [Obstacle.mk rect speed color log]) l, random).

(** [Lane.update]: move, cull, spawn. *)
Definition update (dt : Q) (l : t) (random : Rng.t) : t * Rng.t :=
  let l := set_objects (map (Obstacle.update dt) (objects l)) l in
  let l :=
    match lane_type l with
    | LANE_ROAD | LANE_RIVER =>
        set_objects
          (List.filter (fun o => negb (_is_far_offscreen o)) (objects l)) l
    | LANE_GRASS => l
    end in
  match lane_type l with
  | LANE_ROAD => _spawn_vehicle dt l random
  | LANE_RIVER => _spawn_log dt l random
  | LANE_GRASS => (l, random)
  end.

End Lane.

(** ** Player *)

Module Player.

Record t : Type := mk {
  x : Q;                (* world x of the tile's left edge, continuous *)
  row : Z;
  alive : bool;
  score_best : Z;
  score : Z;
  last_hop_ms : Z;
  riding_dx : Q;        (* px/sec from the log underfoot *)
  hop_progress : Q;
  hop_animating : bool
}.

Definition set_alive (b : bool) (p : t) : t :=
  mk (x p) (row p) b (score_best p) (score p) (last_hop_ms p)
     (riding_dx p) (hop_progress p) (hop_animating p).

Definition set_riding_dx (v : Q) (p : t) : t :=
  mk (x p) (row p) (alive p) (score_best p) (score p) (last_hop_ms p)
     v (hop_progress p) (hop_animating p).

Definition set_scores (s best : Z) (p : t) : t :=
  mk (x p) (row p) (alive p) best s (last_hop_ms p)
     (riding_dx p) (hop_progress p) (hop_animating p).

Definition _tile_rect_world (p : t) : Rect.t :=
  Rect.mk (int (x p)) (- row p * TILE) TILE TILE.

Definition rect_world (p : t) : Rect.t :=
  let base := _tile_rect_world p in
  let inset := 8 in
  Rect.mk (Rect.x base + inset) (Rect.y base + inset)
          (Rect.w base - inset * 2) (Rect.h base - inset * 2).

Definition hitbox_world (p : t) : Rect.t :=
  let r := rect_world p in
  Rect.mk (Rect.x r + PLAYER_HITBOX_INSET) (Rect.y r + PLAYER_HITBOX_INSET)
          (Rect.w r - PLAYER_HITBOX_INSET * 2)
          (Rect.h r - PLAYER_HITBOX_INSET * 2).

(** [now_ms] is the reading of the clock. *)
Definition can_hop (now_ms : Z) (p : t) : bool :=
  HOP_COOLDOWN_MS <=? now_ms - last_hop_ms p.

(** Nearest tile column to the current x. *)
Definition _grid_col (p : t) : Z := round (x p / inject_Z TILE).

Definition hop (now_ms dc dr : Z) (p : t) : t :=
  if negb (alive p) || negb (can_hop now_ms p) then p
  else
    let col := _grid_col p in
    let col := clamp (col + dc) 0 (GRID_COLS - 1) in
    mk (inject_Z (col * TILE)) (Z.max 0 (row p + dr)) (alive p)
       (score_best p) (score p) now_ms (riding_dx p) 0 true.

Definition update (dt : Q) (p : t) : t :=
  if negb (alive p) then p
  else
    let (progress, animating) :=
      if hop_animating p then
        let progress := (hop_progress p + dt * 8)%Q in
        if Qle_bool 1 progress then (1%Q, false) else (progress, true)
      else (hop_progress p, false) in
    let x' :=
      if Qle_bool (1 # 1000) (Qabs (riding_dx p))
      then (x p + riding_dx p * dt)%Q else x p in
    let p' := mk x' (row p) (alive p) (score_best p) (score p)
                 (last_hop_ms p) (riding_dx p) progress animating in
    let r := rect_world p' in
    if (Rect.right r <? 0) || (WINDOW_W <? Rect.left r)
    then set_alive false p' else p'.

End Player.

(** ** World *)

Module World.

Record t : Type := mk {
  lanes : gmap Z Lane.t;
  rng : Rng.t;
  max_generated_row : Z
}.

Definition is_hazard (l : option Lane.t) : bool :=
  match l with
  | Some l =>
      match Lane.lane_type l with
      | LANE_ROAD | LANE_RIVER => true
      | LANE_GRASS => false
      end
  | None => false
  end.

(** Returns the chosen type and the generator after the draw. *)
Definition _choose_lane_type (row : Z) (w : t) : LaneType * Rng.t :=
  if row <? 10 then
    let (u, g) := Rng.random (rng w) in
    (if Qltb u (75 # 100) then LANE_GRASS else LANE_ROAD, g)
  else
    let prev1 := lanes w !! (row - 1) in
    let prev2 := lanes w !! (row - 2) in
    let consecutive_hazard :=
      (if is_hazard prev1 then 1 else 0) +
      (if is_hazard prev2 && is_hazard prev1 then 1 else 0) in
    if 2 <=? consecutive_hazard then (LANE_GRASS, rng w)
    else
      let (roll, g) := Rng.random (rng w) in
      (if Qltb roll (40 # 100) then LANE_GRASS
       else if Qltb roll (72 # 100) then LANE_ROAD
       else LANE_RIVER, g).

Inductive Op : Type :=
  | OpGenerate (player_row : Z)
  | OpUpdate (dt : Q) (player_row : Z)
  | OpLaneAt (row : Z).

Section Seeded.
Variable Random : Z -> Rng.t.

Definition __init__ : t := mk ∅ (Random 1337) (-1).

Definition _ensure_lane (row : Z) (force_type : option LaneType) (w : t) : t :=
  match lanes w !! row with
  | Some _ => w
  | None =>
      let (lane_type, g) :=
        match force_type with
        | Some ft => (ft, rng w)
        | None => _choose_lane_type row w
        end in
      let (direction, g) := Rng.choice 0 [-1; 1] g in
      let (decoration_seed, g) := Rng.randint 0 999999 g in
      let (lane, g) :=
        match lane_type with
        | LANE_GRASS =>
            (Lane.new Random LANE_GRASS row direction 0 999 999 []
                      decoration_seed, g)
        | LANE_ROAD =>
            let (speed, g) := Rng.uniform ROAD_CAR_SPEED_RANGE g in
            let (spawn_gap, g) := Rng.uniform CAR_SPAWN_GAP_RANGE g in
            let (last_spawn_t, g) := Rng.uniform (0, 15 # 10)%Q g in
            (Lane.new Random LANE_ROAD row direction speed spawn_gap
                      last_spawn_t [] decoration_seed, g)
        | LANE_RIVER =>
            let (speed, g) := Rng.uniform RIVER_LOG_SPEED_RANGE g in
            let (spawn_gap, g) := Rng.uniform LOG_SPAWN_GAP_RANGE g in
            let (last_spawn_t, g) := Rng.uniform (0, 15 # 10)%Q g in
            (Lane.new Random LANE_RIVER row direction speed spawn_gap
                      last_spawn_t [] decoration_seed, g)
        end in
      mk (<[row := lane]> (lanes w)) g (max_generated_row w)
  end.

(** [reset]; [random] is the module-level generator, which seeds the
    new world generator. *)
Definition reset (random : Rng.t) : t * Rng.t :=
  let (seed, random) := Rng.randint 0 10000000 random in
  let w := mk ∅ (Random seed) (-1) in
  (fold_left (fun w r => _ensure_lane r (Some LANE_GRASS) w) (range 0 8) w,
   random).

(** [lane_at]: [None] is the [KeyError] of [self.lanes[row]]. *)
Definition lane_at (row : Z) (w : t) : option Lane.t * t :=
  let w := _ensure_lane row None w in
  (lanes w !! row, w).

Definition _generate_around (player_row : Z) (w : t) : t :=
  let target_max := player_row + AHEAD_ROWS in
  let w :=
    fold_left
      (fun w r =>
         let w := _ensure_lane r None w in
         mk (lanes w) (rng w) (Z.max (max_generated_row w) r))
      (range (max_generated_row w + 1) (target_max + 1)) w in
  let min_keep := Z.max 0 (player_row - (BEHIND_ROWS + 8)) in
  mk (filter (fun kv => ¬ (kv.1 < min_keep)) (lanes w))
     (rng w) (max_generated_row w).

(** [World.update]; the unused [t_total] argument is left out. *)
Definition update (dt : Q) (player_row : Z) (w : t) (random : Rng.t)
    : t * Rng.t :=
  let w := _generate_around player_row w in
  fold_left
    (fun (st : t * Rng.t) r =>
       let (w, random) := st in
       if r <? 0 then st
       else
         match lanes w !! r with
         | Some lane =>
             let (lane', random') := Lane.update dt lane random in
             (mk (<[r := lane']> (lanes w)) (rng w) (max_generated_row w),
              random')
         | None => st
         end)
    (range (player_row - BEHIND_ROWS) (player_row + AHEAD_ROWS + 1))
    (w, random).

(** The calls that reach the lane map from outside: the streaming step
    alone, the whole [update], and the lazy [lane_at]. *)
Definition apply (op : Op) (st : t * Rng.t) : t * Rng.t :=
  match op with
  | OpGenerate player_row => (_generate_around player_row (fst st), snd st)
  | OpUpdate dt player_row => update dt player_row (fst st) (snd st)
  | OpLaneAt row => (snd (lane_at row (fst st)), snd st)
  end.

Definition exec (ops : list Op) (st : t * Rng.t) : t * Rng.t :=
  fold_left (fun st op => apply op st) ops st.

End Seeded.

(** The player row an operation streams around, if it streams. *)
Definition op_player_row (op : Op) : option Z :=
  match op with
  | OpGenerate player_row | OpUpdate _ player_row => Some player_row
  | OpLaneAt _ => None
  end.

Definition player_rows (ops : list Op) : list Z :=
  omap op_player_row ops.

(** Two operations that differ at most in the frame time. *)
Definition same_call (a b : Op) : Prop :=
  match a, b with
  | OpGenerate p, OpGenerate q => p = q
  | OpUpdate _ p, OpUpdate _ q => p = q
  | OpLaneAt r, OpLaneAt s => r = s
  | _, _ => False
  end.

(** What generation fixes of a lane: type, direction, speed, trees. *)
Definition static (l : Lane.t) : LaneType * Z * Q * list Z :=
  (Lane.lane_type l, Lane.direction l, Lane.speed l, Lane.tree_positions l).

End World.

(** ** Game *)

Inductive Key : Set :=
  K_UP | K_DOWN | K_LEFT | K_RIGHT | K_r | K_ESCAPE | K_other.

Inductive Event : Set := QUIT | KEYDOWN (key : Key) | OTHER_EVENT.

(** How a method of [Game] ends: it returns, the process exits
    ([sys.exit] in [_quit]), or an exception escapes. *)
Inductive outcome (A : Type) : Type :=
  | Running (a : A)
  | Exited
  | Raised.
Arguments Running {A} a.
Arguments Exited {A}.
Arguments Raised {A}.

Definition bind {A B : Type} (m : outcome A) (k : A -> outcome B) : outcome B :=
  match m with
  | Running a => k a
  | Exited => Exited
  | Raised => Raised
  end.

Module Game.

Record t : Type := mk {
  world : World.t;
  player : Player.t;
  camera_y : Z;
  t_total : Q;
  game_over : bool;
  random : Rng.t       (* the generator behind [random.uniform] and co. *)
}.

Definition set_world (w : World.t) (g : t) : t :=
  mk w (player g) (camera_y g) (t_total g) (game_over g) (random g).

Definition set_player (p : Player.t) (g : t) : t :=
  mk (world g) p (camera_y g) (t_total g) (game_over g) (random g).

Inductive Action : Type :=
  | Clock (dt : Q)              (* [self.t_total += dt] *)
  | Handle (ev : Event * Z)     (* one event of [_handle_events] *)
  | Update (dt : Q).            (* [self._update(dt)] *)

Definition _player_hit_car (lane : Lane.t) (p : Player.t) : bool :=
  let hb := Player.hitbox_world p in
  existsb
    (fun obj =>
       match Obstacle.kind obj with
       | car => Rect.colliderect hb (Rect.inflate (-6) (-8) (Obstacle.rect obj))
       | log => false
       end)
    (Lane.objects lane).

Definition support_point (p : Player.t) : Z * Z :=
  let pr := Player.rect_world p in
  (Rect.centerx pr, Rect.bottom pr - 4).

Definition supports (p : Player.t) (obj : Obstacle.t) : bool :=
  match Obstacle.kind obj with
  | log =>
      Rect.collidepoint (Rect.inflate 10 8 (Obstacle.rect obj)) (support_point p)
  | car => false
  end.

(** The first log under the support point, in list order. *)
Definition _player_on_log (lane : Lane.t) (p : Player.t) : option Obstacle.t :=
  List.find (supports p) (Lane.objects lane).

Section Seeded.
Variable Random : Z -> Rng.t.

Definition reset (g : t) : t :=
  let (w, random) := World.reset Random (random g) in
  let p := player g in
  let p := Player.mk (inject_Z (GRID_COLS / 2 * TILE)) 2 true
             (Player.score_best p) 0 (Player.last_hop_ms p) 0 0 false in
  mk w p (- Player.row p * TILE - WINDOW_H + 10 * TILE) 0 false random.

(** [Game.__init__]; [random0] is the state of the module-level
    generator when the game starts. *)
Definition __init__ (random0 : Rng.t) : t :=
  reset (mk (World.__init__ Random)
            (Player.mk (inject_Z (GRID_COLS / 2 * TILE)) 2 true 0 0 0 0 0 false)
            0 0 false random0).

(** [_can_move_to]: the answer, and the game after the lazy generation
    that [lane_at] may have done. *)
Definition _can_move_to (dc dr : Z) (g : t) : outcome (bool * t) :=
  let current_col := Player._grid_col (player g) in
  let target_col := clamp (current_col + dc) 0 (GRID_COLS - 1) in
  let target_row := Z.max 0 (Player.row (player g) + dr) in
  let (target_lane, w) := World.lane_at Random target_row (world g) in
  match target_lane with
  | None => Raised
  | Some target_lane =>
      Running
        (if LaneType_eqb (Lane.lane_type target_lane) LANE_GRASS
            && Lane.has_tree_at target_lane target_col
         then false else true,
         set_world w g)
  end.

(** [if self._can_move_to(dc, dr): self.player.hop(dc, dr)] *)
Definition try_hop (now_ms dc dr : Z) (g : t) : outcome t :=
  bind (_can_move_to dc dr g)
    (fun r =>
       let (ok, g) := r in
       Running (if ok then set_player (Player.hop now_ms dc dr (player g)) g
                else g)).

(** The body of the loop of [_handle_events] for one event; [now_ms] is
    what the clock reads while the event is handled. *)
Definition handle_event (ev : Event * Z) (g : t) : outcome t :=
  let (event, now_ms) := ev in
  match event with
  | QUIT => Exited
  | OTHER_EVENT => Running g
  | KEYDOWN key =>
      match key with
      | K_ESCAPE => Exited
      | _ =>
          let g := match key with K_r => reset g | _ => g end in
          if negb (Player.alive (player g)) then Running g
          else
            match key with
            | K_UP => try_hop now_ms 0 1 g
            | K_DOWN => try_hop now_ms 0 (-1) g
            | K_LEFT => try_hop now_ms (-1) 0 g
            | K_RIGHT => try_hop now_ms 1 0 g
            | _ => Running g
            end
      end
  end.

Definition _handle_events (events : list (Event * Z)) (g : t) : outcome t :=
  fold_left (fun m ev => bind m (handle_event ev)) events (Running g).

Definition _update (dt : Q) (g : t) : outcome t :=
  if negb (Player.alive (player g)) then
    Running (mk (world g) (player g) (camera_y g) (t_total g) true (random g))
  else
    let (w, random) :=
      World.update Random dt (Player.row (player g)) (world g) (random g) in
    let p := Player.set_riding_dx 0 (player g) in
    let score := Z.max (Player.score p) (Player.row p - 2) in
    let p := Player.set_scores score (Z.max (Player.score_best p) score) p in
    let (lane, w) := World.lane_at Random (Player.row p) w in
    match lane with
    | None => Raised
    | Some lane =>
        let p :=
          match Lane.lane_type lane with
          | LANE_RIVER =>
              match _player_on_log lane p with
              | None => Player.set_alive false p
              | Some on_log => Player.set_riding_dx (Obstacle.speed on_log) p
              end
          | _ => p
          end in
        let p :=
          match Lane.lane_type lane with
          | LANE_ROAD =>
              if _player_hit_car lane p then Player.set_alive false p else p
          | _ => p
          end in
        let p := Player.update dt p in
        let after :=
          if Player.alive p then
            let (lane2, w) := World.lane_at Random (Player.row p) w in
            match lane2 with
            | None => Raised
            | Some lane2 =>
                Running
                  (if LaneType_eqb (Lane.lane_type lane2) LANE_ROAD
                      && _player_hit_car lane2 p
                   then Player.set_alive false p else p, w)
            end
          else Running (p, w) in
        bind after
          (fun pw =>
             let (p, w) := pw in
             let desired_camera := - Player.row p * TILE - WINDOW_H + 10 * TILE in
             let camera :=
               camera_y g +
               int (inject_Z (desired_camera - camera_y g)
                    * clampf (dt * 6) 0 1) in
             Running (mk w p camera (t_total g) (game_over g) random))
    end.

(** One iteration of the loop of [run], drawing left out: [ms] is what
    [clock.tick(FPS)] returned. *)
Definition frame (input : Z * list (Event * Z)) (g : t) : outcome t :=
  let (ms, events) := input in
  let dt := (inject_Z ms / 1000)%Q in
  let g := mk (world g) (player g) (camera_y g) (t_total g + dt)%Q
              (game_over g) (random g) in
  bind (_handle_events events g) (_update dt).

Definition run (inputs : list (Z * list (Event * Z))) (random0 : Rng.t)
    : outcome t :=
  fold_left (fun m input => bind m (frame input)) inputs
            (Running (__init__ random0)).

(** The three things an iteration of [run] does to the state. *)
Definition step (a : Action) (g : t) : outcome t :=
  match a with
  | Clock dt =>
      Running (mk (world g) (player g) (camera_y g) (t_total g + dt)%Q
                  (game_over g) (random g))
  | Handle ev => handle_event ev g
  | Update dt => _update dt g
  end.

Definition steps (acts : list Action) (g : t) : outcome t :=
  fold_left (fun m a => bind m (step a)) acts (Running g).

(** The states the game can be in: [__init__] and whatever the steps
    of the loop lead to. *)
Inductive reachable : t -> Prop :=
  | reach_init (random0 : Rng.t) : reachable (__init__ random0)
  | reach_step (g g' : t) (a : Action) :
      reachable g -> step a g = Running g' -> reachable g'.

End Seeded.

(** The (dcolumn, drow) of a directional command. *)
Definition delta (key : Key) : option (Z * Z) :=
  match key with
  | K_UP => Some (0, 1)
  | K_DOWN => Some (0, -1)
  | K_LEFT => Some (-1, 0)
  | K_RIGHT => Some (1, 0)
  | _ => None
  end.

Definition is_reset (a : Action) : bool :=
  match a with
  | Handle (KEYDOWN K_r, _) => true
  | _ => false
  end.

End Game.

(** ** The riding path in binary64

    The modules above take a Python [float] for the rational it would be
    without rounding.  What the design document says of riding is about
    the exact value of [x], which rounding decides, so the path it is
    about, [Player.update] and the player's part of [Game._update], is
    embedded a second time with the floats of the source: IEEE 754
    binary64, the primitive floats of the Standard Library, whose [+] and
    [*] round to nearest, ties to even, as Python's do.  Integers,
    rectangles and control flow are as above. *)

Module Binary64.

(** The rational that a finite float is. *)
Definition to_Q (f : float) : option Q :=
  match Prim2SF f with
  | S754_zero _ => Some 0%Q
  | S754_finite s m e =>
      let n := if s then Z.neg m else Z.pos m in
      Some (if 0 <=? e then inject_Z (n * 2 ^ e)
            else n # Z.to_pos (2 ^ (- e)))
  | S754_infinity _ | S754_nan => None
  end.

(** Python's [int(f)]: truncation toward zero; [Raised] is the
    [OverflowError] of an infinity or the [ValueError] of a NaN. *)
Definition int (f : float) : outcome Z :=
  match Prim2SF f with
  | S754_zero _ => Running 0
  | S754_finite s m e =>
      let n := if 0 <=? e then Z.pos m * 2 ^ e else Z.pos m / 2 ^ (- e) in
      Running (if s then - n else n)
  | S754_infinity _ | S754_nan => Raised
  end.

Module Obstacle.

Record t : Type := mk {
  rect : Rect.t;
  speed : float;      (* px/sec, +right, -left *)
  color : Color;
  kind : Kind
}.

End Obstacle.

(** The fields of a [Lane] that the path reads. *)
Module Lane.

Record t : Type := mk {
  lane_type : LaneType;
  objects : list Obstacle.t
}.

End Lane.

Module Player.

Record t : Type := mk {
  x : float;
  row : Z;
  alive : bool;
  score_best : Z;
  score : Z;
  last_hop_ms : Z;
  riding_dx : float;
  hop_progress : float;
  hop_animating : bool
}.

Definition set_alive (b : bool) (p : t) : t :=
  mk (x p) (row p) b (score_best p) (score p) (last_hop_ms p)
     (riding_dx p) (hop_progress p) (hop_animating p).

Definition set_riding_dx (v : float) (p : t) : t :=
  mk (x p) (row p) (alive p) (score_best p) (score p) (last_hop_ms p)
     v (hop_progress p) (hop_animating p).

Definition set_scores (s best : Z) (p : t) : t :=
  mk (x p) (row p) (alive p) best s (last_hop_ms p)
     (riding_dx p) (hop_progress p) (hop_animating p).

Definition _tile_rect_world (p : t) : outcome Rect.t :=
  bind (int (x p)) (fun ix => Running (Rect.mk ix (- row p * TILE) TILE TILE)).

Definition rect_world (p : t) : outcome Rect.t :=
  bind (_tile_rect_world p)
    (fun base =>
       let inset := 8 in
       Running (Rect.mk (Rect.x base + inset) (Rect.y base + inset)
                        (Rect.w base - inset * 2) (Rect.h base - inset * 2))).

Definition hitbox_world (p : t) : outcome Rect.t :=
  bind (rect_world p)
    (fun r =>
       Running (Rect.mk (Rect.x r + PLAYER_HITBOX_INSET)
                        (Rect.y r + PLAYER_HITBOX_INSET)
                        (Rect.w r - PLAYER_HITBOX_INSET * 2)
                        (Rect.h r - PLAYER_HITBOX_INSET * 2))).

(** [0x1.0624dd2f1a9fcp-10] is the float that Python reads [1e-3] as. *)
Definition update (dt : float) (p : t) : outcome t :=
  if negb (alive p) then Running p
  else
    let (progress, animating) :=
      if hop_animating p then
        let progress := (hop_progress p + dt * 8)%float in
        if PrimFloat.leb 1 progress then (1%float, false) else (progress, true)
      else (hop_progress p, false) in
    let x' :=
      if PrimFloat.leb 0x1.0624dd2f1a9fcp-10 (PrimFloat.abs (riding_dx p))
      then (x p + riding_dx p * dt)%float else x p in
    let p' := mk x' (row p) (alive p) (score_best p) (score p)
                 (last_hop_ms p) (riding_dx p) progress animating in
    bind (rect_world p')
      (fun r =>
         Running (if (Rect.right r <? 0) || (WINDOW_W <? Rect.left r)
                  then set_alive false p' else p')).

End Player.

Definition _player_hit_car (lane : Lane.t) (p : Player.t) : outcome bool :=
  bind (Player.hitbox_world p)
    (fun hb =>
       Running
         (existsb
            (fun obj =>
               match Obstacle.kind obj with
               | car =>
                   Rect.colliderect hb (Rect.inflate (-6) (-8) (Obstacle.rect obj))
               | log => false
               end)
            (Lane.objects lane))).

(** Whether [obj] is a log under the support point of the rectangle [pr]. *)
Definition supports (pr : Rect.t) (obj : Obstacle.t) : bool :=
  match Obstacle.kind obj with
  | log =>
      Rect.collidepoint (Rect.inflate 10 8 (Obstacle.rect obj))
                        (Rect.centerx pr, Rect.bottom pr - 4)
  | car => false
  end.

Definition _player_on_log (lane : Lane.t) (p : Player.t)
    : outcome (option Obstacle.t) :=
  bind (Player.rect_world p)
    (fun pr => Running (List.find (supports pr) (Lane.objects lane))).

(** The player's part of [Game._update] for a living player, from the
    reset of [riding_dx] to the second collision check; [lane] is what
    [lane_at] returns for the player's row, both times, since the row does
    not change in between. *)
Definition _update_player (lane : Lane.t) (dt : float) (p : Player.t)
    : outcome Player.t :=
  let p := Player.set_riding_dx 0 p in
  let score := Z.max (Player.score p) (Player.row p - 2) in
  let p := Player.set_scores score (Z.max (Player.score_best p) score) p in
  bind
    (match Lane.lane_type lane with
     | LANE_RIVER =>
         bind (_player_on_log lane p)
           (fun on_log =>
              Running
                match on_log with
                | None => Player.set_alive false p
                | Some on_log =>
                    Player.set_riding_dx (Obstacle.speed on_log) p
                end)
     | _ => Running p
     end)
    (fun p =>
       bind
         (match Lane.lane_type lane with
          | LANE_ROAD =>
              bind (_player_hit_car lane p)
                (fun hit => Running (if hit then Player.set_alive false p else p))
          | _ => Running p
          end)
         (fun p =>
            bind (Player.update dt p)
              (fun p =>
                 if Player.alive p
                    && LaneType_eqb (Lane.lane_type lane) LANE_ROAD
                 then
                   bind (_player_hit_car lane p)
                     (fun hit =>
                        Running (if hit then Player.set_alive false p else p))
                 else Running p))).

End Binary64.

(** ** Invariants of the reachable states *)

(** A river lane moves at 90 px/s or more, left or right, and every obstacle
    on it carries the lane's signed speed. *)
Definition lane_sound (l : Lane.t) : Prop :=
  Lane.lane_type l = LANE_RIVER ->
  (90 <= Lane.speed l)%Q /\
  (Lane.direction l = 1 \/ Lane.direction l = -1) /\
  Forall (fun o => Obstacle.speed o
                   = (Lane.speed l * inject_Z (Lane.direction l))%Q)
         (Lane.objects l).

Definition world_sound (w : World.t) : Prop :=
  forall r l, World.lanes w !! r = Some l -> lane_sound l /\ Lane.row l = r.

(** The window that streaming around [player_row] keeps filled. *)
Definition no_gap (player_row : Z) (w : World.t) : Prop :=
  forall r,
    0 <= r -> player_row - (BEHIND_ROWS + 8) <= r ->
    r <= World.max_generated_row w ->
    exists l, World.lanes w !! r = Some l /\ Lane.row l = r /\
              forall l', World.lanes w !! r = Some l' -> l' = l.

(** Two worlds that generation cannot tell apart. *)
Definition same_generation (w1 w2 : World.t) : Prop :=
  World.rng w1 = World.rng w2 /\
  World.max_generated_row w1 = World.max_generated_row w2 /\
  World.static <$> World.lanes w1 = World.static <$> World.lanes w2.

(** What every obstacle of lane [l] looks like: the lane's signed speed, the
    kind, height and one of the four lengths of the lane's type, centred
    vertically in the lane. *)
Definition obstacle_wf (l : Lane.t) (o : Obstacle.t) : Prop :=
  Obstacle.speed o = (Lane.speed l * inject_Z (Lane.direction l))%Q /\
  Rect.y (Obstacle.rect o)
  = Lane.world_y l + (TILE - Rect.h (Obstacle.rect o)) / 2 /\
  match Lane.lane_type l with
  | LANE_ROAD =>
      Obstacle.kind o = car /\ Rect.h (Obstacle.rect o) = 35 /\
      In (Rect.w (Obstacle.rect o)) [57; 72; 86; 105]
  | LANE_RIVER =>
      Obstacle.kind o = log /\ Rect.h (Obstacle.rect o) = 33 /\
      In (Rect.w (Obstacle.rect o)) [76; 96; 115; 144]
  | LANE_GRASS => False
  end.

(** What generation and [Lane.update] keep true of a lane. *)
Definition lane_wf (Random : Z -> Rng.t) (l : Lane.t) : Prop :=
  (Lane.direction l = -1 \/ Lane.direction l = 1) /\
  (Lane.row l < 10 -> Lane.lane_type l <> LANE_RIVER) /\
  Lane.tree_positions l
  = match Lane.lane_type l with
    | LANE_GRASS => Lane._generate_tree_positions Random (Lane.decoration_seed l)
    | _ => []
    end /\
  match Lane.lane_type l with
  | LANE_GRASS => Lane.speed l = 0%Q
  | LANE_ROAD => (140 <= Lane.speed l)%Q /\ (Lane.speed l <= 260)%Q
  | LANE_RIVER => (90 <= Lane.speed l)%Q /\ (Lane.speed l <= 180)%Q
  end /\
  Forall (obstacle_wf l) (Lane.objects l).

(** No three consecutive rows of the map are all hazardous. *)
Definition no_streak (w : World.t) : Prop :=
  forall r,
    World.is_hazard (World.lanes w !! r) = true ->
    World.is_hazard (World.lanes w !! (r + 1)) = true ->
    World.is_hazard (World.lanes w !! (r + 2)) = true -> False.

(** What holds of a world that was reset and then only streamed forward:
    nothing lies beyond the generated-row mark or the starting band, the
    starting band is grass, and the part of the band the mark has not
    passed is still there. *)
Definition forward (w : World.t) : Prop :=
  -1 <= World.max_generated_row w /\
  (forall r, is_Some (World.lanes w !! r) ->
     r <= Z.max (World.max_generated_row w) 7) /\
  (forall r l, World.lanes w !! r = Some l -> r <= 7 ->
     Lane.lane_type l = LANE_GRASS) /\
  (forall r, 0 <= r <= 7 -> World.max_generated_row w < r ->
     is_Some (World.lanes w !! r)).

(** ** Concrete generators and inputs for the examples *)

Module Demo.

(** The raw draw for which [random()] returns [n / d], [d] a power of 2. *)
Definition raw (n d : Z) : Z := n * 2 ^ 53 / d.

Definition constant (k : Z) : Rng.t := Rng.mk (fun _ => k) 0.

(** A tape that is [d] except at the listed positions. *)
Definition tape (l : list (nat * Z)) (d : Z) : Rng.t :=
  Rng.mk (fun n =>
            match List.find (fun p => Nat.eqb (fst p) n) l with
            | Some p => snd p
            | None => d
            end) 0.

(** Every draw is 1/2: no trees, and roads wherever the policy allows. *)
Definition RandomHalf (seed : Z) : Rng.t := constant (raw 1 2).

(** The module-level generator draws 3/4 throughout, so [reset] seeds the
    world with 7500000.  That seed gives grass everywhere except row 10,
    a river flowing left at 101.25 px/s; every other seed draws 1/2. *)
Definition random0 : Rng.t := constant (raw 3 4).

Definition RandomRiver (seed : Z) : Rng.t :=
  if seed =? 7500000
  then tape [(22%nat, raw 3 4); (25%nat, raw 1 8)] 0
  else constant (raw 1 2).

(** Seven hops left and seven up in the first frame, eight frames of one
    second while a log drifts in, then a hop onto the river and a frame of
    100 ms. *)
Definition ride_inputs : list (Z * list (Event * Z)) :=
  [(16, map (fun i => (KEYDOWN K_LEFT, 200 * i)) (seqZ 1 7)
        ++ map (fun i => (KEYDOWN K_UP, 2000 + 200 * i)) (seqZ 1 7))]
  ++ repeat (1000, []) 8
  ++ [(100, [(KEYDOWN K_UP, 12000)])].

(** The game of [ride_inputs] just before the last [_update]: the player
    has hopped onto the river and stands over a log. *)
Definition ride_actions : list Game.Action :=
  [Game.Clock (16 # 1000)]
  ++ map (fun i => Game.Handle (KEYDOWN K_LEFT, 200 * i)) (seqZ 1 7)
  ++ map (fun i => Game.Handle (KEYDOWN K_UP, 2000 + 200 * i)) (seqZ 1 7)
  ++ [Game.Update (16 # 1000)]
  ++ concat (repeat [Game.Clock 1; Game.Update 1] 8)
  ++ [Game.Clock (1 # 10); Game.Handle (KEYDOWN K_UP, 12000)].

Definition ride_state : Game.t :=
  match Game.steps RandomRiver ride_actions (Game.__init__ RandomRiver random0) with
  | Running g => g
  | _ => Game.__init__ RandomRiver random0
  end.

(** The river lane under the player of [ride_state] once the world has
    moved by 100 ms, and the log that carries the player. *)
Definition ride_lane : Lane.t :=
  let row := Player.row (Game.player ride_state) in
  let w := fst (World.update RandomRiver (1 # 10) row (Game.world ride_state)
                             (Game.random ride_state)) in
  match fst (World.lane_at RandomRiver row w) with
  | Some lane => lane
  | None => Lane.mk LANE_GRASS 0 0 0 0 0 [] 0 []
  end.

Definition ride_log : Obstacle.t :=
  match Game._player_on_log ride_lane (Game.player ride_state) with
  | Some o => o
  | None => Obstacle.mk (Rect.mk 0 0 0 0) 0 (0, 0, 0) car
  end.

(** The game of [ride_inputs] after its last frame: the player has been
    carried 10.125 px to the left of column 0. *)
Definition rode_state : Game.t :=
  match Game.run RandomRiver ride_inputs random0 with
  | Running g => g
  | _ => Game.__init__ RandomRiver random0
  end.

(** The same opening, but the player hops onto the river at once, before
    any log has come by, and drowns. *)
Definition drowned_state : Game.t :=
  match Game.run RandomRiver
          [(16, map (fun i => (KEYDOWN K_LEFT, 200 * i)) (seqZ 1 7)
                ++ map (fun i => (KEYDOWN K_UP, 2000 + 200 * i)) (seqZ 1 7));
           (16, [(KEYDOWN K_UP, 4000)])]
          random0 with
  | Running g => g
  | _ => Game.__init__ RandomRiver random0
  end.

(** Every draw is 1/8: grass everywhere, a tree on every column. *)
Definition RandomTrees (seed : Z) : Rng.t := constant (raw 1 8).

(** The world seed 7500000 gives grass everywhere except rows 19 and 20,
    roads with cars from the right at 140 px/s, and draws a road again at
    the 202nd draw, the first one after rows 0 to 67 are generated. *)
Definition RandomStreak (seed : Z) : Rng.t :=
  if seed =? 7500000
  then tape [(49%nat, raw 1 2); (55%nat, raw 1 2); (201%nat, raw 1 2)] 0
  else constant (raw 1 2).

(** One key per frame of 110 ms: seven hops left, 37 up to row 39, 21 down. *)
Definition streak_inputs : list (Z * list (Event * Z)) :=
  imap (fun i key => (110, [(KEYDOWN key, 110 * (Z.of_nat i + 1))]))
       (repeat K_LEFT 7 ++ repeat K_UP 37 ++ repeat K_DOWN 21).

(** Streaming around a player who climbs from row 2 to row 39 and walks
    back down to row 19, then asks for the lane below, as [_can_move_to]
    does for a down-hop. *)
Definition there_and_back : list World.Op :=
  map (fun p => World.OpUpdate (16 # 1000) p) (seqZ 2 38)
  ++ map (fun i => World.OpUpdate (16 # 1000) (38 - i)) (seqZ 0 20)
  ++ [World.OpLaneAt 18].

Definition lane_types (w : World.t) (rows : list Z) : list (option LaneType) :=
  map (fun r => Lane.lane_type <$> (World.lanes w !! r)) rows.

(** The opening position under [RandomHalf]. *)
Definition start_state : Game.t := Game.__init__ RandomHalf random0.

(** Eight hops up from the start: under [RandomHalf] row 10 is a road. *)
Definition road_actions : list Game.Action :=
  map (fun i => Game.Handle (KEYDOWN K_UP, 200 * i)) (seqZ 1 8).

Definition road_state : Game.t :=
  match Game.steps RandomHalf road_actions start_state with
  | Running g => g
  | _ => start_state
  end.

(** The lane under the player once the world has moved by [dt]. *)
Definition lane_under (Random : Z -> Rng.t) (dt : Q) (g : Game.t) : Lane.t :=
  let row := Player.row (Game.player g) in
  let w := fst (World.update Random dt row (Game.world g) (Game.random g)) in
  match fst (World.lane_at Random row w) with
  | Some lane => lane
  | None => Lane.mk LANE_GRASS 0 0 0 0 0 [] 0 []
  end.

(** The river of [ride_state] as the state holds it, and its first log. *)
Definition river_lane : Lane.t :=
  match World.lanes (Game.world ride_state) !! 10 with
  | Some lane => lane
  | None => Lane.mk LANE_GRASS 0 0 0 0 0 [] 0 []
  end.

Definition river_log : Obstacle.t :=
  hd (Obstacle.mk (Rect.mk 0 0 0 0) 0 (0, 0, 0) car) (Lane.objects river_lane).

(** Row 3 of the opening position under [RandomTrees]. *)
Definition wooded_lane : Lane.t :=
  match World.lanes (Game.world (Game.__init__ RandomTrees random0)) !! 3 with
  | Some lane => lane
  | None => Lane.mk LANE_GRASS 0 0 0 0 0 [] 0 []
  end.

(** The start after the key UP at 200 ms. *)
Definition hopped_state : Game.t :=
  match Game.handle_event RandomHalf (KEYDOWN K_UP, 200) start_state with
  | Running g => g
  | _ => start_state
  end.

(** The game of [streak_inputs] after 64 of its 65 frames: the player is
    back on row 19, 7040 ms after start-up, and the rows below 19 are
    pruned. *)
Definition walk_back_state : Game.t :=
  match Game.run Demo.RandomStreak (removelast Demo.streak_inputs) Demo.random0 with
  | Running g => g
  | _ => Game.__init__ Demo.RandomStreak Demo.random0
  end.

(** The same game after the down key 50 ms later, within the cooldown. *)
Definition walk_back_pressed : Game.t :=
  match Game.handle_event Demo.RandomStreak (KEYDOWN K_DOWN, 7090)
          walk_back_state with
  | Running g => g
  | _ => walk_back_state
  end.

(** A log on row 10 that covers column 7, and the river lane that holds
    only it. *)
Definition log64 (speed : float) : Binary64.Obstacle.t :=
  Binary64.Obstacle.mk (Rect.mk 300 (-473) 144 33) speed (128, 86, 50) log.

Definition river64 (speed : float) : Binary64.Lane.t :=
  Binary64.Lane.mk LANE_RIVER [log64 speed].

(** A living player on column 7 of row 10. *)
Definition rider64 : Binary64.Player.t :=
  Binary64.Player.mk 336 10 true 8 8 1600 0 1 false.

(** The floats that Python reads [0.016] and [0.1] as: frames of 16 ms
    and of 100 ms. *)
Definition dt16 : float := 0x1.0624dd2f1a9fcp-6.
Definition dt100 : float := 0x1.999999999999ap-4.

End Demo.

(** * Properties *)

(** ** Numbers and generators *)

Lemma Qltb_lt a b : Qltb a b = true <-> (a < b)%Q.
Proof.
  unfold Qltb. rewrite negb_true_iff. split.
  - intros H. apply Qnot_le_lt. intros Hle. apply Qle_bool_iff in Hle. congruence.
  - intros H. destruct (Qle_bool b a) eqn:E; [|reflexivity].
    apply Qle_bool_iff in E. exfalso. apply (Qlt_not_le _ _ H E).
Qed.

Lemma unit_of_bounds raw : (0 <= Rng.unit_of raw)%Q /\ (Rng.unit_of raw < 1)%Q.
Proof.
  unfold Rng.unit_of, Qle, Qlt. simpl.
  pose proof (Z.mod_pos_bound raw (2 ^ 53) ltac:(lia)) as H.
  change (Z.pos (2 ^ 53)) with (2 ^ 53). lia.
Qed.

Lemma random_bounds g : (0 <= fst (Rng.random g))%Q /\ (fst (Rng.random g) < 1)%Q.
Proof. apply unit_of_bounds. Qed.

Lemma randbelow_bounds n g :
  0 < n -> 0 <= fst (Rng._randbelow n g) < n.
Proof.
  intros Hn. unfold Rng._randbelow.
  pose proof (random_bounds g) as [H0 H1].
  destruct (Rng.random g) as [u g']. cbn [fst] in *.
  split.
  - rewrite <- (Qfloor_Z 0). apply Qfloor_resp_le.
    change (inject_Z 0) with 0%Q.
    apply Qmult_le_0_compat; [exact H0|].
    change 0%Q with (inject_Z 0). rewrite <- Zle_Qle. lia.
  - assert (Hlt : (u * inject_Z n < inject_Z n)%Q).
    { rewrite <- (Qmult_1_l (inject_Z n)) at 2.
      apply Qmult_lt_compat_r; [|exact H1].
      change 0%Q with (inject_Z 0). rewrite <- Zlt_Qlt. lia. }
    pose proof (Qfloor_le (u * inject_Z n)) as Hf.
    apply Z.lt_nge. intros Hge.
    rewrite Zle_Qle in Hge.
    apply (Qlt_not_le _ _ Hlt). eapply Qle_trans; eassumption.
Qed.

Lemma choice_direction g :
  fst (Rng.choice 0 [-1; 1] g) = -1 \/ fst (Rng.choice 0 [-1; 1] g) = 1.
Proof.
  unfold Rng.choice.
  pose proof (randbelow_bounds 2 g ltac:(lia)) as H.
  change (Z.of_nat (length [-1; 1])) with 2.
  destruct (Rng._randbelow 2 g) as [k g']. cbn [fst] in *.
  assert (k = 0 \/ k = 1) as [-> | ->] by lia; simpl; auto.
Qed.

Lemma uniform_lower a b g :
  (a <= b)%Q -> (a <= fst (Rng.uniform (a, b) g))%Q.
Proof.
  intros Hab. unfold Rng.uniform.
  pose proof (random_bounds g) as [H0 _].
  destruct (Rng.random g) as [u g']. simpl in *.
  assert (0 <= (b - a) * u)%Q by (apply Qmult_le_0_compat; [lra | exact H0]).
  lra.
Qed.

(** ** Lane generation *)

Lemma fold_left_invariant {A B : Type} (f : A -> B -> A) (P : A -> Prop)
    (l : list B) (a : A) :
  P a -> (forall a b, b ∈ l -> P a -> P (f a b)) -> P (fold_left f l a).
Proof.
  revert a. induction l as [|b l IH]; intros a Ha Hstep; simpl; [exact Ha|].
  apply IH.
  - apply Hstep; [left | exact Ha].
  - intros a' b' Hb'. apply Hstep. by right.
Qed.

Lemma elem_of_range r a b : r ∈ range a b <-> a <= r < b.
Proof. unfold range. rewrite elem_of_seqZ. lia. Qed.

Section Generation.
Variable Random : Z -> Rng.t.

Lemma ensure_lane_present row ft w :
  is_Some (World.lanes w !! row) -> World._ensure_lane Random row ft w = w.
Proof. intros [l Hl]. unfold World._ensure_lane. by rewrite Hl. Qed.

(** A missing row gets a fresh, empty lane; nothing else changes but the
    generator. *)
Lemma ensure_lane_absent row ft w :
  World.lanes w !! row = None ->
  exists l g,
    World._ensure_lane Random row ft w
    = World.mk (<[row := l]> (World.lanes w)) g (World.max_generated_row w)
    /\ Lane.row l = row /\ Lane.objects l = [] /\ lane_sound l
    /\ (ft = Some LANE_GRASS -> Lane.lane_type l = LANE_GRASS).
Proof.
  intros Hnone. unfold World._ensure_lane. rewrite Hnone.
  destruct (match ft with Some ft0 => (ft0, World.rng w)
                        | None => World._choose_lane_type row w end)
    as [lane_type g0] eqn:Ety.
  pose proof (choice_direction g0) as Hdir.
  destruct (Rng.choice 0 [-1; 1] g0) as [direction g1]. cbn [fst] in Hdir.
  destruct (Rng.randint 0 999999 g1) as [seed g2].
  destruct lane_type.
  - eexists _, _. split; [reflexivity|]. repeat split; try done.
  - destruct (Rng.uniform ROAD_CAR_SPEED_RANGE g2) as [speed g3].
    destruct (Rng.uniform CAR_SPAWN_GAP_RANGE g3) as [gap g4].
    destruct (Rng.uniform (0, 15 # 10)%Q g4) as [last g5].
    eexists _, _. split; [reflexivity|]. repeat split; try done.
    intros ->. cbn in Ety. congruence.
  - pose proof (uniform_lower 90 180 g2 ltac:(lra)) as Hspeed.
    change (90%Q, 180%Q) with RIVER_LOG_SPEED_RANGE in Hspeed.
    destruct (Rng.uniform RIVER_LOG_SPEED_RANGE g2) as [speed g3].
    destruct (Rng.uniform LOG_SPAWN_GAP_RANGE g3) as [gap g4].
    destruct (Rng.uniform (0, 15 # 10)%Q g4) as [last g5].
    eexists _, _. split; [reflexivity|]. do 2 (split; [done|]). split.
    + intros _. cbn. split; [exact Hspeed|]. split; [lia | constructor].
    + intros ->. cbn in Ety. congruence.
Qed.

Lemma ensure_lane_lookup row ft w :
  is_Some (World.lanes (World._ensure_lane Random row ft w) !! row).
Proof.
  destruct (World.lanes w !! row) as [l|] eqn:E.
  - rewrite ensure_lane_present; eauto.
  - destruct (ensure_lane_absent row ft w E) as (l & g & -> & _). cbn.
    rewrite lookup_insert_eq. eauto.
Qed.

Lemma ensure_lane_keeps row ft w r l :
  World.lanes w !! r = Some l ->
  World.lanes (World._ensure_lane Random row ft w) !! r = Some l.
Proof.
  intros Hl. destruct (World.lanes w !! row) as [l0|] eqn:E.
  - rewrite ensure_lane_present; eauto.
  - destruct (ensure_lane_absent row ft w E) as (l' & g & -> & _). cbn.
    rewrite lookup_insert_ne; [done | congruence].
Qed.

Lemma ensure_lane_max row ft w :
  World.max_generated_row (World._ensure_lane Random row ft w)
  = World.max_generated_row w.
Proof.
  destruct (World.lanes w !! row) as [l0|] eqn:E.
  - rewrite ensure_lane_present; eauto.
  - by destruct (ensure_lane_absent row ft w E) as (l' & g & -> & _).
Qed.

Lemma ensure_lane_sound row ft w :
  world_sound w -> world_sound (World._ensure_lane Random row ft w).
Proof.
  intros Hw. destruct (World.lanes w !! row) as [l0|] eqn:E.
  - rewrite ensure_lane_present; eauto.
  - destruct (ensure_lane_absent row ft w E) as (l' & g & -> & Hrow & _ & Hl & _).
    intros r l. cbn. rewrite lookup_insert. case_decide.
    + intros [= <-]. subst. done.
    + apply Hw.
Qed.

(** [lane_at] never raises [KeyError]. *)
Lemma lane_at_some row w :
  exists l, World.lane_at Random row w
            = (Some l, World._ensure_lane Random row None w).
Proof.
  unfold World.lane_at. destruct (ensure_lane_lookup row None w) as [l Hl].
  exists l. by rewrite Hl.
Qed.

End Generation.

(** ** Lanes over time *)

(** Case analysis on the conditions and the draws a definition goes through. *)
Ltac break_step :=
  match goal with
  | |- context [let (_, _) := ?e in _] => destruct e
  | |- context [if ?c then _ else _] => destruct c eqn:?
  end.

(** What [Lane.update] never touches. *)
Lemma lane_update_fixed dt l random :
  let l' := fst (Lane.update dt l random) in
  Lane.lane_type l' = Lane.lane_type l /\ Lane.row l' = Lane.row l /\
  Lane.direction l' = Lane.direction l /\ Lane.speed l' = Lane.speed l /\
  Lane.decoration_seed l' = Lane.decoration_seed l /\
  Lane.tree_positions l' = Lane.tree_positions l.
Proof.
  unfold Lane.update, Lane._spawn_vehicle, Lane._spawn_log.
  destruct l as [ty row dir sp gap last objs seed trees]; cbn.
  destruct ty; cbn; repeat break_step; done.
Qed.

Lemma lane_update_static dt l random :
  World.static (fst (Lane.update dt l random)) = World.static l.
Proof.
  pose proof (lane_update_fixed dt l random) as (H1 & _ & H2 & H3 & _ & H4).
  unfold World.static. cbn zeta in *. by rewrite H1, H2, H3, H4.
Qed.

Lemma lane_update_sound dt l random :
  lane_sound l -> lane_sound (fst (Lane.update dt l random)).
Proof.
  unfold lane_sound, Lane.update, Lane._spawn_vehicle, Lane._spawn_log.
  destruct l as [ty row dir sp gap last objs seed trees]; cbn.
  intros Hl. destruct ty; cbn; [done | repeat break_step; done |].
  assert (Hmoved :
    Forall (fun o => Obstacle.speed o = (sp * inject_Z dir)%Q)
      (List.filter (fun o => negb (Lane._is_far_offscreen o))
                   (map (Obstacle.update dt) objs))).
  { destruct (Hl eq_refl) as (_ & _ & Hobjs).
    apply Forall_forall. intros o [Ho _]%list_elem_of_In%filter_In.
    apply in_map_iff in Ho as (o0 & <- & Ho0).
    rewrite Forall_forall in Hobjs. apply (Hobjs o0). by apply list_elem_of_In. }
  destruct (Hl eq_refl) as (? & ? & _).
  repeat break_step; cbn; intros _; do 2 (split; [done|]); try done;
    (apply Forall_app; split; [exact Hmoved | by constructor]).
Qed.

(** ** Streaming the lane map *)

Section Streaming.
Variable Random : Z -> Rng.t.

(** The generation loop of [_generate_around] over the rows [rows]. *)
Lemma generate_loop rows w :
  let w' :=
    fold_left
      (fun w r =>
         let w := World._ensure_lane Random r None w in
         World.mk (World.lanes w) (World.rng w)
                  (Z.max (World.max_generated_row w) r))
      rows w in
  (world_sound w -> world_sound w') /\
  (forall r l, World.lanes w !! r = Some l -> World.lanes w' !! r = Some l) /\
  (forall r, r ∈ rows -> is_Some (World.lanes w' !! r)) /\
  World.max_generated_row w <= World.max_generated_row w' /\
  (World.max_generated_row w' = World.max_generated_row w \/
   World.max_generated_row w' ∈ rows).
Proof.
  revert w. induction rows as [|r0 rows IH]; intros w; cbn zeta.
  { cbn. do 2 (split; [done|]). split; [intros r Hr; inversion Hr|].
    split; [lia | by left]. }
  cbn [fold_left].
  set (w1 := World.mk _ _ _).
  specialize (IH w1). cbn zeta in IH.
  destruct IH as (Hs & Hkeep & Hnew & Hmax & Hwhich).
  assert (Hw1 : forall r l, World.lanes w !! r = Some l ->
                            World.lanes w1 !! r = Some l).
  { intros r l Hl. subst w1. cbn. by apply ensure_lane_keeps. }
  assert (Hm1 : World.max_generated_row w1
                = Z.max (World.max_generated_row w) r0).
  { subst w1. cbn. by rewrite ensure_lane_max. }
  split; [|split; [|split; [|split]]].
  - intros Hw. apply Hs. subst w1. intros r l. cbn.
    apply (ensure_lane_sound Random r0 None w Hw).
  - intros r l Hl. apply Hkeep, Hw1, Hl.
  - intros r [-> | Hr]%elem_of_cons; [|by apply Hnew].
    destruct (ensure_lane_lookup Random r0 None w) as [l Hl].
    exists l. apply Hkeep. subst w1. exact Hl.
  - lia.
  - destruct Hwhich as [Heq | Hin].
    + rewrite Heq, Hm1.
      destruct (Z.max_spec (World.max_generated_row w) r0) as [[_ ->] | [_ ->]];
        [right; left | by left].
    + right. by right.
Qed.

Lemma generate_around_sound player_row w :
  world_sound w -> world_sound (World._generate_around Random player_row w).
Proof.
  intros Hw. unfold World._generate_around. cbn zeta.
  pose proof (generate_loop
                (range (World.max_generated_row w + 1)
                       (player_row + AHEAD_ROWS + 1)) w) as (Hs & _).
  cbn zeta in Hs. specialize (Hs Hw).
  intros r l. cbn. intros [Hl _]%map_lookup_filter_Some. by apply Hs.
Qed.

(** Streaming around a row that is not lower than the last one keeps the
    window filled. *)
Lemma generate_around_no_gap p q w :
  p <= q -> world_sound w -> no_gap p w ->
  no_gap q (World._generate_around Random q w).
Proof.
  intros Hpq Hw Hgap.
  pose proof (generate_around_sound q w Hw) as Hsound.
  revert Hsound. unfold World._generate_around. cbn zeta.
  pose proof (generate_loop
                (range (World.max_generated_row w + 1)
                       (q + AHEAD_ROWS + 1)) w)
    as (_ & Hkeep & Hnew & Hmax & Hwhich).
  cbn zeta in Hkeep, Hnew, Hmax, Hwhich.
  set (w' := fold_left _ _ w) in *.
  intros Hsound r Hr0 Hrq Hrmax. cbn in Hrmax.
  assert (Hin : is_Some (World.lanes w' !! r)).
  { destruct (decide (r <= World.max_generated_row w)) as [Hold | Hfresh].
    - destruct (Hgap r Hr0 ltac:(lia) Hold) as (l & Hl & _).
      exists l. by apply Hkeep.
    - apply Hnew. apply elem_of_range.
      destruct Hwhich as [Heq | Hin%elem_of_range]; lia. }
  destruct Hin as [l Hl].
  assert (Hl' : World.lanes (World.mk
                  (filter (fun kv => ¬ kv.1 < Z.max 0 (q - (BEHIND_ROWS + 8)))
                          (World.lanes w'))
                  (World.rng w') (World.max_generated_row w')) !! r = Some l).
  { cbn. apply map_lookup_filter_Some. split; [exact Hl|]. cbn. lia. }
  exists l. split; [exact Hl'|]. split.
  - by destruct (Hsound r l Hl').
  - intros l' Hl2. congruence.
Qed.

(** The loop of [World.update] over the rows [rows]: the lanes move, the
    map keeps its rows and what generation fixed of every lane. *)
Lemma update_loop dt rows w random :
  let st' :=
    fold_left
      (fun (st : World.t * Rng.t) r =>
         let (w, random) := st in
         if r <? 0 then st
         else
           match World.lanes w !! r with
           | Some lane =>
               let (lane', random') := Lane.update dt lane random in
               (World.mk (<[r := lane']> (World.lanes w)) (World.rng w)
                         (World.max_generated_row w), random')
           | None => st
           end)
      rows (w, random) in
  (world_sound w -> world_sound (fst st')) /\
  World.rng (fst st') = World.rng w /\
  World.max_generated_row (fst st') = World.max_generated_row w /\
  World.static <$> World.lanes (fst st') = World.static <$> World.lanes w.
Proof.
  revert w random. induction rows as [|r0 rows IH]; intros w random; cbn zeta.
  { cbn. done. }
  cbn [fold_left].
  destruct (r0 <? 0); [apply IH|].
  destruct (World.lanes w !! r0) as [lane|] eqn:Hlane; [|apply IH].
  pose proof (lane_update_static dt lane random) as Hstatic.
  pose proof (lane_update_sound dt lane random) as Hsound.
  pose proof (lane_update_fixed dt lane random) as (_ & Hrow & _).
  destruct (Lane.update dt lane random) as [lane' random']. cbn [fst] in *.
  specialize (IH (World.mk (<[r0 := lane']> (World.lanes w)) (World.rng w)
                           (World.max_generated_row w)) random').
  cbn zeta in IH. destruct IH as (Hs & Hrng & Hmax & Hst).
  split; [|split; [|split]]; [|done|done|].
  - intros Hw. apply Hs. intros r l. cbn. rewrite lookup_insert. case_decide.
    + intros [= <-]. subst r. destruct (Hw r0 lane Hlane). split; [auto | congruence].
    + apply Hw.
  - rewrite Hst. cbn. rewrite fmap_insert, Hstatic.
    apply insert_id. by rewrite lookup_fmap, Hlane.
Qed.

Lemma update_sound dt player_row w random :
  world_sound w -> world_sound (fst (World.update Random dt player_row w random)).
Proof.
  intros Hw. unfold World.update.
  apply (update_loop dt _ _ random), generate_around_sound, Hw.
Qed.

Lemma static_lookup w1 w2 r l :
  World.static <$> World.lanes w1 = World.static <$> World.lanes w2 ->
  World.lanes w2 !! r = Some l ->
  exists l', World.lanes w1 !! r = Some l' /\ World.static l' = World.static l.
Proof.
  intros Hst Hl.
  assert (H : (World.static <$> World.lanes w1) !! r = Some (World.static l))
    by (by rewrite Hst, lookup_fmap, Hl).
  rewrite lookup_fmap in H. destruct (World.lanes w1 !! r) as [l'|]; [|done].
  exists l'. split; [done|]. cbn in H. congruence.
Qed.

Lemma update_no_gap dt p q w random :
  p <= q -> world_sound w -> no_gap p w ->
  no_gap q (fst (World.update Random dt q w random)).
Proof.
  intros Hpq Hw Hgap.
  pose proof (update_sound dt q w random Hw) as Hsound.
  pose proof (generate_around_no_gap p q w Hpq Hw Hgap) as Hgen.
  revert Hsound. unfold World.update.
  pose proof (update_loop dt
                (range (q - BEHIND_ROWS) (q + AHEAD_ROWS + 1))
                (World._generate_around Random q w) random)
    as (_ & _ & Hmax & Hst).
  cbn zeta in Hmax, Hst.
  set (st' := fold_left _ _ _) in *.
  intros Hsound r Hr0 Hrq Hrmax. rewrite Hmax in Hrmax.
  destruct (Hgen r Hr0 Hrq Hrmax) as (l & Hl & _).
  destruct (static_lookup _ _ r l Hst Hl) as (l' & Hl' & _).
  exists l'. split; [done|]. split.
  - by destruct (Hsound r l' Hl').
  - intros; congruence.
Qed.

Lemma lane_at_no_gap p row w :
  no_gap p w -> no_gap p (snd (World.lane_at Random row w)).
Proof.
  intros Hgap. cbn. intros r Hr0 Hrp Hrmax. rewrite ensure_lane_max in Hrmax.
  destruct (Hgap r Hr0 Hrp Hrmax) as (l & Hl & Hrow & _).
  exists l. split; [by apply ensure_lane_keeps|]. split; [done|].
  intros l' Hl'. rewrite (ensure_lane_keeps Random row None w r l Hl) in Hl'.
  congruence.
Qed.

Lemma init_sound : world_sound (World.__init__ Random).
Proof. intros r l. cbn. by rewrite lookup_empty. Qed.

Lemma reset_facts random :
  world_sound (fst (World.reset Random random)) /\
  World.max_generated_row (fst (World.reset Random random)) = -1.
Proof.
  unfold World.reset. destruct (Rng.randint 0 10000000 random) as [seed random'].
  cbn [fst].
  apply (fold_left_invariant _
           (fun w => world_sound w /\ World.max_generated_row w = -1)).
  - split; [|done]. intros r l. cbn. by rewrite lookup_empty.
  - intros w r _ [Hw Hmax]. split; [by apply ensure_lane_sound|].
    by rewrite ensure_lane_max.
Qed.

Lemma apply_sound op st :
  world_sound (fst st) -> world_sound (fst (World.apply Random op st)).
Proof.
  intros Hw. destruct op as [p | dt p | row]; cbn.
  - by apply generate_around_sound.
  - by apply update_sound.
  - by apply ensure_lane_sound.
Qed.

End Streaming.

(** ** Sequences of calls on the world *)

Section Calls.
Variable Random : Z -> Rng.t.

Lemma exec_sound ops st :
  world_sound (fst st) -> world_sound (fst (World.exec Random ops st)).
Proof.
  revert st. induction ops as [|op ops IH]; intros st Hst; [done|].
  apply IH, apply_sound, Hst.
Qed.

Lemma exec_no_gap ops : forall w random p,
  world_sound w -> no_gap p w ->
  Sorted Z.le (p :: World.player_rows ops) ->
  no_gap (default p (last (World.player_rows ops)))
         (fst (World.exec Random ops (w, random))).
Proof.
  induction ops as [|op ops IH]; intros w random p Hw Hgap Hsorted; [done|].
  change (World.exec Random (op :: ops) (w, random))
    with (World.exec Random ops (World.apply Random op (w, random))).
  pose proof (apply_sound Random op (w, random) Hw) as Hw'.
  destruct (World.apply Random op (w, random)) as [w' random'] eqn:Hop.
  cbn [fst] in Hw'.
  destruct op as [q | dt q | row].
  - change (World.player_rows (World.OpGenerate q :: ops))
      with (q :: World.player_rows ops) in *.
    apply Sorted_inv in Hsorted as [Hsorted Hhd]. apply HdRel_inv in Hhd.
    rewrite last_cons.
    replace (default p match last (World.player_rows ops) with
                       | Some y => Some y | None => Some q end)
      with (default q (last (World.player_rows ops)))
      by (by destruct (last (World.player_rows ops))).
    apply IH; [done | | done].
    cbn in Hop. injection Hop as <- <-.
    by apply (generate_around_no_gap Random p q).
  - change (World.player_rows (World.OpUpdate dt q :: ops))
      with (q :: World.player_rows ops) in *.
    apply Sorted_inv in Hsorted as [Hsorted Hhd]. apply HdRel_inv in Hhd.
    rewrite last_cons.
    replace (default p match last (World.player_rows ops) with
                       | Some y => Some y | None => Some q end)
      with (default q (last (World.player_rows ops)))
      by (by destruct (last (World.player_rows ops))).
    apply IH; [done | | done].
    cbn in Hop.
    replace w' with (fst (World.update Random dt q w random)) by (by rewrite Hop).
    by apply (update_no_gap Random dt p q).
  - change (World.player_rows (World.OpLaneAt row :: ops))
      with (World.player_rows ops) in *.
    apply IH; [done | | done].
    cbn in Hop. injection Hop as <- <-.
    by apply (lane_at_no_gap Random p row w).
Qed.

End Calls.

(** C6. Starting from a fresh or a reset world, after any sequence of
    streaming calls ([_generate_around], [update], with [lane_at] calls in
    between) whose player rows never decrease, every row from 0 up to
    [max_generated_row] that is at most [BEHIND_ROWS + 8] below the last
    player row is a key of the lane map, bound to exactly one lane, and that
    lane carries that row. *)
Theorem C6_no_gap_in_retention_window :
  forall (Random : Z -> Rng.t) (random0 random : Rng.t) (w0 : World.t)
         (ops : list World.Op) (p : Z),
    w0 = World.__init__ Random \/ w0 = fst (World.reset Random random0) ->
    Sorted Z.le (World.player_rows ops) ->
    last (World.player_rows ops) = Some p ->
    let w := fst (World.exec Random ops (w0, random)) in
    forall r,
      0 <= r -> p - (BEHIND_ROWS + 8) <= r -> r <= World.max_generated_row w ->
      exists l, World.lanes w !! r = Some l /\ Lane.row l = r /\
                forall l', World.lanes w !! r = Some l' -> l' = l.
Proof.
  intros Random random0 random w0 ops p Hw0 Hsorted Hlast w.
  assert (Hinit : world_sound w0 /\ World.max_generated_row w0 = -1).
  { destruct Hw0 as [-> | ->]; [split; [apply init_sound | done]|].
    apply reset_facts. }
  destruct Hinit as [Hsound Hmax].
  destruct (World.player_rows ops) as [|p0 rows] eqn:Hrows; [done|].
  pose proof (exec_no_gap Random ops w0 random p0 Hsound) as H.
  rewrite Hrows, Hlast in H. apply H.
  - intros r Hr0 _ Hr. lia.
  - constructor; [done|]. constructor. lia.
Qed.

Lemma C6_no_gap_witness :
  exists l,
    World.lanes
      (fst (World.exec Demo.RandomHalf
              [World.OpGenerate 2; World.OpUpdate (16 # 1000) 2;
               World.OpLaneAt 3; World.OpUpdate (16 # 1000) 3;
               World.OpUpdate (16 # 1000) 30]
              (fst (World.reset Demo.RandomHalf Demo.random0), Demo.random0)))
      !! 15 = Some l /\
    Lane.row l = 15 /\
    forall l',
      World.lanes
        (fst (World.exec Demo.RandomHalf
                [World.OpGenerate 2; World.OpUpdate (16 # 1000) 2;
                 World.OpLaneAt 3; World.OpUpdate (16 # 1000) 3;
                 World.OpUpdate (16 # 1000) 30]
                (fst (World.reset Demo.RandomHalf Demo.random0), Demo.random0)))
        !! 15 = Some l' -> l' = l.
Proof.
  apply (C6_no_gap_in_retention_window Demo.RandomHalf Demo.random0 Demo.random0
           _ _ 30).
  - by right.
  - repeat constructor; lia.
  - reflexivity.
  - lia.
  - vm_compute. discriminate.
  - vm_compute. discriminate.
Defined.

(** ** Generation does not depend on what happens on the lanes *)

Section Determinism.
Variable Random : Z -> Rng.t.

Lemma static_lookup_eq w1 w2 r :
  World.static <$> World.lanes w1 = World.static <$> World.lanes w2 ->
  World.static <$> (World.lanes w1 !! r) = World.static <$> (World.lanes w2 !! r).
Proof. intros H. by rewrite <- !lookup_fmap, H. Qed.

Lemma is_hazard_same w1 w2 r :
  World.static <$> World.lanes w1 = World.static <$> World.lanes w2 ->
  World.is_hazard (World.lanes w1 !! r) = World.is_hazard (World.lanes w2 !! r).
Proof.
  intros H%(static_lookup_eq _ _ r).
  destruct (World.lanes w1 !! r) as [l1|], (World.lanes w2 !! r) as [l2|];
    cbn in H; try done.
  unfold World.static in H. cbn. by replace (Lane.lane_type l1)
    with (Lane.lane_type l2) by congruence.
Qed.

Lemma choose_lane_type_same row w1 w2 :
  same_generation w1 w2 ->
  World._choose_lane_type row w1 = World._choose_lane_type row w2.
Proof.
  intros (Hrng & _ & Hst). unfold World._choose_lane_type.
  by rewrite Hrng, !(is_hazard_same w1 w2) by done.
Qed.

Lemma ensure_lane_same row ft w1 w2 :
  same_generation w1 w2 ->
  same_generation (World._ensure_lane Random row ft w1)
                  (World._ensure_lane Random row ft w2).
Proof.
  intros Hsame. pose proof Hsame as (Hrng & Hmax & Hst).
  pose proof (static_lookup_eq w1 w2 row Hst) as Hrow.
  pose proof (choose_lane_type_same row w1 w2 Hsame) as Hty.
  unfold World._ensure_lane.
  destruct (World.lanes w1 !! row) as [l1|], (World.lanes w2 !! row) as [l2|];
    cbn in Hrow; try done.
  rewrite Hty, Hrng, Hmax.
  repeat break_step; (split; [done|]); (split; [done|]); cbn;
    by rewrite !fmap_insert, Hst.
Qed.

Lemma filter_same k (m1 m2 : gmap Z Lane.t) :
  World.static <$> m1 = World.static <$> m2 ->
  World.static <$> filter (fun kv => ¬ kv.1 < k) m1
  = World.static <$> filter (fun kv => ¬ kv.1 < k) m2.
Proof.
  intros Hst. apply map_eq. intros i. rewrite !lookup_fmap.
  assert (Hi : World.static <$> (m1 !! i) = World.static <$> (m2 !! i))
    by (by rewrite <- !lookup_fmap, Hst).
  destruct (decide (i < k)) as [Hlt | Hge].
  - rewrite !(map_lookup_filter_None_2 _ _ i); [done | |];
      right; intros x _ Hx; by apply Hx.
  - destruct (m1 !! i) as [l1|] eqn:E1, (m2 !! i) as [l2|] eqn:E2;
      cbn in Hi; try done.
    + rewrite (map_lookup_filter_Some_2 _ m1 i l1),
              (map_lookup_filter_Some_2 _ m2 i l2); done.
    + rewrite !(map_lookup_filter_None_2 _ _ i); [done | |]; by left.
Qed.

Lemma generate_around_same player_row w1 w2 :
  same_generation w1 w2 ->
  same_generation (World._generate_around Random player_row w1)
                  (World._generate_around Random player_row w2).
Proof.
  intros Hsame. unfold World._generate_around. cbn zeta.
  destruct Hsame as (Hrng & Hmax & Hst). rewrite Hmax.
  assert (Hloop : forall rows w1 w2, same_generation w1 w2 ->
    same_generation
      (fold_left (fun w r =>
                    let w := World._ensure_lane Random r None w in
                    World.mk (World.lanes w) (World.rng w)
                             (Z.max (World.max_generated_row w) r)) rows w1)
      (fold_left (fun w r =>
                    let w := World._ensure_lane Random r None w in
                    World.mk (World.lanes w) (World.rng w)
                             (Z.max (World.max_generated_row w) r)) rows w2)).
  { induction rows as [|r rows IH]; intros v1 v2 Hv; [done|].
    cbn [fold_left]. apply IH.
    destruct (ensure_lane_same r None v1 v2 Hv) as (H1 & H2 & H3).
    split; [done|]. split; [cbn; by rewrite H2 | done]. }
  destruct (Hloop (range (World.max_generated_row w2 + 1)
                         (player_row + AHEAD_ROWS + 1)) w1 w2)
    as (H1 & H2 & H3); [done|].
  split; [done|]. split; [done|]. cbn. by apply filter_same.
Qed.

Lemma update_same dt1 dt2 player_row w1 w2 random1 random2 :
  same_generation w1 w2 ->
  same_generation (fst (World.update Random dt1 player_row w1 random1))
                  (fst (World.update Random dt2 player_row w2 random2)).
Proof.
  intros Hsame%(generate_around_same player_row). unfold World.update.
  destruct Hsame as (Hrng & Hmax & Hst).
  pose proof (update_loop dt1 (range (player_row - BEHIND_ROWS)
                                     (player_row + AHEAD_ROWS + 1))
                (World._generate_around Random player_row w1) random1)
    as (_ & A1 & A2 & A3).
  pose proof (update_loop dt2 (range (player_row - BEHIND_ROWS)
                                     (player_row + AHEAD_ROWS + 1))
                (World._generate_around Random player_row w2) random2)
    as (_ & B1 & B2 & B3).
  cbn zeta in *. split; [congruence|]. split; congruence.
Qed.

Lemma apply_same a b st1 st2 :
  World.same_call a b -> same_generation (fst st1) (fst st2) ->
  same_generation (fst (World.apply Random a st1))
                  (fst (World.apply Random b st2)).
Proof.
  intros Hcall Hsame.
  destruct a as [p | dt p | r], b as [q | dt' q | s]; cbn in Hcall;
    try done; subst; cbn [World.apply fst snd].
  - by apply generate_around_same.
  - by apply update_same.
  - by apply ensure_lane_same.
Qed.

Lemma exec_same ops1 ops2 :
  Forall2 World.same_call ops1 ops2 ->
  forall st1 st2,
    same_generation (fst st1) (fst st2) ->
    same_generation (fst (World.exec Random ops1 st1))
                    (fst (World.exec Random ops2 st2)).
Proof.
  induction 1 as [|a b ops1 ops2 Hab _ IH]; intros st1 st2 Hsame; [done|].
  apply IH, apply_same; done.
Qed.

(** The world after [reset] is a function of the seed drawn. *)
Lemma reset_same random1 random2 :
  fst (Rng.randint 0 10000000 random1) = fst (Rng.randint 0 10000000 random2) ->
  fst (World.reset Random random1) = fst (World.reset Random random2).
Proof.
  unfold World.reset.
  destruct (Rng.randint 0 10000000 random1) as [s1 r1],
           (Rng.randint 0 10000000 random2) as [s2 r2].
  cbn. by intros ->.
Qed.

(** One call leaves what generation fixed of every lane it keeps. *)
Lemma apply_keeps_static op st r l l' :
  World.lanes (fst st) !! r = Some l ->
  World.lanes (fst (World.apply Random op st)) !! r = Some l' ->
  World.static l' = World.static l.
Proof.
  destruct st as [w random]. cbn [fst].
  assert (Hgen : forall p l1, World.lanes w !! r = Some l ->
    World.lanes (World._generate_around Random p w) !! r = Some l1 -> l1 = l).
  { intros p l1 Hl. unfold World._generate_around. cbn.
    intros [H1 _]%map_lookup_filter_Some.
    pose proof (generate_loop Random
                  (range (World.max_generated_row w + 1) (p + AHEAD_ROWS + 1)) w)
      as (_ & Hkeep & _).
    cbn zeta in Hkeep. rewrite (Hkeep r l Hl) in H1. congruence. }
  intros Hl. destruct op as [p | dt p | row]; cbn [World.apply fst snd].
  - intros H. by rewrite (Hgen p l' Hl H).
  - unfold World.update.
    pose proof (update_loop dt (range (p - BEHIND_ROWS) (p + AHEAD_ROWS + 1))
                  (World._generate_around Random p w) random) as (_ & _ & _ & Hst).
    cbn zeta in Hst. intros H.
    pose proof (static_lookup_eq _ _ r Hst) as Hr. rewrite H in Hr.
    destruct (World.lanes (World._generate_around Random p w) !! r) as [l1|] eqn:E;
      cbn in Hr; [|discriminate].
    rewrite (Hgen p l1 Hl E) in Hr. congruence.
  - cbn. rewrite (ensure_lane_keeps Random row None w r l Hl). congruence.
Qed.

End Determinism.

(** ** Truncation, rounding and clamping *)

Lemma int_close f :
  (inject_Z (int f) - 1 < f)%Q /\ (f < inject_Z (int f) + 1)%Q.
Proof.
  destruct f as [n d]. unfold int. cbn [Qnum Qden].
  pose proof (Z.quot_rem' n (Z.pos d)) as Hqr.
  pose proof (Z.rem_bound_abs n (Z.pos d) ltac:(lia)) as Hr.
  unfold Qlt, Qminus, Qplus, Qopp, inject_Z. cbn [Qnum Qden].
  split; nia.
Qed.

Lemma clamp_bounds v lo hi : lo <= hi -> lo <= clamp v lo hi <= hi.
Proof.
  intros H. unfold clamp.
  destruct (v <? lo) eqn:E1; [lia|]. destruct (hi <? v) eqn:E2; lia.
Qed.

(** A position on the grid rounds to its own column. *)
Lemma round_grid c : round (inject_Z (c * TILE) / inject_Z TILE) = c.
Proof.
  unfold round.
  assert (Hq : (inject_Z (c * TILE) / inject_Z TILE == inject_Z c)%Q).
  { unfold TILE. rewrite inject_Z_mult. field. }
  rewrite (Qfloor_comp _ _ Hq), Qfloor_Z.
  assert (Hz : (inject_Z (c * TILE) / inject_Z TILE - inject_Z c == 0)%Q)
    by (rewrite Hq; ring).
  assert (Hlt : (inject_Z (c * TILE) / inject_Z TILE - inject_Z c < 1 # 2)%Q)
    by (rewrite Hz; reflexivity).
  assert (Hc : Qcompare (inject_Z (c * TILE) / inject_Z TILE - inject_Z c) (1 # 2)
               = Lt) by (by apply Qlt_alt).
  by rewrite Hc.
Qed.

(** [round] returns an integer within one half of its argument. *)
Lemma round_within_half f : (Qabs (f - inject_Z (round f)) <= 1 # 2)%Q.
Proof.
  unfold round.
  pose proof (Qfloor_le f) as Hlo. pose proof (Qlt_floor f) as Hhi.
  rewrite inject_Z_plus in Hhi. change (inject_Z 1) with 1%Q in Hhi.
  apply Qabs_Qle_condition.
  destruct (Qcompare (f - inject_Z (Qfloor f)) (1 # 2)) eqn:Hc.
  - apply Qeq_alt in Hc.
    destruct (Z.even (Qfloor f)); [lra|].
    rewrite inject_Z_plus. change (inject_Z 1) with 1%Q. lra.
  - apply Qlt_alt in Hc. lra.
  - apply Qgt_alt in Hc. rewrite inject_Z_plus. change (inject_Z 1) with 1%Q. lra.
Qed.

(** The column of [_grid_col] is the nearest one: its left edge is within
    half a tile of x, and no column's left edge is nearer. *)
Lemma grid_col_nearest (x : Q) :
  (Qabs (inject_Z (round (x / inject_Z TILE) * TILE) - x) <= 24)%Q /\
  forall c : Z,
    (Qabs (inject_Z (round (x / inject_Z TILE) * TILE) - x)
     <= Qabs (inject_Z (c * TILE) - x))%Q.
Proof.
  set (col := round (x / inject_Z TILE)).
  pose proof (round_within_half (x / inject_Z TILE)) as Hhalf. fold col in Hhalf.
  apply Qabs_Qle_condition in Hhalf as [H1 H2].
  assert (Hx : (x == 48 * (x / inject_Z TILE))%Q) by (unfold TILE; field).
  assert (Hcol : (inject_Z (col * TILE) == 48 * inject_Z col)%Q)
    by (unfold TILE; rewrite inject_Z_mult; ring).
  assert (Hnear : (-(24) <= inject_Z (col * TILE) - x)%Q /\
                  (inject_Z (col * TILE) - x <= 24)%Q).
  { rewrite Hcol. split; lra. }
  destruct Hnear as [Hn1 Hn2].
  split; [by apply Qabs_Qle_condition|].
  intros c. apply Qabs_Qle_condition.
  pose proof (Qle_Qabs (inject_Z (c * TILE) - x)) as Hb1.
  pose proof (Qle_Qabs (- (inject_Z (c * TILE) - x))) as Hb2.
  rewrite Qabs_opp in Hb2.
  assert (Hc : (inject_Z (c * TILE) == 48 * inject_Z c)%Q)
    by (unfold TILE; rewrite inject_Z_mult; ring).
  destruct (Z.lt_trichotomy c col) as [Hlt | [-> | Hgt]].
  - assert (Hz : (inject_Z c <= inject_Z (col - 1))%Q) by (rewrite <- Zle_Qle; lia).
    replace (col - 1) with (col + -1) in Hz by lia.
    rewrite inject_Z_plus in Hz. change (inject_Z (-1)) with (-1)%Q in Hz.
    split; lra.
  - split; lra.
  - assert (Hz : (inject_Z (col + 1) <= inject_Z c)%Q) by (rewrite <- Zle_Qle; lia).
    rewrite inject_Z_plus in Hz. change (inject_Z 1) with 1%Q in Hz.
    split; lra.
Qed.

(** ** The player *)

Lemma hop_rejected now_ms dc dr p :
  Player.alive p = false \/ Player.can_hop now_ms p = false ->
  Player.hop now_ms dc dr p = p.
Proof. unfold Player.hop. by intros [-> | ->]; rewrite ?orb_true_r. Qed.

Lemma hop_accepted now_ms dc dr p :
  Player.alive p = true -> Player.can_hop now_ms p = true ->
  Player.hop now_ms dc dr p
  = Player.mk
      (inject_Z (clamp (Player._grid_col p + dc) 0 (GRID_COLS - 1) * TILE))
      (Z.max 0 (Player.row p + dr)) true (Player.score_best p) (Player.score p)
      now_ms (Player.riding_dx p) 0 true.
Proof. unfold Player.hop. by intros -> ->. Qed.

(** Every hop leaves the player on a row that is not negative and at most
    one below, on x within the grid if it was accepted. *)
Lemma hop_facts now_ms dc dr p :
  let p' := Player.hop now_ms dc dr p in
  Player.alive p' = Player.alive p /\ Player.score p' = Player.score p /\
  Player.score_best p' = Player.score_best p /\
  (p' = p \/
   Player.row p' = Z.max 0 (Player.row p + dr) /\
   (0 <= Player.x p')%Q /\ (Player.x p' <= 672)%Q).
Proof.
  cbn zeta. destruct (Player.alive p) eqn:Ha; [|rewrite hop_rejected; auto].
  destruct (Player.can_hop now_ms p) eqn:Hc; [|rewrite hop_rejected; auto].
  rewrite hop_accepted by done. cbn. do 3 (split; [done|]). right.
  split; [done|].
  pose proof (clamp_bounds (Player._grid_col p + dc) 0 (GRID_COLS - 1)
                ltac:(by vm_compute)) as Hc'.
  change (GRID_COLS - 1) with 14 in *. unfold TILE.
  set (c := clamp _ _ _) in *. unfold Qle. cbn. lia.
Qed.

Lemma player_update_dead dt p :
  Player.alive p = false -> Player.update dt p = p.
Proof. unfold Player.update. by intros ->. Qed.

Lemma player_update_facts dt p :
  Player.alive p = true ->
  let p' := Player.update dt p in
  Player.row p' = Player.row p /\ Player.score p' = Player.score p /\
  Player.score_best p' = Player.score_best p /\
  Player.last_hop_ms p' = Player.last_hop_ms p /\
  Player.x p' = (if Qle_bool (1 # 1000) (Qabs (Player.riding_dx p))
                 then (Player.x p + Player.riding_dx p * dt)%Q
                 else Player.x p) /\
  (Player.alive p' = true -> -40 <= int (Player.x p') <= 712).
Proof.
  intros Ha. unfold Player.update. rewrite Ha. cbn [negb].
  set (x' := if Qle_bool _ _ then _ else _).
  destruct (if Player.hop_animating p then _ else _) as [progress animating].
  cbn zeta.
  unfold Player.rect_world, Player._tile_rect_world, Rect.right, Rect.left.
  cbn [Rect.x Rect.w Player.x Player.row].
  destruct (_ || _) eqn:Hout; cbn; repeat split; try done.
  apply orb_false_iff in Hout as [H1 H2]. unfold TILE, WINDOW_W in *. lia.
  apply orb_false_iff in Hout as [H1 H2]. unfold TILE, WINDOW_W in *. lia.
Qed.

(** ** Handling events *)

Section Events.
Variable Random : Z -> Rng.t.

(** [_can_move_to] never raises; it consults the lane the world holds at
    the target row once [lane_at] has made sure there is one. *)
Lemma can_move_to_spec dc dr g :
  let target_col :=
    clamp (Player._grid_col (Game.player g) + dc) 0 (GRID_COLS - 1) in
  let target_row := Z.max 0 (Player.row (Game.player g) + dr) in
  let w := World._ensure_lane Random target_row None (Game.world g) in
  exists lane,
    World.lanes w !! target_row = Some lane /\
    Game._can_move_to Random dc dr g
    = Running (negb (LaneType_eqb (Lane.lane_type lane) LANE_GRASS
                     && Lane.has_tree_at lane target_col),
               Game.set_world w g).
Proof.
  cbn zeta. unfold Game._can_move_to.
  destruct (lane_at_some Random (Z.max 0 (Player.row (Game.player g) + dr))
              (Game.world g)) as [lane Hlane].
  rewrite Hlane. exists lane. split.
  - unfold World.lane_at in Hlane. by injection Hlane.
  - by destruct (_ && _).
Qed.

Lemma set_world_same g : Game.set_world (Game.world g) g = g.
Proof. by destruct g. Qed.

Lemma set_player_same g : Game.set_player (Game.player g) g = g.
Proof. by destruct g. Qed.

Lemma handle_arrow key now_ms dc dr g :
  Game.delta key = Some (dc, dr) ->
  Game.handle_event Random (KEYDOWN key, now_ms) g
  = if negb (Player.alive (Game.player g)) then Running g
    else Game.try_hop Random now_ms dc dr g.
Proof. destruct key; cbn; intros [= <- <-]; done. Qed.

(** What handling one event can do. *)
Lemma handle_event_cases ev now_ms g g' :
  Game.handle_event Random (ev, now_ms) g = Running g' ->
  g' = g \/
  (ev = KEYDOWN K_r /\ g' = Game.reset Random g) \/
  (exists key dc dr,
     ev = KEYDOWN key /\ Game.delta key = Some (dc, dr) /\
     Player.alive (Game.player g) = true /\
     Game.try_hop Random now_ms dc dr g = Running g').
Proof.
  unfold Game.handle_event.
  destruct ev as [|key|]; [done | | by intros [= <-]; left].
  destruct key; try done.
  1-4: destruct (Player.alive (Game.player g)) eqn:Ha; cbn [negb];
    [intros H; right; right; eauto 10 | intros [= <-]; by left].
  - destruct (negb _); intros [= <-]; right; by left.
  - destruct (negb _); intros [= <-]; by left.
Qed.

Lemma try_hop_cases now_ms dc dr g g' :
  Game.try_hop Random now_ms dc dr g = Running g' ->
  let w := World._ensure_lane Random (Z.max 0 (Player.row (Game.player g) + dr))
             None (Game.world g) in
  g' = Game.set_world w g \/
  g' = Game.set_player (Player.hop now_ms dc dr (Game.player g))
         (Game.set_world w g).
Proof.
  unfold Game.try_hop.
  destruct (can_move_to_spec dc dr g) as (lane & _ & ->). cbn.
  destruct (negb _); intros [= <-]; auto.
Qed.

End Events.

(** ** One simulation step *)

Section Step.
Variable Random : Z -> Rng.t.

Lemma update_dead dt g :
  Player.alive (Game.player g) = false ->
  Game._update Random dt g
  = Running (Game.mk (Game.world g) (Game.player g) (Game.camera_y g)
                     (Game.t_total g) true (Game.random g)).
Proof. unfold Game._update. by intros ->. Qed.

Lemma update_alive dt g w random lane :
  Player.alive (Game.player g) = true ->
  World.update Random dt (Player.row (Game.player g)) (Game.world g)
               (Game.random g) = (w, random) ->
  World.lanes (World._ensure_lane Random (Player.row (Game.player g)) None w)
    !! Player.row (Game.player g) = Some lane ->
  exists g',
    Game._update Random dt g = Running g' /\
    Game.world g'
    = World._ensure_lane Random (Player.row (Game.player g)) None w /\
    Player.row (Game.player g') = Player.row (Game.player g) /\
    Player.score (Game.player g')
    = Z.max (Player.score (Game.player g)) (Player.row (Game.player g) - 2) /\
    Player.last_hop_ms (Game.player g') = Player.last_hop_ms (Game.player g) /\
    (Player.alive (Game.player g') = true ->
     -40 <= int (Player.x (Game.player g')) <= 712) /\
    Player.x (Game.player g')
    = match Lane.lane_type lane, Game._player_on_log lane (Game.player g) with
      | LANE_RIVER, Some on_log =>
          if Qle_bool (1 # 1000) (Qabs (Obstacle.speed on_log))
          then (Player.x (Game.player g) + Obstacle.speed on_log * dt)%Q
          else Player.x (Game.player g)
      | _, _ => Player.x (Game.player g)
      end.
Proof.
  intros Ha Hw Hlane. unfold Game._update. rewrite Ha, Hw. cbn [negb].
  set (p0 := Player.set_scores _ _ (Player.set_riding_dx 0 (Game.player g))).
  set (row := Player.row (Game.player g)) in *.
  set (w1 := World._ensure_lane Random row None w) in *.
  assert (Hat : World.lane_at Random row w1 = (Some lane, w1)).
  { unfold World.lane_at. rewrite (ensure_lane_present Random row None w1) by eauto.
    by rewrite Hlane. }
  change (Player.row p0) with row.
  change (World.lane_at Random row w) with (World.lanes w1 !! row, w1).
  rewrite Hlane.
  change (Game._player_on_log lane p0)
    with (Game._player_on_log lane (Game.player g)).
  assert (Hdead : forall p, Player.alive p = false ->
            Player.row p = row ->
            Player.score p = Z.max (Player.score (Game.player g)) (row - 2) ->
            Player.last_hop_ms p = Player.last_hop_ms (Game.player g) ->
            Player.x p = Player.x (Game.player g) ->
            exists g',
              bind (if Player.alive (Player.update dt p)
                    then let (lane2, w2) :=
                           World.lane_at Random (Player.row (Player.update dt p)) w1 in
                         match lane2 with
                         | Some lane2 =>
                             Running
                               (if LaneType_eqb (Lane.lane_type lane2) LANE_ROAD
                                   && Game._player_hit_car lane2 (Player.update dt p)
                                then Player.set_alive false (Player.update dt p)
                                else Player.update dt p, w2)
                         | None => Raised
                         end
                    else Running (Player.update dt p, w1))
                (fun pw =>
                   let (p', w') := pw in
                   Running
                     (Game.mk w' p'
                        (Game.camera_y g +
                         int (inject_Z (- Player.row p' * TILE - WINDOW_H + 10 * TILE
                                        - Game.camera_y g)
                              * clampf (dt * 6) 0 1))
                        (Game.t_total g) (Game.game_over g) random))
              = Running g' /\
              Game.world g' = w1 /\
              Player.row (Game.player g') = row /\
              Player.score (Game.player g')
              = Z.max (Player.score (Game.player g)) (row - 2) /\
              Player.last_hop_ms (Game.player g')
              = Player.last_hop_ms (Game.player g) /\
              (Player.alive (Game.player g') = true ->
               -40 <= int (Player.x (Game.player g')) <= 712) /\
              Player.x (Game.player g') = Player.x (Game.player g)).
  { intros p Hp Hr Hs Hl Hx. rewrite (player_update_dead dt p Hp), Hp.
    eexists. split; [reflexivity|]. cbn. rewrite Hp. by repeat split. }
  assert (Halive : forall p, Player.alive p = true ->
            Player.row p = row ->
            Player.score p = Z.max (Player.score (Game.player g)) (row - 2) ->
            Player.last_hop_ms p = Player.last_hop_ms (Game.player g) ->
            Player.x p = Player.x (Game.player g) ->
            exists g',
              bind (if Player.alive (Player.update dt p)
                    then let (lane2, w2) :=
                           World.lane_at Random (Player.row (Player.update dt p)) w1 in
                         match lane2 with
                         | Some lane2 =>
                             Running
                               (if LaneType_eqb (Lane.lane_type lane2) LANE_ROAD
                                   && Game._player_hit_car lane2 (Player.update dt p)
                                then Player.set_alive false (Player.update dt p)
                                else Player.update dt p, w2)
                         | None => Raised
                         end
                    else Running (Player.update dt p, w1))
                (fun pw =>
                   let (p', w') := pw in
                   Running
                     (Game.mk w' p'
                        (Game.camera_y g +
                         int (inject_Z (- Player.row p' * TILE - WINDOW_H + 10 * TILE
                                        - Game.camera_y g)
                              * clampf (dt * 6) 0 1))
                        (Game.t_total g) (Game.game_over g) random))
              = Running g' /\
              Game.world g' = w1 /\
              Player.row (Game.player g') = row /\
              Player.score (Game.player g')
              = Z.max (Player.score (Game.player g)) (row - 2) /\
              Player.last_hop_ms (Game.player g')
              = Player.last_hop_ms (Game.player g) /\
              (Player.alive (Game.player g') = true ->
               -40 <= int (Player.x (Game.player g')) <= 712) /\
              Player.x (Game.player g')
              = if Qle_bool (1 # 1000) (Qabs (Player.riding_dx p))
                then (Player.x (Game.player g) + Player.riding_dx p * dt)%Q
                else Player.x (Game.player g)).
  { intros p Hp Hr Hs Hl Hx.
    pose proof (player_update_facts dt p Hp) as (Ur & Us & _ & Ul & Ux & Ub).
    cbn zeta in *. rewrite Hx in Ux.
    set (pu := Player.update dt p) in *.
    destruct (Player.alive pu) eqn:Hpu.
    - rewrite Ur, Hr, Hat.
      destruct (_ && _); (eexists; split; [reflexivity|]); cbn;
        do 4 (split; [congruence|]);
        (split; [intros Hlive; (discriminate Hlive || exact (Ub eq_refl))
                | congruence]).
    - eexists. split; [reflexivity|]. cbn.
      repeat split; try congruence. }
  destruct (Lane.lane_type lane).
  - apply (Halive p0); done.
  - destruct (Game._player_hit_car lane p0).
    + apply (Hdead (Player.set_alive false p0)); done.
    + apply (Halive p0); done.
  - destruct (Game._player_on_log lane (Game.player g)) as [on_log|].
    + apply (Halive (Player.set_riding_dx (Obstacle.speed on_log) p0)); done.
    + apply (Hdead (Player.set_alive false p0)); done.
Qed.

End Step.

(** ** Reachable states *)

Section Reachable.
Variable Random : Z -> Rng.t.

Lemma steps_reachable acts : forall g g',
  Game.reachable Random g -> Game.steps Random acts g = Running g' ->
  Game.reachable Random g'.
Proof.
  unfold Game.steps.
  induction acts as [|a acts IH] using rev_ind; intros g g' Hg.
  - cbn. by intros [= <-].
  - rewrite fold_left_app. cbn.
    destruct (fold_left _ acts (Running g)) as [g1| |] eqn:E; cbn; try done.
    intros Hstep. eapply Game.reach_step; [|exact Hstep]. by eapply IH.
Qed.

Lemma handle_events_reachable events : forall g g',
  Game.reachable Random g -> Game._handle_events Random events g = Running g' ->
  Game.reachable Random g'.
Proof.
  intros g g' Hg H. apply (steps_reachable (map Game.Handle events) g g' Hg).
  revert H. unfold Game._handle_events, Game.steps.
  generalize (Running g). induction events as [|ev events IH]; intros m; [done|].
  cbn. apply IH.
Qed.

Lemma frame_reachable input g g' :
  Game.reachable Random g -> Game.frame Random input g = Running g' ->
  Game.reachable Random g'.
Proof.
  destruct input as [ms events]. unfold Game.frame.
  set (dt := (inject_Z ms / 1000)%Q). intros Hg.
  assert (Hclock : Game.reachable Random
            (Game.mk (Game.world g) (Game.player g) (Game.camera_y g)
                     (Game.t_total g + dt)%Q (Game.game_over g) (Game.random g)))
    by (by apply (Game.reach_step Random g _ (Game.Clock dt))).
  destruct (Game._handle_events Random events _) as [g1| |] eqn:E; cbn; try done.
  intros Hup. apply (Game.reach_step Random g1 g' (Game.Update dt)); [|done].
  by eapply handle_events_reachable.
Qed.

(** Whatever the loop of [run] produces is reachable. *)
Lemma run_reachable inputs random0 g :
  Game.run Random inputs random0 = Running g -> Game.reachable Random g.
Proof.
  unfold Game.run. revert g.
  induction inputs as [|input inputs IH] using rev_ind; intros g.
  - cbn [fold_left]. intros H.
    assert (g = Game.__init__ Random random0) as -> by congruence. constructor.
  - rewrite fold_left_app. cbn [fold_left].
    destruct (fold_left _ inputs _) as [g1| |]; cbn [bind]; try done.
    intros H. eapply frame_reachable; [|exact H]. by apply IH.
Qed.

Lemma reset_facts_game g :
  let g' := Game.reset Random g in
  world_sound (Game.world g') /\
  Player.row (Game.player g') = 2 /\ Player.x (Game.player g') = 336%Q /\
  Player.alive (Game.player g') = true /\ Player.score (Game.player g') = 0.
Proof.
  cbn zeta. unfold Game.reset.
  pose proof (reset_facts Random (Game.random g)) as [Hs _].
  destruct (World.reset Random (Game.random g)) as [w random]. cbn. done.
Qed.

(** In every reachable state the lanes are sound, the row is not negative,
    and a living player is at most one tile off the screen. *)
Lemma reachable_invariant g :
  Game.reachable Random g ->
  world_sound (Game.world g) /\ 0 <= Player.row (Game.player g) /\
  (Player.alive (Game.player g) = true ->
   (-41 < Player.x (Game.player g))%Q /\ (Player.x (Game.player g) < 713)%Q).
Proof.
  induction 1 as [random0 | g g' a Hg IH Hstep].
  - unfold Game.__init__.
    destruct (reset_facts_game
                (Game.mk (World.__init__ Random)
                   (Player.mk (inject_Z (GRID_COLS / 2 * TILE)) 2 true 0 0 0 0 0 false)
                   0 0 false random0)) as (Hs & -> & -> & _).
    split; [done|]. split; [lia|]. intros _. split; reflexivity.
  - destruct IH as (Hs & Hrow & Hx). destruct a as [dt | [ev now_ms] | dt].
    + cbn in Hstep. injection Hstep as <-. done.
    + cbn [Game.step] in Hstep.
      apply handle_event_cases in Hstep
        as [-> | [[_ ->] | (key & dc & dr & _ & _ & Ha & Hhop)]]; [done | |].
      * destruct (reset_facts_game g) as (Hs' & -> & -> & _).
        split; [done|]. split; [lia|]. intros _. split; reflexivity.
      * apply try_hop_cases in Hhop. cbn zeta in Hhop.
        pose proof (ensure_lane_sound Random
                      (Z.max 0 (Player.row (Game.player g) + dr)) None
                      (Game.world g) Hs) as Hs'.
        destruct Hhop as [-> | ->]; cbn; [done|].
        split; [done|].
        destruct (hop_facts now_ms dc dr (Game.player g))
          as (Halive & _ & _ & [-> | (-> & H0 & H1)]); [done|].
        split; [lia|]. intros _. split; lra.
    + cbn [Game.step] in Hstep.
      destruct (Player.alive (Game.player g)) eqn:Ha.
      * destruct (World.update Random dt (Player.row (Game.player g))
                    (Game.world g) (Game.random g)) as [w random] eqn:Hw.
        destruct (ensure_lane_lookup Random (Player.row (Game.player g)) None w)
          as [lane Hlane].
        destruct (update_alive Random dt g w random lane Ha Hw Hlane)
          as (g1 & Hrun & Hworld & Hr & _ & _ & Hb & _).
        rewrite Hrun in Hstep. injection Hstep as <-.
        rewrite Hworld, Hr. split; [|split; [done|]].
        -- apply ensure_lane_sound.
           replace w with (fst (World.update Random dt (Player.row (Game.player g))
                                  (Game.world g) (Game.random g)))
             by (by rewrite Hw).
           by apply update_sound.
        -- intros Hlive. specialize (Hb Hlive).
           pose proof (int_close (Player.x (Game.player g1))) as [H1 H2].
           assert (A : (inject_Z (-40) <= inject_Z (int (Player.x (Game.player g1))))%Q)
             by (rewrite <- Zle_Qle; lia).
           assert (B : (inject_Z (int (Player.x (Game.player g1))) <= inject_Z 712)%Q)
             by (rewrite <- Zle_Qle; lia).
           change (inject_Z (-40)) with (-40)%Q in A.
           change (inject_Z 712) with 712%Q in B.
           split; lra.
      * rewrite update_dead in Hstep by done. injection Hstep as <-. cbn.
        rewrite Ha. done.
Qed.

End Reachable.

(** ** The claims *)

Lemma ride_state_reachable : Game.reachable Demo.RandomRiver Demo.ride_state.
Proof.
  apply (steps_reachable Demo.RandomRiver Demo.ride_actions
           (Game.__init__ Demo.RandomRiver Demo.random0)); [constructor|].
  vm_compute. reflexivity.
Qed.

(** A log on a sound river lane is fast enough to carry the player. *)
Lemma river_log_carries l o :
  lane_sound l -> Lane.lane_type l = LANE_RIVER -> In o (Lane.objects l) ->
  Obstacle.speed o = (Lane.speed l * inject_Z (Lane.direction l))%Q /\
  Qle_bool (1 # 1000) (Qabs (Obstacle.speed o)) = true.
Proof.
  intros Hl Hty Ho. destruct (Hl Hty) as (Hspeed & Hdir & Hobjs).
  rewrite Forall_forall in Hobjs.
  pose proof (Hobjs o ltac:(by apply list_elem_of_In)) as Heq. cbn beta in Heq.
  split; [done|]. rewrite Heq. apply Qle_bool_iff.
  destruct Hdir as [-> | ->].
  - assert (E : (Lane.speed l * inject_Z 1 == Lane.speed l)%Q) by ring.
    rewrite E, Qabs_pos; lra.
  - assert (E : (Lane.speed l * inject_Z (-1) == - Lane.speed l)%Q) by ring.
    rewrite E, Qabs_opp, Qabs_pos; lra.
Qed.

(** ** Riding, in the floats of the source *)

Lemma rect_world_int64 p n :
  Binary64.int (Binary64.Player.x p) = Running n ->
  Binary64.Player.rect_world p
  = Running (Rect.mk (n + 8) (- Binary64.Player.row p * TILE + 8) 32 32).
Proof.
  intros Hn. unfold Binary64.Player.rect_world, Binary64.Player._tile_rect_world.
  by rewrite Hn.
Qed.

Lemma supports_log64 pr o :
  Binary64.supports pr o = true -> Binary64.Obstacle.kind o = log.
Proof. unfold Binary64.supports. by destruct (Binary64.Obstacle.kind o). Qed.

(** C1, as stated, fails: the displacement is a rounded sum.  A player on
    column 7 stands on a log that drifts left at 101.25 px/s; after a frame
    of 16 ms it is alive, at 334.38 as a float, and x has not changed by
    the speed times the frame time, whether the product is taken of the two
    floats exactly, of the decimal 0.016, or in floating point. *)
Lemma C1_displacement_is_rounded :
  exists p' qx qdt,
    Binary64._player_on_log (Demo.river64 (-101.25)) Demo.rider64
    = Running (Some (Demo.log64 (-101.25))) /\
    Binary64._update_player (Demo.river64 (-101.25)) Demo.dt16 Demo.rider64
    = Running p' /\
    Binary64.Player.alive p' = true /\
    Binary64.to_Q (Binary64.Player.x p') = Some qx /\
    Binary64.to_Q Demo.dt16 = Some qdt /\
    ~ (qx - 336 == - (405 # 4) * qdt)%Q /\
    ~ (qx - 336 == - (405 # 4) * (16 # 1000))%Q /\
    PrimFloat.eqb (Binary64.Player.x p' - 336) (-101.25 * Demo.dt16) = false.
Proof.
  eexists. eexists. eexists.
  split; [vm_compute; reflexivity|].
  split; [vm_compute; reflexivity|].
  split; [reflexivity|].
  split; [vm_compute; reflexivity|].
  split; [vm_compute; reflexivity|].
  split; [|split]; [intros H; vm_compute in H; discriminate..|].
  vm_compute. reflexivity.
Qed.

(** C1, amended.  A living player on a river lane stands over a log [o],
    all logs of the lane have one speed, as they do in the game, and that
    speed is at least 0.001 in magnitude.  Then the tick returns, and the
    x it leaves is the float [x + speed * dt] of [Player.update], one
    rounded product added in one rounded sum and not cut to pixels; the
    drift is the speed of [o], the row is kept, and the player is alive
    exactly when that x is still on the window. *)
Theorem C1_riding_displacement_binary64 :
  forall (lane : Binary64.Lane.t) (dt : float) (p : Binary64.Player.t)
         (pr : Rect.t) (o : Binary64.Obstacle.t) (n : Z),
    Binary64.Player.alive p = true ->
    Binary64.Lane.lane_type lane = LANE_RIVER ->
    Binary64.Player.rect_world p = Running pr ->
    In o (Binary64.Lane.objects lane) ->
    Binary64.supports pr o = true ->
    (forall o', In o' (Binary64.Lane.objects lane) ->
                Binary64.Obstacle.kind o' = log ->
                Binary64.Obstacle.speed o' = Binary64.Obstacle.speed o) ->
    PrimFloat.leb 0x1.0624dd2f1a9fcp-10
                  (PrimFloat.abs (Binary64.Obstacle.speed o)) = true ->
    Binary64.int (Binary64.Player.x p + Binary64.Obstacle.speed o * dt)%float
    = Running n ->
    exists p',
      Binary64._update_player lane dt p = Running p' /\
      Binary64.Player.x p'
      = (Binary64.Player.x p + Binary64.Obstacle.speed o * dt)%float /\
      Binary64.Player.riding_dx p' = Binary64.Obstacle.speed o /\
      Binary64.Player.row p' = Binary64.Player.row p /\
      (Binary64.Player.alive p' = true <-> -40 <= n <= 712).
Proof.
  intros lane dt p pr o n Ha Hty Hpr Hin Hsup Hsame Hguard Hn.
  unfold Binary64._update_player. rewrite Hty.
  set (p0 := Binary64.Player.set_scores _ _ _).
  assert (Hpr0 : Binary64.Player.rect_world p0 = Running pr) by exact Hpr.
  unfold Binary64._player_on_log. rewrite Hpr0. cbn [bind].
  destruct (find (Binary64.supports pr) (Binary64.Lane.objects lane))
    as [o1|] eqn:Hfind.
  - apply find_some in Hfind as [Hin1 Hsup1].
    pose proof (Hsame o1 Hin1 (supports_log64 pr o1 Hsup1)) as Hspeed.
    rewrite Hspeed.
    unfold Binary64.Player.update. subst p0.
    cbn [Binary64.Player.alive Binary64.Player.set_riding_dx
         Binary64.Player.riding_dx Binary64.Player.x Binary64.Player.row
         Binary64.Player.hop_animating Binary64.Player.hop_progress
         Binary64.Player.score Binary64.Player.score_best
         Binary64.Player.last_hop_ms Binary64.Player.set_scores].
    rewrite Ha, Hguard. cbn [negb].
    destruct (if Binary64.Player.hop_animating p then _ else _)
      as [progress animating].
    rewrite (rect_world_int64 _ n) by exact Hn. cbn [bind].
    unfold Rect.right, Rect.left, WINDOW_W. cbn [Rect.x Rect.w].
    destruct ((n + 8 + 32 <? 0) || (720 <? n + 8)) eqn:Hout;
      cbn [Binary64.Player.alive Binary64.Player.set_alive andb bind];
      rewrite ?Ha; cbn [andb LaneType_eqb];
      eexists; (split; [reflexivity|]);
      cbn [Binary64.Player.x Binary64.Player.riding_dx Binary64.Player.row
           Binary64.Player.alive];
      do 3 (split; [reflexivity|]).
    + apply orb_true_iff in Hout. split; [done | lia].
    + apply orb_false_iff in Hout. split; [lia | done].
  - pose proof (find_none _ _ Hfind o Hin) as Hnone. congruence.
Qed.

(** The scenario of the design document: a log at +150 px/s, a frame of
    0.1 s, a player on a grid column; x goes from 336 to 351. *)
Lemma C1_riding_binary64_witness :
  (exists p',
     Binary64._update_player (Demo.river64 150) Demo.dt100 Demo.rider64
     = Running p' /\
     Binary64.Player.x p'
     = (Binary64.Player.x Demo.rider64
        + Binary64.Obstacle.speed (Demo.log64 150) * Demo.dt100)%float /\
     Binary64.Player.riding_dx p' = Binary64.Obstacle.speed (Demo.log64 150) /\
     Binary64.Player.row p' = Binary64.Player.row Demo.rider64 /\
     (Binary64.Player.alive p' = true <-> -40 <= 351 <= 712)) /\
  (Binary64.Player.x Demo.rider64
   + Binary64.Obstacle.speed (Demo.log64 150) * Demo.dt100)%float = 351%float.
Proof.
  split; [|vm_compute; reflexivity].
  apply (C1_riding_displacement_binary64 (Demo.river64 150) Demo.dt100
           Demo.rider64 (Rect.mk 344 (-472) 32 32) (Demo.log64 150) 351).
  - reflexivity.
  - reflexivity.
  - vm_compute. reflexivity.
  - left. reflexivity.
  - vm_compute. reflexivity.
  - intros o' [<- | []] _. reflexivity.
  - vm_compute. reflexivity.
  - vm_compute. reflexivity.
Defined.

(** C2. [Obstacle.update] moves the rectangle by [int(speed * dt)], the
    product truncated toward zero, and changes nothing else: at 150 px/s over
    a 16 ms frame the obstacle moves 2 px, not the 2.4 px of speed * dt, so
    it falls behind a player it carries, who moves by the exact product. *)
Theorem C2_obstacle_update_truncates :
  (forall dt o,
     Obstacle.update dt o
     = Obstacle.mk
         (Rect.mk (Rect.x (Obstacle.rect o) + int (Obstacle.speed o * dt))
                  (Rect.y (Obstacle.rect o)) (Rect.w (Obstacle.rect o))
                  (Rect.h (Obstacle.rect o)))
         (Obstacle.speed o) (Obstacle.color o) (Obstacle.kind o)) /\
  (let o := Obstacle.mk (Rect.mk 0 0 96 33) 150 (128, 86, 50) log in
   Rect.x (Obstacle.rect (Obstacle.update (16 # 1000) o)) = 2 /\
   ~ (inject_Z (Rect.x (Obstacle.rect (Obstacle.update (16 # 1000) o)))
      == inject_Z (Rect.x (Obstacle.rect o)) + Obstacle.speed o * (16 # 1000))%Q).
Proof.
  split; [reflexivity|]. cbn zeta. split; [reflexivity|].
  vm_compute. discriminate.
Qed.

(** C3, as stated, fails: the row is not monotone.  Right after start-up
    (player on row 2) a down-hop at clock time 200 ms is accepted and puts
    the player on row 1, below the row the game starts on. *)
Lemma C3_down_hop_lowers_row :
  Player.row (Game.player (Game.__init__ Demo.RandomHalf Demo.random0)) = 2 /\
  match Game.run Demo.RandomHalf [(16, [(KEYDOWN K_DOWN, 200)])] Demo.random0 with
  | Running g =>
      Player.row (Game.player g) = 1 /\
      Player.last_hop_ms (Game.player g) = 200 /\
      Player.alive (Game.player g) = true
  | _ => False
  end.
Proof. split; [reflexivity|]. vm_compute. auto. Qed.

(** C3, amended. In every reachable state the row is at least 0.  Every
    step other than a reset leaves it at least 0 and lowers it by at most
    one; only an accepted down-hop lowers it: the other hops, the clock and
    the simulation step never do.  The score never decreases. *)
Theorem C3_row_floor_and_score_monotone :
  forall (Random : Z -> Rng.t) (g : Game.t),
    Game.reachable Random g ->
    0 <= Player.row (Game.player g) /\
    forall (a : Game.Action) (g' : Game.t),
      Game.is_reset a = false ->
      Game.step Random a g = Running g' ->
      0 <= Player.row (Game.player g') /\
      Player.row (Game.player g) - 1 <= Player.row (Game.player g') /\
      ((forall now_ms, a <> Game.Handle (KEYDOWN K_DOWN, now_ms)) ->
       Player.row (Game.player g) <= Player.row (Game.player g')) /\
      Player.score (Game.player g) <= Player.score (Game.player g').
Proof.
  intros Random g Hreach.
  destruct (reachable_invariant Random g Hreach) as (_ & Hrow & _).
  split; [done|]. intros a g' Hnr Hstep.
  destruct a as [dt | [ev now_ms] | dt]; cbn [Game.step] in Hstep.
  - injection Hstep as <-. cbn. repeat split; lia.
  - apply handle_event_cases in Hstep
      as [-> | [[-> _] | (key & dc & dr & -> & Hd & Ha & Hhop)]];
      [repeat split; lia | done |].
    apply try_hop_cases in Hhop. cbn zeta in Hhop.
    destruct Hhop as [-> | ->]; cbn; [repeat split; lia|].
    destruct (hop_facts now_ms dc dr (Game.player g))
      as (_ & -> & _ & [-> | (-> & _)]); [repeat split; lia|].
    assert (Hdr : (dr = -1 /\ key = K_DOWN) \/ 0 <= dr)
      by (destruct key; cbn in Hd; try done; injection Hd as <- <-; auto; right; lia).
    split; [lia|]. split; [lia|]. split; [|lia].
    intros Hnd. destruct Hdr as [[_ ->] | Hdr]; [by destruct (Hnd now_ms) | lia].
  - destruct (Player.alive (Game.player g)) eqn:Ha.
    + destruct (World.update Random dt (Player.row (Game.player g))
                  (Game.world g) (Game.random g)) as [w random] eqn:Hw.
      destruct (ensure_lane_lookup Random (Player.row (Game.player g)) None w)
        as [lane Hlane].
      destruct (update_alive Random dt g w random lane Ha Hw Hlane)
        as (g1 & Hrun & _ & Hr & Hs & _).
      rewrite Hrun in Hstep. injection Hstep as <-. rewrite Hr, Hs.
      repeat split; lia.
    + rewrite update_dead in Hstep by done. injection Hstep as <-. cbn.
      repeat split; lia.
Qed.

Lemma C3_row_floor_witness :
  0 <= Player.row (Game.player Demo.ride_state) /\
  forall (a : Game.Action) (g' : Game.t),
    Game.is_reset a = false ->
    Game.step Demo.RandomRiver a Demo.ride_state = Running g' ->
    0 <= Player.row (Game.player g') /\
    Player.row (Game.player Demo.ride_state) - 1 <= Player.row (Game.player g') /\
    ((forall now_ms, a <> Game.Handle (KEYDOWN K_DOWN, now_ms)) ->
     Player.row (Game.player Demo.ride_state) <= Player.row (Game.player g')) /\
    Player.score (Game.player Demo.ride_state) <= Player.score (Game.player g').
Proof.
  apply (C3_row_floor_and_score_monotone Demo.RandomRiver Demo.ride_state).
  exact ride_state_reachable.
Defined.

(** C4, as stated, fails: riding is not clamped.  In the game of
    [Demo.ride_inputs] the player hops onto a log that flows left at
    101.25 px/s from column 0; after the next frame of 100 ms the player is
    alive at x = -10.125, left of the playable range. *)
Lemma C4_rider_leaves_column_range :
  match Game.run Demo.RandomRiver Demo.ride_inputs Demo.random0 with
  | Running g =>
      Player.alive (Game.player g) = true /\
      (Player.x (Game.player g) == - (81 # 8))%Q /\
      (Player.x (Game.player g) < 0)%Q
  | _ => False
  end.
Proof. vm_compute. auto. Qed.

(** C4, amended. An accepted hop puts x on a grid column within
    [0, (GRID_COLS - 1) * TILE].  Between hops x is not clamped: a log may
    carry the player past either end, and in every reachable state a living
    player has -41 < x < 713, that is the tile is not wholly off the
    720-pixel window. *)
Theorem C4_x_within_window_while_alive :
  forall (Random : Z -> Rng.t) (g : Game.t),
    Game.reachable Random g ->
    Player.alive (Game.player g) = true ->
    ((-41 < Player.x (Game.player g))%Q /\ (Player.x (Game.player g) < 713)%Q) /\
    forall now_ms dc dr,
      Player.can_hop now_ms (Game.player g) = true ->
      exists col,
        0 <= col <= GRID_COLS - 1 /\
        Player.x (Player.hop now_ms dc dr (Game.player g)) = inject_Z (col * TILE) /\
        (0 <= Player.x (Player.hop now_ms dc dr (Game.player g)))%Q /\
        (Player.x (Player.hop now_ms dc dr (Game.player g))
         <= inject_Z ((GRID_COLS - 1) * TILE))%Q.
Proof.
  intros Random g Hreach Ha.
  destruct (reachable_invariant Random g Hreach) as (_ & _ & Hx).
  split; [by apply Hx|]. intros now_ms dc dr Hc.
  rewrite hop_accepted by done. cbn [Player.x].
  pose proof (clamp_bounds (Player._grid_col (Game.player g) + dc) 0
                (GRID_COLS - 1) ltac:(by vm_compute)) as Hb.
  exists (clamp (Player._grid_col (Game.player g) + dc) 0 (GRID_COLS - 1)).
  split; [done|]. split; [done|].
  change 0%Q with (inject_Z 0). rewrite <- !Zle_Qle. unfold TILE. lia.
Qed.

Lemma C4_x_within_window_witness :
  ((-41 < Player.x (Game.player Demo.ride_state))%Q /\
   (Player.x (Game.player Demo.ride_state) < 713)%Q) /\
  forall now_ms dc dr,
    Player.can_hop now_ms (Game.player Demo.ride_state) = true ->
    exists col,
      0 <= col <= GRID_COLS - 1 /\
      Player.x (Player.hop now_ms dc dr (Game.player Demo.ride_state))
      = inject_Z (col * TILE) /\
      (0 <= Player.x (Player.hop now_ms dc dr (Game.player Demo.ride_state)))%Q /\
      (Player.x (Player.hop now_ms dc dr (Game.player Demo.ride_state))
       <= inject_Z ((GRID_COLS - 1) * TILE))%Q.
Proof.
  apply (C4_x_within_window_while_alive Demo.RandomRiver Demo.ride_state).
  - exact ride_state_reachable.
  - vm_compute. reflexivity.
Defined.

Section Terminal.
Variable Random : Z -> Rng.t.

Lemma ensure_lane_elsewhere row ft w r :
  r <> row ->
  World.lanes (World._ensure_lane Random row ft w) !! r = World.lanes w !! r.
Proof.
  intros Hne. destruct (World.lanes w !! row) as [l0|] eqn:E.
  - rewrite ensure_lane_present; eauto.
  - destruct (ensure_lane_absent Random row ft w E) as (l' & g & -> & _). cbn.
    by rewrite lookup_insert_ne.
Qed.

Lemma steps_cons a acts g :
  Game.steps Random (a :: acts) g
  = bind (Game.step Random a g) (Game.steps Random acts).
Proof.
  unfold Game.steps. cbn [fold_left bind].
  destruct (Game.step Random a g) as [g1| |]; cbn [bind]; [done | |].
  - induction acts as [|b acts IH]; [done | apply IH].
  - induction acts as [|b acts IH]; [done | apply IH].
Qed.

(** A step that is not a reset does nothing to a dead player. *)
Lemma dead_step a g g' :
  Player.alive (Game.player g) = false -> Game.is_reset a = false ->
  Game.step Random a g = Running g' ->
  Game.player g' = Game.player g /\ Game.world g' = Game.world g.
Proof.
  intros Ha Hnr Hstep. destruct a as [dt | [ev now_ms] | dt]; cbn [Game.step] in Hstep.
  - by injection Hstep as <-.
  - apply handle_event_cases in Hstep
      as [-> | [[-> _] | (key & dc & dr & _ & _ & Halive & _)]];
      [done | done | congruence].
  - rewrite update_dead in Hstep by done. by injection Hstep as <-.
Qed.

End Terminal.

(** C7, as stated, fails: a rejected request can mutate the world.  In the
    game of [Demo.streak_inputs] the player is alive on row 19, the rows
    below are pruned, and the last hop was at 7040 ms.  The down key at
    7090 ms comes within the cooldown and the player does not move; yet
    [_can_move_to] has asked [lane_at] for row 18 before [hop] looks at the
    cooldown, so the map has a new lane on row 18 and the generator of the
    world has moved from draw 201 to draw 207. *)
Lemma C7_rejected_hop_generates_lane :
  Player.alive (Game.player Demo.walk_back_state) = true /\
  Player.can_hop 7090 (Game.player Demo.walk_back_state) = false /\
  Game.handle_event Demo.RandomStreak (KEYDOWN K_DOWN, 7090) Demo.walk_back_state
  = Running Demo.walk_back_pressed /\
  Game.player Demo.walk_back_pressed = Game.player Demo.walk_back_state /\
  Lane.lane_type <$> World.lanes (Game.world Demo.walk_back_state) !! 18 = None /\
  Lane.lane_type <$> World.lanes (Game.world Demo.walk_back_pressed) !! 18
  = Some LANE_ROAD /\
  Rng.pos (World.rng (Game.world Demo.walk_back_state)) = 201%nat /\
  Rng.pos (World.rng (Game.world Demo.walk_back_pressed)) = 207%nat /\
  Demo.walk_back_pressed <> Demo.walk_back_state.
Proof.
  do 8 (split; [vm_compute; reflexivity|]).
  intros H.
  apply (f_equal (fun g => Rng.pos (World.rng (Game.world g)))) in H.
  vm_compute in H. discriminate.
Qed.

(** C7, amended.  A hop request whose target cell is a tree column of a
    grass lane, or that comes before the cooldown has elapsed, is handled
    without error and leaves the player (x, row, column, cooldown timestamp,
    alive flag and every other field), the camera, the clock total, the
    game-over flag and the module-level generator as they were.  For a dead
    player, and whenever the lane of the target row is already in the map,
    the whole game is unchanged.  Otherwise the world is what [lane_at]
    leaves when asked for the target row: the lane of that row is generated,
    no other row and not the generated-row mark change. *)
Theorem C7_illegal_hop_keeps_player :
  forall (Random : Z -> Rng.t) (g : Game.t) (key : Key) (now_ms dc dr : Z),
    Game.delta key = Some (dc, dr) ->
    (exists lane,
       fst (World.lane_at Random (Z.max 0 (Player.row (Game.player g) + dr))
                          (Game.world g)) = Some lane /\
       Lane.lane_type lane = LANE_GRASS /\
       Lane.has_tree_at lane
         (clamp (Player._grid_col (Game.player g) + dc) 0 (GRID_COLS - 1)) = true)
    \/ Player.can_hop now_ms (Game.player g) = false ->
    exists g',
      Game.handle_event Random (KEYDOWN key, now_ms) g = Running g' /\
      Game.player g' = Game.player g /\
      Game.camera_y g' = Game.camera_y g /\ Game.t_total g' = Game.t_total g /\
      Game.game_over g' = Game.game_over g /\ Game.random g' = Game.random g /\
      (forall r, r <> Z.max 0 (Player.row (Game.player g) + dr) ->
                 World.lanes (Game.world g') !! r = World.lanes (Game.world g) !! r) /\
      World.max_generated_row (Game.world g')
      = World.max_generated_row (Game.world g) /\
      (is_Some (World.lanes (Game.world g)
                  !! Z.max 0 (Player.row (Game.player g) + dr)) -> g' = g) /\
      (Player.alive (Game.player g) = false -> g' = g) /\
      (Player.alive (Game.player g) = true ->
       Game.world g'
       = snd (World.lane_at Random (Z.max 0 (Player.row (Game.player g) + dr))
                            (Game.world g)) /\
       is_Some (World.lanes (Game.world g')
                  !! Z.max 0 (Player.row (Game.player g) + dr))).
Proof.
  intros Random g key now_ms dc dr Hd Hillegal.
  rewrite (handle_arrow Random key now_ms dc dr g Hd).
  destruct (Player.alive (Game.player g)) eqn:Ha; cbn [negb];
    [|exists g; by repeat split].
  unfold Game.try_hop.
  destruct (can_move_to_spec Random dc dr g) as (lane & Hlane & ->). cbn [bind].
  set (w := World._ensure_lane Random _ None (Game.world g)) in *.
  assert (Hplayer :
    (if negb (LaneType_eqb (Lane.lane_type lane) LANE_GRASS
              && Lane.has_tree_at lane
                   (clamp (Player._grid_col (Game.player g) + dc) 0 (GRID_COLS - 1)))
     then Game.set_player
            (Player.hop now_ms dc dr (Game.player (Game.set_world w g)))
            (Game.set_world w g)
     else Game.set_world w g) = Game.set_world w g).
  { destruct Hillegal as [(lane' & Hl' & Hty & Htree) | Hcool].
    - cbn in Hl'. fold w in Hl'. assert (lane' = lane) as -> by congruence.
      by rewrite Hty, Htree.
    - destruct (negb _); [|done]. cbn [Game.player Game.set_world].
      rewrite hop_rejected by auto. by destruct g. }
  rewrite Hplayer. exists (Game.set_world w g). split; [done|].
  do 5 (split; [done|]). split; [|split; [|split; [|split]]].
  - intros r Hr. cbn. subst w. by apply ensure_lane_elsewhere.
  - cbn. subst w. apply ensure_lane_max.
  - intros Hsome. subst w. rewrite ensure_lane_present by done.
    apply set_world_same.
  - done.
  - intros _. split; [done|]. cbn [Game.world Game.set_world]. eauto.
Qed.

Lemma C7_illegal_hop_witness :
  exists g',
    Game.handle_event Demo.RandomTrees (KEYDOWN K_UP, 200)
      (Game.__init__ Demo.RandomTrees Demo.random0) = Running g' /\
    Game.player g' = Game.player (Game.__init__ Demo.RandomTrees Demo.random0) /\
    Game.camera_y g' = Game.camera_y (Game.__init__ Demo.RandomTrees Demo.random0) /\
    Game.t_total g' = Game.t_total (Game.__init__ Demo.RandomTrees Demo.random0) /\
    Game.game_over g' = Game.game_over (Game.__init__ Demo.RandomTrees Demo.random0) /\
    Game.random g' = Game.random (Game.__init__ Demo.RandomTrees Demo.random0) /\
    (forall r,
       r <> Z.max 0 (Player.row (Game.player
                                   (Game.__init__ Demo.RandomTrees Demo.random0)) + 1) ->
       World.lanes (Game.world g') !! r
       = World.lanes (Game.world (Game.__init__ Demo.RandomTrees Demo.random0)) !! r) /\
    World.max_generated_row (Game.world g')
    = World.max_generated_row
        (Game.world (Game.__init__ Demo.RandomTrees Demo.random0)) /\
    (is_Some (World.lanes (Game.world (Game.__init__ Demo.RandomTrees Demo.random0))
                !! Z.max 0 (Player.row (Game.player
                                   (Game.__init__ Demo.RandomTrees Demo.random0)) + 1)) ->
     g' = Game.__init__ Demo.RandomTrees Demo.random0) /\
    (Player.alive (Game.player (Game.__init__ Demo.RandomTrees Demo.random0)) = false ->
     g' = Game.__init__ Demo.RandomTrees Demo.random0) /\
    (Player.alive (Game.player (Game.__init__ Demo.RandomTrees Demo.random0)) = true ->
     Game.world g'
     = snd (World.lane_at Demo.RandomTrees
              (Z.max 0 (Player.row (Game.player
                                   (Game.__init__ Demo.RandomTrees Demo.random0)) + 1))
              (Game.world (Game.__init__ Demo.RandomTrees Demo.random0))) /\
     is_Some (World.lanes (Game.world g')
                !! Z.max 0 (Player.row (Game.player
                                   (Game.__init__ Demo.RandomTrees Demo.random0)) + 1))).
Proof.
  apply (C7_illegal_hop_keeps_player Demo.RandomTrees
           (Game.__init__ Demo.RandomTrees Demo.random0) K_UP 200 0 1).
  - reflexivity.
  - left. eexists. split; [vm_compute; reflexivity|]. split; vm_compute; reflexivity.
Defined.

(** C9. A dead player stays dead.  Whatever sequence of clock steps,
    events and simulation steps follows, as long as none of them is the
    restart key the game keeps returning and the player (position, row, score
    and every other field) and the world stay as they are; the simulation
    step only raises the game-over flag; [hop] is not accepted; and a reset
    makes the player alive again. *)
Theorem C9_dead_is_terminal :
  forall (Random : Z -> Rng.t) (g : Game.t),
    Player.alive (Game.player g) = false ->
    (forall (acts : list Game.Action) (g' : Game.t),
       Forall (fun a => Game.is_reset a = false) acts ->
       Game.steps Random acts g = Running g' ->
       Game.player g' = Game.player g /\ Game.world g' = Game.world g /\
       Player.alive (Game.player g') = false) /\
    (forall dt,
       Game._update Random dt g
       = Running (Game.mk (Game.world g) (Game.player g) (Game.camera_y g)
                          (Game.t_total g) true (Game.random g))) /\
    (forall key now_ms,
       key <> K_r -> key <> K_ESCAPE ->
       Game.handle_event Random (KEYDOWN key, now_ms) g = Running g) /\
    (forall now_ms dc dr, Player.hop now_ms dc dr (Game.player g) = Game.player g) /\
    (forall dt, Player.update dt (Game.player g) = Game.player g) /\
    Player.alive (Game.player (Game.reset Random g)) = true.
Proof.
  intros Random g Ha. split; [|split; [|split; [|split; [|split]]]].
  - intros acts. revert g Ha.
    induction acts as [|a acts IH]; intros g Ha g' Hall Hsteps.
    + cbn in Hsteps. by injection Hsteps as <-.
    + rewrite steps_cons in Hsteps. apply Forall_cons in Hall as [Hnr Hall].
      destruct (Game.step Random a g) as [g1| |] eqn:Hstep; cbn [bind] in Hsteps;
        try done.
      destruct (dead_step Random a g g1 Ha Hnr Hstep) as [Hp Hw].
      destruct (IH g1 ltac:(by rewrite Hp) g' Hall Hsteps) as (-> & -> & ->).
      by rewrite Hp, Hw.
  - intros dt. by apply update_dead.
  - intros key now_ms Hr He. unfold Game.handle_event.
    destruct key; try done; by rewrite Ha.
  - intros now_ms dc dr. apply hop_rejected. by left.
  - intros dt. by apply player_update_dead.
  - by destruct (reset_facts_game Random g) as (_ & _ & _ & -> & _).
Qed.

Lemma C9_dead_is_terminal_witness :
  (forall (acts : list Game.Action) (g' : Game.t),
     Forall (fun a => Game.is_reset a = false) acts ->
     Game.steps Demo.RandomRiver acts Demo.drowned_state = Running g' ->
     Game.player g' = Game.player Demo.drowned_state /\
     Game.world g' = Game.world Demo.drowned_state /\
     Player.alive (Game.player g') = false) /\
  (forall dt,
     Game._update Demo.RandomRiver dt Demo.drowned_state
     = Running (Game.mk (Game.world Demo.drowned_state)
                        (Game.player Demo.drowned_state)
                        (Game.camera_y Demo.drowned_state)
                        (Game.t_total Demo.drowned_state) true
                        (Game.random Demo.drowned_state))) /\
  (forall key now_ms,
     key <> K_r -> key <> K_ESCAPE ->
     Game.handle_event Demo.RandomRiver (KEYDOWN key, now_ms) Demo.drowned_state
     = Running Demo.drowned_state) /\
  (forall now_ms dc dr,
     Player.hop now_ms dc dr (Game.player Demo.drowned_state)
     = Game.player Demo.drowned_state) /\
  (forall dt, Player.update dt (Game.player Demo.drowned_state)
              = Game.player Demo.drowned_state) /\
  Player.alive (Game.player (Game.reset Demo.RandomRiver Demo.drowned_state)) = true.
Proof.
  apply (C9_dead_is_terminal Demo.RandomRiver Demo.drowned_state).
  vm_compute. reflexivity.
Defined.

(** C10. For a living player whose cooldown has elapsed, a hop whose
    clamped target cell is the current cell and is not blocked is accepted:
    the event is handled without error, the cooldown timestamp becomes the
    clock reading, x is snapped to the left edge of the column of
    [_grid_col], which is the nearest column, at most half a tile away and
    no further than any other (whatever offset a log had given is gone),
    the hop animation restarts, and row and column are what they were. *)
Theorem C10_hop_in_place_accepted :
  forall (Random : Z -> Rng.t) (g : Game.t) (key : Key) (now_ms dc dr : Z),
    Game.delta key = Some (dc, dr) ->
    Player.alive (Game.player g) = true ->
    Player.can_hop now_ms (Game.player g) = true ->
    clamp (Player._grid_col (Game.player g) + dc) 0 (GRID_COLS - 1)
    = Player._grid_col (Game.player g) ->
    Z.max 0 (Player.row (Game.player g) + dr) = Player.row (Game.player g) ->
    (forall lane,
       fst (World.lane_at Random (Player.row (Game.player g)) (Game.world g))
       = Some lane ->
       LaneType_eqb (Lane.lane_type lane) LANE_GRASS
       && Lane.has_tree_at lane (Player._grid_col (Game.player g)) = false) ->
    exists g',
      Game.handle_event Random (KEYDOWN key, now_ms) g = Running g' /\
      Player.last_hop_ms (Game.player g') = now_ms /\
      Player.x (Game.player g')
      = inject_Z (Player._grid_col (Game.player g) * TILE) /\
      (Qabs (Player.x (Game.player g') - Player.x (Game.player g)) <= 24)%Q /\
      (forall c : Z,
         (Qabs (Player.x (Game.player g') - Player.x (Game.player g))
          <= Qabs (inject_Z (c * TILE) - Player.x (Game.player g)))%Q) /\
      0 <= Player._grid_col (Game.player g) <= GRID_COLS - 1 /\
      Player.row (Game.player g') = Player.row (Game.player g) /\
      Player._grid_col (Game.player g') = Player._grid_col (Game.player g) /\
      Player.hop_animating (Game.player g') = true /\
      Player.hop_progress (Game.player g') = 0%Q /\
      Player.alive (Game.player g') = true.
Proof.
  intros Random g key now_ms dc dr Hd Ha Hc Hcol Hrow Hfree.
  rewrite (handle_arrow Random key now_ms dc dr g Hd), Ha. cbn [negb].
  unfold Game.try_hop.
  destruct (can_move_to_spec Random dc dr g) as (lane & Hlane & ->). cbn [bind].
  pose proof (clamp_bounds (Player._grid_col (Game.player g) + dc) 0
                (GRID_COLS - 1) ltac:(done)) as Hb.
  rewrite Hcol, Hrow in *.
  rewrite (Hfree lane) by (cbn; exact Hlane). cbn [negb].
  eexists. split; [reflexivity|].
  cbn [Game.player Game.set_player Game.set_world].
  rewrite hop_accepted by done. rewrite Hcol, Hrow.
  cbn [Player.last_hop_ms Player.x Player.row Player.hop_animating
       Player.hop_progress Player.alive].
  destruct (grid_col_nearest (Player.x (Game.player g))) as [Hnear Hbest].
  fold (Player._grid_col (Game.player g)) in Hnear, Hbest.
  do 2 (split; [done|]). split; [exact Hnear|]. split; [exact Hbest|].
  split; [exact Hb|]. split; [done|]. split; [|done].
  unfold Player._grid_col at 1. cbn [Player.x]. apply round_grid.
Qed.

Lemma C10_hop_in_place_witness :
  exists g',
    Game.handle_event Demo.RandomRiver (KEYDOWN K_LEFT, 13000) Demo.rode_state
    = Running g' /\
    Player.last_hop_ms (Game.player g') = 13000 /\
    Player.x (Game.player g')
    = inject_Z (Player._grid_col (Game.player Demo.rode_state) * TILE) /\
    (Qabs (Player.x (Game.player g') - Player.x (Game.player Demo.rode_state))
     <= 24)%Q /\
    (forall c : Z,
       (Qabs (Player.x (Game.player g') - Player.x (Game.player Demo.rode_state))
        <= Qabs (inject_Z (c * TILE) - Player.x (Game.player Demo.rode_state)))%Q) /\
    0 <= Player._grid_col (Game.player Demo.rode_state) <= GRID_COLS - 1 /\
    Player.row (Game.player g') = Player.row (Game.player Demo.rode_state) /\
    Player._grid_col (Game.player g')
    = Player._grid_col (Game.player Demo.rode_state) /\
    Player.hop_animating (Game.player g') = true /\
    Player.hop_progress (Game.player g') = 0%Q /\
    Player.alive (Game.player g') = true.
Proof.
  apply (C10_hop_in_place_accepted Demo.RandomRiver Demo.rode_state K_LEFT
           13000 (-1) 0).
  - reflexivity.
  - vm_compute. reflexivity.
  - vm_compute. reflexivity.
  - vm_compute. reflexivity.
  - vm_compute. reflexivity.
  - intros lane Hlane. vm_compute in Hlane. injection Hlane as <-.
    vm_compute. reflexivity.
Defined.

(** C8. Generation is a function of the seed and of the calls made on the
    world.  Two runs whose [reset] draws the same seed, and that make the
    same calls with the same rows, agree row by row on what generation fixes
    of a lane (type, direction, speed, tree columns) whatever the frame times
    and whatever the module-level generator does to the traffic.  The tree
    query of a lane answers the same after any [Lane.update]; a lane that
    stays in the map across a call keeps its tree answers; and
    [_can_move_to] answers from [has_tree_at] of the very lane that the map
    holds at the target row. *)
Theorem C8_generation_deterministic :
  forall (Random : Z -> Rng.t) (random1 random2 : Rng.t)
         (ops1 ops2 : list World.Op),
    fst (Rng.randint 0 10000000 random1) = fst (Rng.randint 0 10000000 random2) ->
    Forall2 World.same_call ops1 ops2 ->
    (forall r,
       World.static
         <$> (World.lanes (fst (World.exec Random ops1 (World.reset Random random1)))
                !! r)
       = World.static
           <$> (World.lanes (fst (World.exec Random ops2 (World.reset Random random2)))
                  !! r)) /\
    (forall dt l random col,
       Lane.has_tree_at (fst (Lane.update dt l random)) col = Lane.has_tree_at l col) /\
    (forall op st r l l' col,
       World.lanes (fst st) !! r = Some l ->
       World.lanes (fst (World.apply Random op st)) !! r = Some l' ->
       Lane.has_tree_at l' col = Lane.has_tree_at l col) /\
    (forall g dc dr,
       exists lane ok g',
         Game._can_move_to Random dc dr g = Running (ok, g') /\
         World.lanes (Game.world g') !! Z.max 0 (Player.row (Game.player g) + dr)
         = Some lane /\
         ok = negb (LaneType_eqb (Lane.lane_type lane) LANE_GRASS
                    && Lane.has_tree_at lane
                         (clamp (Player._grid_col (Game.player g) + dc) 0
                                (GRID_COLS - 1)))).
Proof.
  intros Random random1 random2 ops1 ops2 Hseed Hcalls.
  split; [|split; [|split]].
  - intros r. apply static_lookup_eq.
    apply (exec_same Random ops1 ops2 Hcalls).
    pose proof (reset_same Random random1 random2 Hseed) as Hw.
    rewrite Hw. done.
  - intros dt l random col. unfold Lane.has_tree_at.
    by destruct (lane_update_fixed dt l random) as (_ & _ & _ & _ & _ & ->).
  - intros op st r l l' col Hl Hl'.
    pose proof (apply_keeps_static Random op st r l l' Hl Hl') as Hst.
    unfold World.static in Hst. unfold Lane.has_tree_at.
    by replace (Lane.tree_positions l') with (Lane.tree_positions l) by congruence.
  - intros g dc dr.
    destruct (can_move_to_spec Random dc dr g) as (lane & Hlane & Hcan).
    exists lane. eexists _, _. split; [exact Hcan|]. by split.
Qed.

Lemma C8_generation_witness :
  World.static
    <$> (World.lanes
           (fst (World.exec Demo.RandomRiver
                   [World.OpUpdate (16 # 1000) 2; World.OpLaneAt 3;
                    World.OpUpdate 1 3]
                   (World.reset Demo.RandomRiver Demo.random0))) !! 10)
  = World.static
      <$> (World.lanes
             (fst (World.exec Demo.RandomRiver
                     [World.OpUpdate (1 # 10) 2; World.OpLaneAt 3;
                      World.OpUpdate 2 3]
                     (World.reset Demo.RandomRiver
                        (Demo.tape [(0%nat, Demo.raw 3 4)] 0)))) !! 10).
Proof.
  apply (C8_generation_deterministic Demo.RandomRiver Demo.random0
           (Demo.tape [(0%nat, Demo.raw 3 4)] 0)).
  - vm_compute. reflexivity.
  - repeat constructor.
Defined.

(** Where the rule applies it does force a safe lane. *)
Lemma choose_lane_type_forced row w :
  10 <= row ->
  World.is_hazard (World.lanes w !! (row - 1)) = true ->
  World.is_hazard (World.lanes w !! (row - 2)) = true ->
  World._choose_lane_type row w = (LANE_GRASS, World.rng w).
Proof.
  intros Hrow H1 H2. unfold World._choose_lane_type.
  destruct (row <? 10) eqn:E; [lia|]. by rewrite H1, H2.
Qed.

(** The same defect on the world alone: the calls that a climb to row 39
    and a walk back to row 19 make, followed by [lane_at 18]. *)
Lemma regenerated_lane_by_world_calls :
  Demo.lane_types
    (fst (World.exec Demo.RandomHalf (removelast Demo.there_and_back)
            (World.reset Demo.RandomHalf Demo.random0)))
    [17; 18; 19; 20]
  = [None; None; Some LANE_ROAD; Some LANE_ROAD] /\
  Demo.lane_types
    (fst (World.exec Demo.RandomHalf Demo.there_and_back
            (World.reset Demo.RandomHalf Demo.random0)))
    [17; 18; 19; 20]
  = [None; Some LANE_ROAD; Some LANE_ROAD; Some LANE_ROAD].
Proof. split; vm_compute; reflexivity. Qed.

(** C5. The anti-streak rule looks only at the two rows below the new one,
    and a row that was pruned is generated again when the player walks back
    to it.  In the game of [Demo.streak_inputs] the player climbs to row 39,
    which prunes every row below 19, and walks back down; rows 19 and 20 are
    roads.  After 64 frames the player stands on row 19 and rows 17 and 18
    are gone; the down-hop of frame 65 asks [lane_at 18], which draws a road
    for row 18: three hazardous lanes in a row, all at or above row 10, with
    the player alive on the lowest of them. *)
Theorem C5_regenerated_lane_breaks_anti_streak :
  match Game.run Demo.RandomStreak (removelast Demo.streak_inputs) Demo.random0 with
  | Running g =>
      Player.alive (Game.player g) = true /\ Player.row (Game.player g) = 19 /\
      Demo.lane_types (Game.world g) [17; 18; 19; 20]
      = [None; None; Some LANE_ROAD; Some LANE_ROAD]
  | _ => False
  end /\
  match Game.run Demo.RandomStreak Demo.streak_inputs Demo.random0 with
  | Running g =>
      Player.alive (Game.player g) = true /\ Player.row (Game.player g) = 18 /\
      Demo.lane_types (Game.world g) [17; 18; 19; 20]
      = [None; Some LANE_ROAD; Some LANE_ROAD; Some LANE_ROAD]
  | _ => False
  end.
Proof. split; vm_compute; auto. Qed.

(** * Further properties of the core *)

(** ** More on numbers and generators *)

(** [int] truncates toward zero. *)
Lemma int_toward_zero f :
  ((0 <= f)%Q -> 0 <= int f /\ (inject_Z (int f) <= f)%Q) /\
  ((f <= 0)%Q -> int f <= 0 /\ (f <= inject_Z (int f))%Q).
Proof.
  destruct f as [n d]. unfold int, Qle, inject_Z. cbn [Qnum Qden].
  pose proof (Z.quot_rem' n (Z.pos d)) as Hqr.
  split; intros Hn.
  - assert (H0 : 0 <= n) by lia.
    pose proof (Z.rem_bound_pos n (Z.pos d) H0 ltac:(lia)).
    pose proof (Z.quot_pos n (Z.pos d) H0 ltac:(lia)). nia.
  - assert (H0 : n <= 0) by lia.
    pose proof (Z.rem_nonpos n (Z.pos d) ltac:(lia) H0).
    pose proof (Z.rem_bound_abs n (Z.pos d) ltac:(lia)).
    assert (n ÷ Z.pos d <= 0) by nia. nia.
Qed.

Lemma uniform_bounds a b g :
  (a <= b)%Q ->
  (a <= fst (Rng.uniform (a, b) g))%Q /\ (fst (Rng.uniform (a, b) g) <= b)%Q.
Proof.
  intros Hab. split; [by apply uniform_lower|]. unfold Rng.uniform.
  pose proof (random_bounds g) as [H0 H1].
  destruct (Rng.random g) as [u g']. cbn [fst snd] in *.
  assert ((b - a) * u <= (b - a) * 1)%Q
    by (apply Qmult_le_l_weak || (rewrite !(Qmult_comm (b - a)); apply Qmult_le_compat_r; lra)).
  lra.
Qed.

Lemma randint_bounds a b g :
  a <= b -> a <= fst (Rng.randint a b g) <= b.
Proof.
  intros Hab. unfold Rng.randint.
  pose proof (randbelow_bounds (b - a + 1) g ltac:(lia)) as H.
  destruct (Rng._randbelow (b - a + 1) g) as [k g']. cbn [fst] in *. lia.
Qed.

Lemma choice_in {A : Type} (d : A) (seq : list A) g :
  seq <> [] -> In (fst (Rng.choice d seq g)) seq.
Proof.
  intros Hne. unfold Rng.choice.
  assert (Hlen : 0 < Z.of_nat (length seq)) by (destruct seq; [done | cbn; lia]).
  pose proof (randbelow_bounds _ g Hlen) as H.
  destruct (Rng._randbelow _ g) as [k g']. cbn [fst] in *.
  apply nth_In. lia.
Qed.

(** ** Obstacles and traffic *)

Lemma obstacle_update_moves :
  forall (dt : Q) (o : Obstacle.t),
    Rect.y (Obstacle.rect (Obstacle.update dt o)) = Rect.y (Obstacle.rect o) /\
    Rect.w (Obstacle.rect (Obstacle.update dt o)) = Rect.w (Obstacle.rect o) /\
    Rect.h (Obstacle.rect (Obstacle.update dt o)) = Rect.h (Obstacle.rect o) /\
    Obstacle.speed (Obstacle.update dt o) = Obstacle.speed o /\
    Obstacle.kind (Obstacle.update dt o) = Obstacle.kind o /\
    (inject_Z (Rect.x (Obstacle.rect (Obstacle.update dt o))
               - Rect.x (Obstacle.rect o)) - 1 < Obstacle.speed o * dt)%Q /\
    (Obstacle.speed o * dt
     < inject_Z (Rect.x (Obstacle.rect (Obstacle.update dt o))
                 - Rect.x (Obstacle.rect o)) + 1)%Q /\
    ((0 <= Obstacle.speed o * dt)%Q ->
     Rect.x (Obstacle.rect o) <= Rect.x (Obstacle.rect (Obstacle.update dt o)) /\
     (inject_Z (Rect.x (Obstacle.rect (Obstacle.update dt o))
                - Rect.x (Obstacle.rect o)) <= Obstacle.speed o * dt)%Q) /\
    ((Obstacle.speed o * dt <= 0)%Q ->
     Rect.x (Obstacle.rect (Obstacle.update dt o)) <= Rect.x (Obstacle.rect o) /\
     (Obstacle.speed o * dt
      <= inject_Z (Rect.x (Obstacle.rect (Obstacle.update dt o))
                   - Rect.x (Obstacle.rect o)))%Q).
Proof.
  intros dt o. unfold Obstacle.update. cbn [Obstacle.rect Obstacle.speed
    Obstacle.kind Rect.x Rect.y Rect.w Rect.h].
  do 5 (split; [done|]).
  replace (Rect.x (Obstacle.rect o) + int (Obstacle.speed o * dt)
           - Rect.x (Obstacle.rect o)) with (int (Obstacle.speed o * dt)) by lia.
  pose proof (int_close (Obstacle.speed o * dt)) as [H1 H2].
  pose proof (int_toward_zero (Obstacle.speed o * dt)) as [H3 H4].
  do 2 (split; [done|]). split; intros H.
  - destruct (H3 H). split; [lia | done].
  - destruct (H4 H). split; [lia | done].
Qed.

(** X1. An obstacle moves by the truncated product: within one pixel of
    [speed * dt], never past it and never against it; nothing else of the
    obstacle changes. *)
Theorem obstacle_update_within_one_pixel :
  forall (dt : Q) (o : Obstacle.t),
    Rect.y (Obstacle.rect (Obstacle.update dt o)) = Rect.y (Obstacle.rect o) /\
    Rect.w (Obstacle.rect (Obstacle.update dt o)) = Rect.w (Obstacle.rect o) /\
    Rect.h (Obstacle.rect (Obstacle.update dt o)) = Rect.h (Obstacle.rect o) /\
    Obstacle.speed (Obstacle.update dt o) = Obstacle.speed o /\
    Obstacle.kind (Obstacle.update dt o) = Obstacle.kind o /\
    (inject_Z (Rect.x (Obstacle.rect (Obstacle.update dt o))
               - Rect.x (Obstacle.rect o)) - 1 < Obstacle.speed o * dt)%Q /\
    (Obstacle.speed o * dt
     < inject_Z (Rect.x (Obstacle.rect (Obstacle.update dt o))
                 - Rect.x (Obstacle.rect o)) + 1)%Q /\
    ((0 <= Obstacle.speed o * dt)%Q ->
     Rect.x (Obstacle.rect o) <= Rect.x (Obstacle.rect (Obstacle.update dt o)) /\
     (inject_Z (Rect.x (Obstacle.rect (Obstacle.update dt o))
                - Rect.x (Obstacle.rect o)) <= Obstacle.speed o * dt)%Q) /\
    ((Obstacle.speed o * dt <= 0)%Q ->
     Rect.x (Obstacle.rect (Obstacle.update dt o)) <= Rect.x (Obstacle.rect o) /\
     (Obstacle.speed o * dt
      <= inject_Z (Rect.x (Obstacle.rect (Obstacle.update dt o))
                   - Rect.x (Obstacle.rect o)))%Q).
Proof. exact obstacle_update_moves. Qed.

Lemma obstacle_update_keeps_wf dt l o :
  obstacle_wf l o -> obstacle_wf l (Obstacle.update dt o).
Proof. unfold obstacle_wf, Obstacle.update. by destruct o as [[x y w h] v c k]. Qed.

(** Past the cull margin an obstacle stays past it. *)
Lemma far_offscreen_stable dt o :
  (0 <= dt)%Q -> Lane._is_far_offscreen o = true ->
  Lane._is_far_offscreen (Obstacle.update dt o) = true.
Proof.
  intros Hdt. unfold Lane._is_far_offscreen.
  destruct (obstacle_update_moves dt o)
    as (_ & Hw & _ & Hv & _ & _ & _ & Hpos & Hneg).
  rewrite Hv. unfold Rect.left, Rect.right. rewrite Hw.
  destruct (Qltb 0 (Obstacle.speed o)) eqn:E.
  - apply Qltb_lt in E.
    assert (0 <= Obstacle.speed o * dt)%Q by (apply Qmult_le_0_compat; lra).
    destruct (Hpos ltac:(done)) as [Hx _]. lia.
  - assert (Hle : (Obstacle.speed o <= 0)%Q).
    { apply Qnot_lt_le. intros Hlt. apply Qltb_lt in Hlt. congruence. }
    assert (Obstacle.speed o * dt <= 0)%Q.
    { setoid_replace (Obstacle.speed o * dt)%Q
        with (- ((- Obstacle.speed o) * dt))%Q using relation Qeq by ring.
      assert (0 <= (- Obstacle.speed o) * dt)%Q by (apply Qmult_le_0_compat; lra).
      lra. }
    destruct (Hneg ltac:(done)) as [Hx _]. lia.
Qed.

Lemma car_lengths :
  map (fun len => int (inject_Z TILE * len)) [12 # 10; 15 # 10; 18 # 10; 22 # 10]%Q
  = [57; 72; 86; 105].
Proof. reflexivity. Qed.

Lemma log_lengths :
  map (fun len => int (inject_Z TILE * len)) [16 # 10; 20 # 10; 24 # 10; 30 # 10]%Q
  = [76; 96; 115; 144].
Proof. reflexivity. Qed.

(** What [_spawn_vehicle] does once the lane's traffic has moved. *)
Lemma spawn_vehicle_spec dt l random :
  let l' := fst (Lane._spawn_vehicle dt l random) in
  Lane.lane_type l' = Lane.lane_type l /\ Lane.row l' = Lane.row l /\
  Lane.direction l' = Lane.direction l /\ Lane.speed l' = Lane.speed l /\
  Lane.decoration_seed l' = Lane.decoration_seed l /\
  Lane.tree_positions l' = Lane.tree_positions l /\
  if Qltb 0 (Lane.last_spawn_t l - dt)
  then Lane.objects l' = Lane.objects l /\
       Lane.last_spawn_t l' = (Lane.last_spawn_t l - dt)%Q /\
       snd (Lane._spawn_vehicle dt l random) = random
  else exists o,
       Lane.objects l' = Lane.objects l ++ [o] /\
       (22 # 10 <= Lane.last_spawn_t l')%Q /\ (Lane.last_spawn_t l' <= 45 # 10)%Q /\
       Obstacle.kind o = car /\
       Obstacle.speed o = (Lane.speed l * inject_Z (Lane.direction l))%Q /\
       Rect.h (Obstacle.rect o) = 35 /\
       In (Rect.w (Obstacle.rect o)) [57; 72; 86; 105] /\
       Rect.y (Obstacle.rect o) = Lane.world_y l + 6 /\
       (if 0 <? Lane.direction l
        then -80 <= Rect.right (Obstacle.rect o) <= -10
        else 730 <= Rect.left (Obstacle.rect o) <= 800).
Proof.
  unfold Lane._spawn_vehicle.
  destruct l as [ty row dir sp gap last objs seed trees].
  cbn [Lane.set_last_spawn_t Lane.last_spawn_t Lane.lane_type Lane.row
       Lane.direction Lane.speed Lane.spawn_gap Lane.objects
       Lane.decoration_seed Lane.tree_positions].
  destruct (Qltb 0 (last - dt)); [cbn; done|].
  pose proof (uniform_bounds (22 # 10) (45 # 10) random ltac:(lra)) as Hgap.
  change (22 # 10, 45 # 10)%Q with CAR_SPAWN_GAP_RANGE in Hgap.
  destruct (Rng.uniform CAR_SPAWN_GAP_RANGE random) as [gap' r1]. cbn [fst] in Hgap.
  pose proof (choice_in 0%Q [12 # 10; 15 # 10; 18 # 10; 22 # 10]%Q r1 ltac:(done))
    as Hlen.
  destruct (Rng.choice 0%Q _ r1) as [len r2]. cbn [fst] in Hlen.
  pose proof (randint_bounds 10 80 r2 ltac:(lia)) as Hoff.
  destruct (Rng.randint 10 80 r2) as [off r3]. cbn [fst] in Hoff.
  destruct (Rng.choice (0, 0, 0) CAR_COLORS r3) as [col r4].
  cbn [fst snd Lane.set_objects Lane.set_last_spawn_t Lane.last_spawn_t
       Lane.lane_type Lane.row Lane.direction Lane.speed Lane.spawn_gap
       Lane.objects Lane.decoration_seed Lane.tree_positions].
  do 6 (split; [done|]). eexists. split; [reflexivity|].
  cbn [Obstacle.kind Obstacle.speed Obstacle.rect Rect.h Rect.w Rect.x Rect.y].
  split; [apply Hgap|]. split; [apply Hgap|]. do 3 (split; [reflexivity|]).
  split; [|split].
  - rewrite <- car_lengths. by apply (in_map (fun len => int (inject_Z TILE * len))).
  - reflexivity.
  - unfold Rect.right, Rect.left.
    cbn [Rect.x Rect.w]. destruct (0 <? dir); unfold WINDOW_W; lia.
Qed.

Lemma spawn_log_spec dt l random :
  let l' := fst (Lane._spawn_log dt l random) in
  Lane.lane_type l' = Lane.lane_type l /\ Lane.row l' = Lane.row l /\
  Lane.direction l' = Lane.direction l /\ Lane.speed l' = Lane.speed l /\
  Lane.decoration_seed l' = Lane.decoration_seed l /\
  Lane.tree_positions l' = Lane.tree_positions l /\
  if Qltb 0 (Lane.last_spawn_t l - dt)
  then Lane.objects l' = Lane.objects l /\
       Lane.last_spawn_t l' = (Lane.last_spawn_t l - dt)%Q /\
       snd (Lane._spawn_log dt l random) = random
  else exists o,
       Lane.objects l' = Lane.objects l ++ [o] /\
       (2 <= Lane.last_spawn_t l')%Q /\ (Lane.last_spawn_t l' <= 4)%Q /\
       Obstacle.kind o = log /\
       Obstacle.speed o = (Lane.speed l * inject_Z (Lane.direction l))%Q /\
       Rect.h (Obstacle.rect o) = 33 /\
       In (Rect.w (Obstacle.rect o)) [76; 96; 115; 144] /\
       Rect.y (Obstacle.rect o) = Lane.world_y l + 7 /\
       (if 0 <? Lane.direction l
        then -120 <= Rect.right (Obstacle.rect o) <= -10
        else 730 <= Rect.left (Obstacle.rect o) <= 840).
Proof.
  unfold Lane._spawn_log.
  destruct l as [ty row dir sp gap last objs seed trees].
  cbn [Lane.set_last_spawn_t Lane.last_spawn_t Lane.lane_type Lane.row
       Lane.direction Lane.speed Lane.spawn_gap Lane.objects
       Lane.decoration_seed Lane.tree_positions].
  destruct (Qltb 0 (last - dt)); [cbn; done|].
  pose proof (uniform_bounds 2 4 random ltac:(lra)) as Hgap.
  change (2%Q, 4%Q) with LOG_SPAWN_GAP_RANGE in Hgap.
  destruct (Rng.uniform LOG_SPAWN_GAP_RANGE random) as [gap' r1]. cbn [fst] in Hgap.
  pose proof (choice_in 0%Q [16 # 10; 20 # 10; 24 # 10; 30 # 10]%Q r1 ltac:(done))
    as Hlen.
  destruct (Rng.choice 0%Q _ r1) as [len r2]. cbn [fst] in Hlen.
  pose proof (randint_bounds 10 120 r2 ltac:(lia)) as Hoff.
  destruct (Rng.randint 10 120 r2) as [off r3]. cbn [fst] in Hoff.
  destruct (Rng.choice (0, 0, 0) LOG_COLORS r3) as [col r4].
  cbn [fst snd Lane.set_objects Lane.set_last_spawn_t Lane.last_spawn_t
       Lane.lane_type Lane.row Lane.direction Lane.speed Lane.spawn_gap
       Lane.objects Lane.decoration_seed Lane.tree_positions].
  do 6 (split; [done|]). eexists. split; [reflexivity|].
  cbn [Obstacle.kind Obstacle.speed Obstacle.rect Rect.h Rect.w Rect.x Rect.y].
  split; [apply Hgap|]. split; [apply Hgap|]. do 3 (split; [reflexivity|]).
  split; [|split].
  - rewrite <- log_lengths. by apply (in_map (fun len => int (inject_Z TILE * len))).
  - reflexivity.
  - unfold Rect.right, Rect.left.
    cbn [Rect.x Rect.w]. destruct (0 <? dir); unfold WINDOW_W; lia.
Qed.

Lemma lane_update_unfold dt l random :
  Lane.update dt l random
  = match Lane.lane_type l with
    | LANE_GRASS =>
        (Lane.set_objects (map (Obstacle.update dt) (Lane.objects l)) l, random)
    | LANE_ROAD =>
        Lane._spawn_vehicle dt
          (Lane.set_objects
             (List.filter (fun o => negb (Lane._is_far_offscreen o))
                          (map (Obstacle.update dt) (Lane.objects l))) l) random
    | LANE_RIVER =>
        Lane._spawn_log dt
          (Lane.set_objects
             (List.filter (fun o => negb (Lane._is_far_offscreen o))
                          (map (Obstacle.update dt) (Lane.objects l))) l) random
    end.
Proof. destruct l as [ty row dir sp gap last objs seed trees]. by destruct ty. Qed.

(** A freshly spawned obstacle is not past the cull margin, whichever way
    it is heading. *)
Lemma spawned_not_far (o : Obstacle.t) :
  0 < Rect.w (Obstacle.rect o) ->
  -120 <= Rect.right (Obstacle.rect o) <= -10 \/
  730 <= Rect.left (Obstacle.rect o) <= 840 ->
  Lane._is_far_offscreen o = false.
Proof.
  unfold Lane._is_far_offscreen, Rect.right, Rect.left, WINDOW_W, TILE.
  intros Hw Hpos. destruct (Qltb 0 (Obstacle.speed o)); lia.
Qed.

(** X2. Culling.  After [Lane.update] no obstacle of a road or river lane is
    past the cull margin; every old obstacle that is not past it after moving
    is still there; and for [dt >= 0] an obstacle past the margin stays past
    it, so it is dropped and does not come back. *)
Theorem lane_update_culls :
  forall (dt : Q) (l : Lane.t) (random : Rng.t),
    Lane.lane_type l <> LANE_GRASS ->
    Forall (fun o => Lane._is_far_offscreen o = false)
           (Lane.objects (fst (Lane.update dt l random))) /\
    (forall o, In o (Lane.objects l) ->
               Lane._is_far_offscreen (Obstacle.update dt o) = false ->
               In (Obstacle.update dt o)
                  (Lane.objects (fst (Lane.update dt l random)))) /\
    (forall o, (0 <= dt)%Q -> Lane._is_far_offscreen o = true ->
               Lane._is_far_offscreen (Obstacle.update dt o) = true /\
               ~ In (Obstacle.update dt o)
                    (Lane.objects (fst (Lane.update dt l random)))).
Proof.
  intros dt l random Hty.
  set (kept := List.filter (fun o => negb (Lane._is_far_offscreen o))
                           (map (Obstacle.update dt) (Lane.objects l))).
  assert (Hkept : Forall (fun o => Lane._is_far_offscreen o = false) kept).
  { apply Forall_forall. intros o [_ Ho]%list_elem_of_In%filter_In.
    by apply negb_true_iff. }
  assert (Hall : Forall (fun o => Lane._is_far_offscreen o = false)
                        (Lane.objects (fst (Lane.update dt l random))) /\
                 forall o, In o kept ->
                           In o (Lane.objects (fst (Lane.update dt l random)))).
  { rewrite lane_update_unfold. destruct (Lane.lane_type l) eqn:E; [done | |].
    - pose proof (spawn_vehicle_spec dt (Lane.set_objects kept l) random)
        as (_ & _ & _ & _ & _ & _ & H). cbn zeta in H. fold kept.
      destruct (Qltb 0 _).
      + destruct H as (-> & _). cbn. split; [done | auto].
      + destruct H as (o & -> & _ & _ & _ & _ & Hh & Hw & _ & Hx). cbn. split.
        * apply Forall_app. split; [done|]. constructor; [|constructor].
          apply spawned_not_far.
          -- cbn in Hw. lia.
          -- cbn in Hx. destruct (0 <? _); [left | right]; lia.
        * intros o' Ho'. apply in_or_app. by left.
    - pose proof (spawn_log_spec dt (Lane.set_objects kept l) random)
        as (_ & _ & _ & _ & _ & _ & H). cbn zeta in H. fold kept.
      destruct (Qltb 0 _).
      + destruct H as (-> & _). cbn. split; [done | auto].
      + destruct H as (o & -> & _ & _ & _ & _ & Hh & Hw & _ & Hx). cbn. split.
        * apply Forall_app. split; [done|]. constructor; [|constructor].
          apply spawned_not_far.
          -- cbn in Hw. lia.
          -- cbn in Hx. destruct (0 <? _); [left | right]; lia.
        * intros o' Ho'. apply in_or_app. by left. }
  destruct Hall as [Hnofar Hsub]. split; [done|]. split.
  - intros o Ho Hnf. apply Hsub. apply filter_In. split.
    + by apply in_map.
    + by rewrite Hnf.
  - intros o Hdt Hfar.
    pose proof (far_offscreen_stable dt o Hdt Hfar) as Hstill.
    split; [done|]. intros Hin.
    rewrite Forall_forall in Hnofar.
    specialize (Hnofar _ (proj2 (list_elem_of_In _ _) Hin)). cbn beta in Hnofar.
    congruence.
Qed.

Lemma lane_update_spawn_cases :
  forall (dt : Q) (l : Lane.t) (random : Rng.t),
    Lane.lane_type l <> LANE_GRASS ->
    if Qltb 0 (Lane.last_spawn_t l - dt)
    then
      Lane.objects (fst (Lane.update dt l random))
      = List.filter (fun o => negb (Lane._is_far_offscreen o))
                    (map (Obstacle.update dt) (Lane.objects l)) /\
      Lane.last_spawn_t (fst (Lane.update dt l random))
      = (Lane.last_spawn_t l - dt)%Q /\
      snd (Lane.update dt l random) = random
    else
      exists o,
        Lane.objects (fst (Lane.update dt l random))
        = List.filter (fun o => negb (Lane._is_far_offscreen o))
                      (map (Obstacle.update dt) (Lane.objects l)) ++ [o] /\
        obstacle_wf l o /\
        (if 0 <? Lane.direction l
         then Rect.right (Obstacle.rect o) <= -10
         else WINDOW_W + 10 <= Rect.left (Obstacle.rect o)) /\
        (2 <= Lane.last_spawn_t (fst (Lane.update dt l random)))%Q /\
        (Lane.last_spawn_t (fst (Lane.update dt l random)) <= 45 # 10)%Q.
Proof.
  intros dt l random Hty. rewrite lane_update_unfold.
  set (kept := List.filter _ _).
  destruct (Lane.lane_type l) eqn:E; [done | |].
  - pose proof (spawn_vehicle_spec dt (Lane.set_objects kept l) random)
      as (_ & _ & _ & _ & _ & _ & H). cbn zeta in H.
    change (Lane.last_spawn_t (Lane.set_objects kept l))
      with (Lane.last_spawn_t l) in H.
    destruct (Qltb 0 _); [exact H|].
    destruct H as (o & Ho & Hlo & Hhi & Hk & Hv & Hh & Hw & Hy & Hx).
    exists o. split; [exact Ho|]. split; [|split; [|split; [lra | done]]].
    + unfold obstacle_wf. rewrite E. cbn in Hv, Hy, Hw.
      split; [done|]. split; [|done].
      rewrite Hh, Hy. unfold Lane.world_y. cbn. done.
    + cbn in Hx. destruct (0 <? Lane.direction l); unfold WINDOW_W; lia.
  - pose proof (spawn_log_spec dt (Lane.set_objects kept l) random)
      as (_ & _ & _ & _ & _ & _ & H). cbn zeta in H.
    change (Lane.last_spawn_t (Lane.set_objects kept l))
      with (Lane.last_spawn_t l) in H.
    destruct (Qltb 0 _); [exact H|].
    destruct H as (o & Ho & Hlo & Hhi & Hk & Hv & Hh & Hw & Hy & Hx).
    exists o. split; [exact Ho|]. split; [|split; [|split; [done | lra]]].
    + unfold obstacle_wf. rewrite E. cbn in Hv, Hy, Hw.
      split; [done|]. split; [|done].
      rewrite Hh, Hy. unfold Lane.world_y. cbn. done.
    + cbn in Hx. destruct (0 <? Lane.direction l); unfold WINDOW_W; lia.
Qed.

(** X3. Spawning.  On a road or river lane [Lane.update] counts the timer
    down by [dt]; while it stays positive nothing is spawned and no random
    number is drawn.  When it reaches zero exactly one obstacle is appended,
    of the lane's kind and signed speed, wholly outside the window on the
    side it enters from, and the timer restarts within the gap range of the
    lane's type. *)
Theorem lane_update_spawns_off_screen :
  forall (dt : Q) (l : Lane.t) (random : Rng.t),
    Lane.lane_type l <> LANE_GRASS ->
    if Qltb 0 (Lane.last_spawn_t l - dt)
    then
      Lane.objects (fst (Lane.update dt l random))
      = List.filter (fun o => negb (Lane._is_far_offscreen o))
                    (map (Obstacle.update dt) (Lane.objects l)) /\
      Lane.last_spawn_t (fst (Lane.update dt l random))
      = (Lane.last_spawn_t l - dt)%Q /\
      snd (Lane.update dt l random) = random
    else
      exists o,
        Lane.objects (fst (Lane.update dt l random))
        = List.filter (fun o => negb (Lane._is_far_offscreen o))
                      (map (Obstacle.update dt) (Lane.objects l)) ++ [o] /\
        obstacle_wf l o /\
        (if 0 <? Lane.direction l
         then Rect.right (Obstacle.rect o) <= -10
         else WINDOW_W + 10 <= Rect.left (Obstacle.rect o)) /\
        (2 <= Lane.last_spawn_t (fst (Lane.update dt l random)))%Q /\
        (Lane.last_spawn_t (fst (Lane.update dt l random)) <= 45 # 10)%Q.
Proof. exact lane_update_spawn_cases. Qed.

(** [Lane.update] keeps a lane well formed. *)
Lemma lane_update_wf Random dt l random :
  lane_wf Random l -> lane_wf Random (fst (Lane.update dt l random)).
Proof.
  intros (Hdir & Hrow & Htrees & Hspeed & Hobjs).
  pose proof (lane_update_fixed dt l random) as (F1 & F2 & F3 & F4 & F5 & F6).
  cbn zeta in *.
  assert (Hsame : forall o, obstacle_wf l o ->
                            obstacle_wf (fst (Lane.update dt l random)) o).
  { intros o. unfold obstacle_wf, Lane.world_y. by rewrite F1, F2, F3, F4. }
  unfold lane_wf. rewrite F1, F2, F3, F4, F5, F6. do 4 (split; [done|]).
  apply Forall_forall. intros o Ho%list_elem_of_In. apply Hsame.
  rewrite Forall_forall in Hobjs.
  assert (Hmoved : forall o', In o' (map (Obstacle.update dt) (Lane.objects l)) ->
                              obstacle_wf l o').
  { intros o' (o0 & <- & Ho0)%in_map_iff. apply obstacle_update_keeps_wf.
    by apply Hobjs, list_elem_of_In. }
  destruct (Lane.lane_type l) eqn:E.
  - rewrite lane_update_unfold, E in Ho. cbn in Ho. by apply Hmoved.
  - pose proof (lane_update_spawn_cases dt l random ltac:(by rewrite E)) as H.
    destruct (Qltb 0 _).
    + destruct H as (Heq & _). rewrite Heq in Ho.
      apply filter_In in Ho as [Ho _]. by apply Hmoved.
    + destruct H as (o1 & Heq & Hwf & _). rewrite Heq in Ho.
      apply in_app_or in Ho as [[Ho _]%filter_In | [<- | []]]; [by apply Hmoved | done].
  - pose proof (lane_update_spawn_cases dt l random ltac:(by rewrite E)) as H.
    destruct (Qltb 0 _).
    + destruct H as (Heq & _). rewrite Heq in Ho.
      apply filter_In in Ho as [Ho _]. by apply Hmoved.
    + destruct H as (o1 & Heq & Hwf & _). rewrite Heq in Ho.
      apply in_app_or in Ho as [[Ho _]%filter_In | [<- | []]]; [by apply Hmoved | done].
Qed.

Lemma lane_update_culls_witness :
  Lane.lane_type Demo.river_lane <> LANE_GRASS /\
  Forall (fun o => Lane._is_far_offscreen o = false)
         (Lane.objects (fst (Lane.update 4 Demo.river_lane Demo.random0))) /\
  (forall o, In o (Lane.objects Demo.river_lane) ->
             Lane._is_far_offscreen (Obstacle.update 4 o) = false ->
             In (Obstacle.update 4 o)
                (Lane.objects (fst (Lane.update 4 Demo.river_lane Demo.random0)))) /\
  (forall o, (0 <= 4)%Q -> Lane._is_far_offscreen o = true ->
             Lane._is_far_offscreen (Obstacle.update 4 o) = true /\
             ~ In (Obstacle.update 4 o)
                  (Lane.objects (fst (Lane.update 4 Demo.river_lane Demo.random0)))).
Proof.
  split; [vm_compute; discriminate|].
  apply (lane_update_culls 4 Demo.river_lane Demo.random0).
  vm_compute; discriminate.
Defined.

Lemma lane_update_spawns_witness :
  Lane.lane_type Demo.river_lane <> LANE_GRASS /\
  if Qltb 0 (Lane.last_spawn_t Demo.river_lane - 4)
  then
    Lane.objects (fst (Lane.update 4 Demo.river_lane Demo.random0))
    = List.filter (fun o => negb (Lane._is_far_offscreen o))
                  (map (Obstacle.update 4) (Lane.objects Demo.river_lane)) /\
    Lane.last_spawn_t (fst (Lane.update 4 Demo.river_lane Demo.random0))
    = (Lane.last_spawn_t Demo.river_lane - 4)%Q /\
    snd (Lane.update 4 Demo.river_lane Demo.random0) = Demo.random0
  else
    exists o,
      Lane.objects (fst (Lane.update 4 Demo.river_lane Demo.random0))
      = List.filter (fun o => negb (Lane._is_far_offscreen o))
                    (map (Obstacle.update 4) (Lane.objects Demo.river_lane)) ++ [o] /\
      obstacle_wf Demo.river_lane o /\
      (if 0 <? Lane.direction Demo.river_lane
       then Rect.right (Obstacle.rect o) <= -10
       else WINDOW_W + 10 <= Rect.left (Obstacle.rect o)) /\
      (2 <= Lane.last_spawn_t (fst (Lane.update 4 Demo.river_lane Demo.random0)))%Q /\
      (Lane.last_spawn_t (fst (Lane.update 4 Demo.river_lane Demo.random0)) <= 45 # 10)%Q.
Proof.
  split; [vm_compute; discriminate|].
  apply (lane_update_spawns_off_screen 4 Demo.river_lane Demo.random0).
  vm_compute; discriminate.
Defined.

(** ** Well-formed lanes everywhere *)

Section WellFormed.
Variable Random : Z -> Rng.t.

(** The lane that [_ensure_lane] builds for a missing row. *)
Lemma ensure_lane_fresh row ft w :
  ft = None \/ ft = Some LANE_GRASS ->
  World.lanes w !! row = None ->
  exists l g,
    World._ensure_lane Random row ft w
    = World.mk (<[row := l]> (World.lanes w)) g (World.max_generated_row w) /\
    Lane.row l = row /\ Lane.objects l = [] /\ lane_wf Random l /\
    (ft = Some LANE_GRASS -> Lane.lane_type l = LANE_GRASS) /\
    (ft = None -> Lane.lane_type l = fst (World._choose_lane_type row w)).
Proof.
  intros Hft Hnone. unfold World._ensure_lane. rewrite Hnone.
  destruct (match ft with Some ft0 => (ft0, World.rng w)
                        | None => World._choose_lane_type row w end)
    as [lane_type g0] eqn:Ety.
  assert (Hearly : row < 10 -> lane_type <> LANE_RIVER).
  { intros Hrow ->. destruct Hft as [-> | ->]; [|by injection Ety].
    unfold World._choose_lane_type in Ety.
    destruct (row <? 10) eqn:E; [|lia].
    destruct (Rng.random (World.rng w)) as [u g]. by destruct (Qltb u _). }
  assert (Hforced : ft = Some LANE_GRASS -> lane_type = LANE_GRASS)
    by (intros ->; by injection Ety).
  assert (Hchosen : ft = None -> lane_type = fst (World._choose_lane_type row w))
    by (intros ->; by rewrite Ety).
  pose proof (choice_direction g0) as Hdir.
  destruct (Rng.choice 0 [-1; 1] g0) as [direction g1]. cbn [fst] in Hdir.
  destruct (Rng.randint 0 999999 g1) as [seed g2].
  destruct lane_type.
  - eexists _, _. split; [reflexivity|]. do 2 (split; [done|]).
    split; [|done]. unfold lane_wf. cbn. by repeat split.
  - pose proof (uniform_bounds 140 260 g2 ltac:(lra)) as Hspeed.
    change (140%Q, 260%Q) with ROAD_CAR_SPEED_RANGE in Hspeed.
    destruct (Rng.uniform ROAD_CAR_SPEED_RANGE g2) as [speed g3].
    destruct (Rng.uniform CAR_SPAWN_GAP_RANGE g3) as [gap g4].
    destruct (Rng.uniform (0, 15 # 10)%Q g4) as [last g5].
    cbn [fst] in Hspeed.
    eexists _, _. split; [reflexivity|]. do 2 (split; [done|]).
    split; [|done]. unfold lane_wf. cbn.
    do 3 (split; [done|]). split; [exact Hspeed | constructor].
  - pose proof (uniform_bounds 90 180 g2 ltac:(lra)) as Hspeed.
    change (90%Q, 180%Q) with RIVER_LOG_SPEED_RANGE in Hspeed.
    destruct (Rng.uniform RIVER_LOG_SPEED_RANGE g2) as [speed g3].
    destruct (Rng.uniform LOG_SPAWN_GAP_RANGE g3) as [gap g4].
    destruct (Rng.uniform (0, 15 # 10)%Q g4) as [last g5].
    cbn [fst] in Hspeed.
    eexists _, _. split; [reflexivity|]. do 2 (split; [done|]).
    split; [|done]. unfold lane_wf. cbn.
    do 3 (split; [done|]). split; [exact Hspeed | constructor].
Qed.

Lemma ensure_lane_wf row ft w :
  ft = None \/ ft = Some LANE_GRASS ->
  (forall r l, World.lanes w !! r = Some l -> lane_wf Random l) ->
  forall r l, World.lanes (World._ensure_lane Random row ft w) !! r = Some l ->
              lane_wf Random l.
Proof.
  intros Hft Hw r l. destruct (World.lanes w !! row) as [l0|] eqn:E.
  - rewrite ensure_lane_present by eauto. apply Hw.
  - destruct (ensure_lane_fresh row ft w Hft E) as (l' & g & -> & _ & _ & Hl & _).
    cbn. rewrite lookup_insert. case_decide; [by intros [= <-] | apply Hw].
Qed.

Lemma generate_around_wf player_row w :
  (forall r l, World.lanes w !! r = Some l -> lane_wf Random l) ->
  forall r l, World.lanes (World._generate_around Random player_row w) !! r = Some l ->
              lane_wf Random l.
Proof.
  intros Hw r l. unfold World._generate_around. cbn.
  intros [Hl _]%map_lookup_filter_Some. revert r l Hl.
  apply (fold_left_invariant _
           (fun w => forall r l, World.lanes w !! r = Some l -> lane_wf Random l));
    [done|].
  intros w' r0 _ Hw' r l. cbn. by apply ensure_lane_wf; [left|].
Qed.

Lemma world_update_wf dt player_row w random :
  (forall r l, World.lanes w !! r = Some l -> lane_wf Random l) ->
  forall r l,
    World.lanes (fst (World.update Random dt player_row w random)) !! r = Some l ->
    lane_wf Random l.
Proof.
  intros Hw. unfold World.update.
  pose proof (generate_around_wf player_row w Hw) as Hgen.
  apply (fold_left_invariant _
           (fun st => forall r l, World.lanes (fst st) !! r = Some l ->
                                  lane_wf Random l)); [done|].
  intros [w' random'] r0 _ Hw'. cbn [fst] in Hw'.
  destruct (r0 <? 0); [done|].
  destruct (World.lanes w' !! r0) as [lane|] eqn:Hlane; [|done].
  pose proof (lane_update_wf Random dt lane random' (Hw' _ _ Hlane)) as Hl.
  destruct (Lane.update dt lane random') as [lane' random''].
  cbn [fst World.lanes] in *.
  intros r l. rewrite lookup_insert. case_decide; [by intros [= <-] | apply Hw'].
Qed.

Lemma world_reset_wf random :
  forall r l, World.lanes (fst (World.reset Random random)) !! r = Some l ->
              lane_wf Random l.
Proof.
  unfold World.reset. destruct (Rng.randint 0 10000000 random) as [seed random'].
  cbn [fst].
  apply (fold_left_invariant _
           (fun w => forall r l, World.lanes w !! r = Some l -> lane_wf Random l)).
  - intros r l. cbn. by rewrite lookup_empty.
  - intros w r0 _ Hw. by apply ensure_lane_wf; [right|].
Qed.

Lemma world_apply_wf op st :
  (forall r l, World.lanes (fst st) !! r = Some l -> lane_wf Random l) ->
  forall r l, World.lanes (fst (World.apply Random op st)) !! r = Some l ->
              lane_wf Random l.
Proof.
  intros Hw. destruct op as [p | dt p | row]; cbn [World.apply fst snd].
  - by apply generate_around_wf.
  - by apply world_update_wf.
  - cbn. by apply ensure_lane_wf; [left|].
Qed.

(** Every lane of a reachable game is well formed, carries its key as row,
    and no row is negative. *)
Lemma reachable_lanes_wf g :
  Game.reachable Random g ->
  forall r l, World.lanes (Game.world g) !! r = Some l -> lane_wf Random l.
Proof.
  induction 1 as [random0 | g g' a Hg IH Hstep].
  - unfold Game.__init__, Game.reset. cbn [Game.random].
    pose proof (world_reset_wf random0) as H.
    by destruct (World.reset Random random0).
  - destruct a as [dt | [ev now_ms] | dt]; cbn [Game.step] in Hstep.
    + by injection Hstep as <-.
    + apply handle_event_cases in Hstep
        as [-> | [[_ ->] | (key & dc & dr & _ & _ & Ha & Hhop)]]; [done | |].
      * unfold Game.reset. pose proof (world_reset_wf (Game.random g)) as H.
        by destruct (World.reset Random (Game.random g)).
      * apply try_hop_cases in Hhop. cbn zeta in Hhop.
        destruct Hhop as [-> | ->]; cbn; by apply ensure_lane_wf; [left|].
    + destruct (Player.alive (Game.player g)) eqn:Ha.
      * destruct (World.update Random dt (Player.row (Game.player g))
                    (Game.world g) (Game.random g)) as [w random] eqn:Hw.
        destruct (ensure_lane_lookup Random (Player.row (Game.player g)) None w)
          as [lane Hlane].
        destruct (update_alive Random dt g w random lane Ha Hw Hlane)
          as (g1 & Hrun & Hworld & _).
        rewrite Hrun in Hstep. injection Hstep as <-. rewrite Hworld.
        apply ensure_lane_wf; [by left|].
        replace w with (fst (World.update Random dt (Player.row (Game.player g))
                               (Game.world g) (Game.random g))) by (by rewrite Hw).
        by apply world_update_wf.
      * rewrite update_dead in Hstep by done. by injection Hstep as <-.
Qed.

End WellFormed.

Lemma tree_scan_in cols rng c : In c (Lane.tree_scan cols rng) -> In c cols.
Proof.
  revert rng. induction cols as [|c0 cols IH]; intros rng; cbn; [done|].
  destruct (Qltb _ _); cbn; [intros [-> | H]; eauto | eauto].
Qed.

Lemma has_tree_at_in l col :
  Lane.has_tree_at l col = true <-> In col (Lane.tree_positions l).
Proof.
  unfold Lane.has_tree_at. rewrite existsb_exists. split.
  - by intros (c & Hc & ->%Z.eqb_eq).
  - intros H. exists col. split; [done | apply Z.eqb_refl].
Qed.

(** X4. Lanes.  In every reachable state the lane stored under a row
    carries that row, flows left or right, has the speed range of its type
    (grass 0, road 140 to 260, river 90 to 180) and is never a river below
    row 10. *)
Theorem reachable_lane_parameters :
  forall (Random : Z -> Rng.t) (g : Game.t) (r : Z) (l : Lane.t),
    Game.reachable Random g ->
    World.lanes (Game.world g) !! r = Some l ->
    Lane.row l = r /\
    (Lane.direction l = -1 \/ Lane.direction l = 1) /\
    (r < 10 -> Lane.lane_type l <> LANE_RIVER) /\
    match Lane.lane_type l with
    | LANE_GRASS => Lane.speed l = 0%Q
    | LANE_ROAD => (140 <= Lane.speed l)%Q /\ (Lane.speed l <= 260)%Q
    | LANE_RIVER => (90 <= Lane.speed l)%Q /\ (Lane.speed l <= 180)%Q
    end.
Proof.
  intros Random g r l Hreach Hl.
  destruct (reachable_invariant Random g Hreach) as (Hs & _).
  destruct (Hs r l Hl) as [_ Hrow].
  destruct (reachable_lanes_wf Random g Hreach r l Hl) as (Hdir & Hearly & _ & Hsp & _).
  rewrite Hrow in Hearly. done.
Qed.

(** X5. Traffic.  In every reachable state a grass lane has no obstacle, a
    road lane only cars and a river lane only logs; every obstacle has the
    speed of its lane with the sign of the lane's direction, so the
    obstacles of a lane all travel at one velocity, and it lies within the
    48 pixels of its lane vertically. *)
Theorem reachable_traffic :
  forall (Random : Z -> Rng.t) (g : Game.t) (r : Z) (l : Lane.t) (o : Obstacle.t),
    Game.reachable Random g ->
    World.lanes (Game.world g) !! r = Some l ->
    In o (Lane.objects l) ->
    Lane.lane_type l <> LANE_GRASS /\
    Obstacle.kind o
    = match Lane.lane_type l with LANE_RIVER => log | _ => car end /\
    Obstacle.speed o = (Lane.speed l * inject_Z (Lane.direction l))%Q /\
    (forall o', In o' (Lane.objects l) -> Obstacle.speed o' = Obstacle.speed o) /\
    - r * TILE <= Rect.top (Obstacle.rect o) /\
    Rect.bottom (Obstacle.rect o) <= - r * TILE + TILE /\
    57 <= Rect.w (Obstacle.rect o) <= 144.
Proof.
  intros Random g r l o Hreach Hl Ho.
  destruct (reachable_invariant Random g Hreach) as (Hs & _).
  destruct (Hs r l Hl) as [_ Hrow].
  destruct (reachable_lanes_wf Random g Hreach r l Hl) as (_ & _ & _ & _ & Hobjs).
  rewrite Forall_forall in Hobjs.
  pose proof (Hobjs o (proj2 (list_elem_of_In _ _) Ho)) as (Hv & Hy & Hk).
  assert (Hall : forall o', In o' (Lane.objects l) ->
                            Obstacle.speed o' = Obstacle.speed o).
  { intros o' Ho'.
    destruct (Hobjs o' (proj2 (list_elem_of_In _ _) Ho')) as (Hv' & _). congruence. }
  unfold Rect.top, Rect.bottom. rewrite Hy. unfold Lane.world_y. rewrite Hrow.
  destruct (Lane.lane_type l); [done | |];
    destruct Hk as (-> & Hh & Hw); rewrite Hh; cbn in Hw;
    (split; [done|]); (split; [done|]); (split; [done|]); (split; [exact Hall|]);
    unfold TILE; change ((48 - 35) / 2) with 6; change ((48 - 33) / 2) with 7; lia.
Qed.

(** X6. Trees.  In every reachable state the tree columns of a lane are
    what [_generate_tree_positions] makes of the lane's decoration seed;
    only grass lanes have trees, and only on columns 0 to GRID_COLS - 1. *)
Theorem reachable_trees :
  forall (Random : Z -> Rng.t) (g : Game.t) (r : Z) (l : Lane.t),
    Game.reachable Random g ->
    World.lanes (Game.world g) !! r = Some l ->
    (Lane.lane_type l = LANE_GRASS ->
     Lane.tree_positions l
     = Lane._generate_tree_positions Random (Lane.decoration_seed l)) /\
    (forall col,
       Lane.has_tree_at l col = true ->
       Lane.lane_type l = LANE_GRASS /\ 0 <= col <= GRID_COLS - 1).
Proof.
  intros Random g r l Hreach Hl.
  destruct (reachable_lanes_wf Random g Hreach r l Hl) as (_ & _ & Htrees & _).
  split; [by intros Hty; rewrite Hty in Htrees|].
  intros col Hcol%has_tree_at_in. rewrite Htrees in Hcol.
  destruct (Lane.lane_type l); try done. split; [done|].
  apply tree_scan_in in Hcol. apply list_elem_of_In, elem_of_range in Hcol.
  change GRID_COLS with 15 in *. lia.
Qed.

Lemma reachable_lane_parameters_witness :
  Lane.row Demo.river_lane = 10 /\
  (Lane.direction Demo.river_lane = -1 \/ Lane.direction Demo.river_lane = 1) /\
  (10 < 10 -> Lane.lane_type Demo.river_lane <> LANE_RIVER) /\
  match Lane.lane_type Demo.river_lane with
  | LANE_GRASS => Lane.speed Demo.river_lane = 0%Q
  | LANE_ROAD =>
      (140 <= Lane.speed Demo.river_lane)%Q /\ (Lane.speed Demo.river_lane <= 260)%Q
  | LANE_RIVER =>
      (90 <= Lane.speed Demo.river_lane)%Q /\ (Lane.speed Demo.river_lane <= 180)%Q
  end.
Proof.
  apply (reachable_lane_parameters Demo.RandomRiver Demo.ride_state 10
           Demo.river_lane).
  - exact ride_state_reachable.
  - vm_compute. reflexivity.
Defined.

Lemma reachable_traffic_witness :
  Lane.lane_type Demo.river_lane <> LANE_GRASS /\
  Obstacle.kind Demo.river_log
  = match Lane.lane_type Demo.river_lane with LANE_RIVER => log | _ => car end /\
  Obstacle.speed Demo.river_log
  = (Lane.speed Demo.river_lane * inject_Z (Lane.direction Demo.river_lane))%Q /\
  (forall o', In o' (Lane.objects Demo.river_lane) ->
              Obstacle.speed o' = Obstacle.speed Demo.river_log) /\
  - 10 * TILE <= Rect.top (Obstacle.rect Demo.river_log) /\
  Rect.bottom (Obstacle.rect Demo.river_log) <= - 10 * TILE + TILE /\
  57 <= Rect.w (Obstacle.rect Demo.river_log) <= 144.
Proof.
  apply (reachable_traffic Demo.RandomRiver Demo.ride_state 10
           Demo.river_lane Demo.river_log).
  - exact ride_state_reachable.
  - vm_compute. reflexivity.
  - vm_compute. left. reflexivity.
Defined.

Lemma reachable_trees_witness :
  (Lane.lane_type Demo.wooded_lane = LANE_GRASS ->
   Lane.tree_positions Demo.wooded_lane
   = Lane._generate_tree_positions Demo.RandomTrees
       (Lane.decoration_seed Demo.wooded_lane)) /\
  (forall col,
     Lane.has_tree_at Demo.wooded_lane col = true ->
     Lane.lane_type Demo.wooded_lane = LANE_GRASS /\ 0 <= col <= GRID_COLS - 1).
Proof.
  apply (reachable_trees Demo.RandomTrees
           (Game.__init__ Demo.RandomTrees Demo.random0) 3 Demo.wooded_lane).
  - constructor.
  - vm_compute. reflexivity.
Defined.

(** ** The simulation step, lane type by lane type *)

Lemma player_update_alive_iff dt p :
  Player.alive p = true ->
  (Player.alive (Player.update dt p) = true <->
   -40 <= int (Player.x (Player.update dt p)) <= 712) /\
  Player.riding_dx (Player.update dt p) = Player.riding_dx p.
Proof.
  intros Ha. unfold Player.update. rewrite Ha. cbn [negb].
  set (x' := if Qle_bool _ _ then _ else _).
  destruct (if Player.hop_animating p then _ else _) as [progress animating].
  cbn zeta.
  unfold Player.rect_world, Player._tile_rect_world, Rect.right, Rect.left.
  cbn [Rect.x Rect.w Player.x Player.row].
  destruct (_ || _) eqn:Hout; cbn [Player.alive Player.x Player.set_alive
                                    Player.riding_dx]; rewrite ?Ha.
  - apply orb_true_iff in Hout. unfold TILE, WINDOW_W in *.
    split; [|done]. split; [done|]. lia.
  - apply orb_false_iff in Hout as [H1 H2]. unfold TILE, WINDOW_W in *.
    split; [|done]. split; [lia | done].
Qed.

Lemma player_update_row dt p : Player.row (Player.update dt p) = Player.row p.
Proof.
  destruct (Player.alive p) eqn:Ha.
  - by destruct (player_update_facts dt p Ha) as (-> & _).
  - by rewrite player_update_dead.
Qed.

Section Tick.
Variable Random : Z -> Rng.t.

(** The player that [_update] leaves, step by step as the source computes
    it. *)
Lemma update_alive_player dt g w random lane :
  Player.alive (Game.player g) = true ->
  World.update Random dt (Player.row (Game.player g)) (Game.world g)
               (Game.random g) = (w, random) ->
  World.lanes (World._ensure_lane Random (Player.row (Game.player g)) None w)
    !! Player.row (Game.player g) = Some lane ->
  exists g',
    Game._update Random dt g = Running g' /\
    Game.player g'
    = (let p := Game.player g in
       let score := Z.max (Player.score p) (Player.row p - 2) in
       let p0 := Player.set_scores score (Z.max (Player.score_best p) score)
                   (Player.set_riding_dx 0 p) in
       let p1 :=
         match Lane.lane_type lane with
         | LANE_RIVER =>
             match Game._player_on_log lane p with
             | None => Player.set_alive false p0
             | Some on_log => Player.set_riding_dx (Obstacle.speed on_log) p0
             end
         | _ => p0
         end in
       let p2 :=
         match Lane.lane_type lane with
         | LANE_ROAD =>
             if Game._player_hit_car lane p then Player.set_alive false p1 else p1
         | _ => p1
         end in
       let p3 := Player.update dt p2 in
       if Player.alive p3
          && (LaneType_eqb (Lane.lane_type lane) LANE_ROAD
              && Game._player_hit_car lane p3)
       then Player.set_alive false p3 else p3).
Proof.
  intros Ha Hw Hlane. unfold Game._update. rewrite Ha, Hw. cbn [negb].
  set (p0 := Player.set_scores _ _ (Player.set_riding_dx 0 (Game.player g))).
  set (row := Player.row (Game.player g)) in *.
  set (w1 := World._ensure_lane Random row None w) in *.
  assert (Hat : World.lane_at Random row w1 = (Some lane, w1)).
  { unfold World.lane_at. rewrite (ensure_lane_present Random row None w1) by eauto.
    by rewrite Hlane. }
  change (Player.row p0) with row.
  change (World.lane_at Random row w) with (World.lanes w1 !! row, w1).
  rewrite Hlane.
  change (Game._player_on_log lane p0)
    with (Game._player_on_log lane (Game.player g)).
  cbn zeta. fold p0.
  set (p1 := match Lane.lane_type lane with LANE_RIVER => _ | _ => p0 end).
  assert (Hhit : Game._player_hit_car lane p1
                 = Game._player_hit_car lane (Game.player g)).
  { subst p1. destruct (Lane.lane_type lane); try done.
    by destruct (Game._player_on_log lane (Game.player g)). }
  assert (Hp2 :
    match Lane.lane_type lane with
    | LANE_ROAD =>
        if Game._player_hit_car lane p1 then Player.set_alive false p1 else p1
    | _ => p1
    end
    = match Lane.lane_type lane with
      | LANE_ROAD =>
          if Game._player_hit_car lane (Game.player g)
          then Player.set_alive false p1 else p1
      | _ => p1
      end) by (by rewrite Hhit).
  rewrite Hp2.
  set (p2 := match Lane.lane_type lane with LANE_ROAD => _ | _ => p1 end).
  assert (Hrow : Player.row (Player.update dt p2) = row).
  { rewrite player_update_row. subst p2 p1.
    destruct (Lane.lane_type lane); try done.
    - by destruct (Game._player_hit_car lane (Game.player g)).
    - by destruct (Game._player_on_log lane (Game.player g)). }
  rewrite Hrow, Hat.
  destruct (Player.alive (Player.update dt p2)); cbn [andb bind].
  - eexists. split; [reflexivity|]. cbn [Game.player]. done.
  - eexists. split; [reflexivity|]. done.
Qed.

End Tick.

Lemma int_window f :
  (-41 < f)%Q -> (f < 713)%Q -> -40 <= int f <= 712.
Proof.
  intros Hlo Hhi. destruct (int_toward_zero f) as [Hpos Hneg].
  destruct (Qlt_le_dec f 0) as [Hf | Hf].
  - destruct (Hneg ltac:(lra)) as [H0 Hle]. split; [|lia].
    assert (H : (inject_Z (-41) < inject_Z (int f))%Q)
      by (change (inject_Z (-41)) with (-41)%Q; lra).
    rewrite <- Zlt_Qlt in H. lia.
  - destruct (Hpos Hf) as [H0 Hle]. split; [lia|].
    assert (H : (inject_Z (int f) < inject_Z 713)%Q)
      by (change (inject_Z 713) with 713%Q; lra).
    rewrite <- Zlt_Qlt in H. lia.
Qed.

Lemma hit_car_same_place lane p q :
  Player.x q = Player.x p -> Player.row q = Player.row p ->
  Game._player_hit_car lane q = Game._player_hit_car lane p.
Proof.
  intros Hx Hr. unfold Game._player_hit_car, Player.hitbox_world,
    Player.rect_world, Player._tile_rect_world. by rewrite Hx, Hr.
Qed.

(** X7. A tick on a grass lane.  A living player of a reachable state who
    stands on a grass lane survives the tick where it stands: x and row are
    unchanged and the drift is zero. *)
Theorem tick_on_grass_is_safe :
  forall (Random : Z -> Rng.t) (g : Game.t) (dt : Q) (w : World.t)
         (random : Rng.t) (lane : Lane.t),
    Game.reachable Random g ->
    Player.alive (Game.player g) = true ->
    World.update Random dt (Player.row (Game.player g)) (Game.world g)
                 (Game.random g) = (w, random) ->
    fst (World.lane_at Random (Player.row (Game.player g)) w) = Some lane ->
    Lane.lane_type lane = LANE_GRASS ->
    exists g',
      Game._update Random dt g = Running g' /\
      Player.alive (Game.player g') = true /\
      Player.x (Game.player g') = Player.x (Game.player g) /\
      Player.row (Game.player g') = Player.row (Game.player g) /\
      Player.riding_dx (Game.player g') = 0%Q.
Proof.
  intros Random g dt w random lane Hreach Ha Hw Hlane Hty. cbn in Hlane.
  destruct (reachable_invariant Random g Hreach) as (_ & _ & Hx).
  destruct (Hx Ha) as [Hlo Hhi].
  destruct (update_alive_player Random dt g w random lane Ha Hw Hlane)
    as (g' & Hrun & Hp).
  exists g'. split; [done|]. rewrite Hp, Hty. cbn zeta. cbn [LaneType_eqb andb].
  rewrite andb_false_r.
  set (p0 := Player.set_scores _ _ _).
  destruct (player_update_facts dt p0 Ha) as (Hr & _ & _ & _ & Hx0 & _).
  destruct (player_update_alive_iff dt p0 Ha) as [Hiff Hride].
  cbn zeta in *. change (Player.x p0) with (Player.x (Game.player g)) in Hx0.
  change (Qle_bool (1 # 1000) (Qabs (Player.riding_dx p0))) with false in Hx0.
  rewrite Hx0 in Hiff. split; [|split; [done | split; [done | exact Hride]]].
  apply Hiff. by apply int_window.
Qed.

(** X8. A tick on a road lane.  For a living player of a reachable state on
    a road lane the tick returns, leaves x and row alone, and the player
    survives exactly when no car's rectangle, shrunk by 6 by 8, overlaps the
    player's hitbox. *)
Theorem tick_on_road :
  forall (Random : Z -> Rng.t) (g : Game.t) (dt : Q) (w : World.t)
         (random : Rng.t) (lane : Lane.t),
    Game.reachable Random g ->
    Player.alive (Game.player g) = true ->
    World.update Random dt (Player.row (Game.player g)) (Game.world g)
                 (Game.random g) = (w, random) ->
    fst (World.lane_at Random (Player.row (Game.player g)) w) = Some lane ->
    Lane.lane_type lane = LANE_ROAD ->
    exists g',
      Game._update Random dt g = Running g' /\
      Player.x (Game.player g') = Player.x (Game.player g) /\
      Player.row (Game.player g') = Player.row (Game.player g) /\
      (Player.alive (Game.player g') = false <->
       exists o, In o (Lane.objects lane) /\ Obstacle.kind o = car /\
                 Rect.colliderect (Player.hitbox_world (Game.player g))
                   (Rect.inflate (-6) (-8) (Obstacle.rect o)) = true).
Proof.
  intros Random g dt w random lane Hreach Ha Hw Hlane Hty. cbn in Hlane.
  destruct (reachable_invariant Random g Hreach) as (_ & _ & Hx).
  destruct (Hx Ha) as [Hlo Hhi].
  destruct (update_alive_player Random dt g w random lane Ha Hw Hlane)
    as (g' & Hrun & Hp).
  exists g'. split; [done|]. rewrite Hp, Hty. cbn zeta. cbn [LaneType_eqb andb].
  set (p0 := Player.set_scores _ _ _).
  assert (Hhit : Game._player_hit_car lane (Game.player g) = true <->
            exists o, In o (Lane.objects lane) /\ Obstacle.kind o = car /\
                      Rect.colliderect (Player.hitbox_world (Game.player g))
                        (Rect.inflate (-6) (-8) (Obstacle.rect o)) = true).
  { unfold Game._player_hit_car. rewrite existsb_exists. split.
    - intros (o & Ho & H). exists o. by destruct (Obstacle.kind o).
    - intros (o & Ho & Hk & H). exists o. by rewrite Hk. }
  destruct (Game._player_hit_car lane (Game.player g)) eqn:E.
  - rewrite player_update_dead by done. cbn. do 2 (split; [done|]).
    split; [intros _; by apply Hhit | done].
  - destruct (player_update_facts dt p0 Ha) as (Hr & _ & _ & _ & Hx0 & _).
    destruct (player_update_alive_iff dt p0 Ha) as [Hiff _].
    cbn zeta in *. change (Player.x p0) with (Player.x (Game.player g)) in Hx0.
    change (Qle_bool (1 # 1000) (Qabs (Player.riding_dx p0))) with false in Hx0.
    rewrite Hx0 in Hiff.
    rewrite (hit_car_same_place lane (Game.player g) (Player.update dt p0))
      by done.
    rewrite E, andb_false_r.
    assert (Hlive : Player.alive (Player.update dt p0) = true)
      by (apply Hiff; by apply int_window).
    do 2 (split; [done|]). rewrite Hlive. split; [done|].
    intros H%Hhit. done.
Qed.

(** X9. A tick on a river lane.  For a living player on a river lane the
    tick returns and keeps the row.  With no log under the support point the
    player is dead after the tick, where it stood.  With a log under it the
    player takes the log's speed as drift and survives exactly when, after
    the drift, its rectangle is not wholly off the window: support is not
    tested again after the move. *)
Theorem tick_on_river :
  forall (Random : Z -> Rng.t) (g : Game.t) (dt : Q) (w : World.t)
         (random : Rng.t) (lane : Lane.t),
    Player.alive (Game.player g) = true ->
    World.update Random dt (Player.row (Game.player g)) (Game.world g)
                 (Game.random g) = (w, random) ->
    fst (World.lane_at Random (Player.row (Game.player g)) w) = Some lane ->
    Lane.lane_type lane = LANE_RIVER ->
    exists g',
      Game._update Random dt g = Running g' /\
      Player.row (Game.player g') = Player.row (Game.player g) /\
      ((forall o, In o (Lane.objects lane) ->
                  Game.supports (Game.player g) o = false) ->
       Player.alive (Game.player g') = false /\
       Player.x (Game.player g') = Player.x (Game.player g)) /\
      (forall o,
         Game._player_on_log lane (Game.player g) = Some o ->
         In o (Lane.objects lane) /\ Game.supports (Game.player g) o = true /\
         Player.riding_dx (Game.player g') = Obstacle.speed o /\
         (Player.alive (Game.player g') = true <->
          -40 <= int (Player.x (Game.player g')) <= 712)).
Proof.
  intros Random g dt w random lane Ha Hw Hlane Hty. cbn in Hlane.
  destruct (update_alive_player Random dt g w random lane Ha Hw Hlane)
    as (g' & Hrun & Hp).
  exists g'. split; [done|]. rewrite Hp, Hty. cbn zeta. cbn [LaneType_eqb andb].
  rewrite andb_false_r.
  set (p0 := Player.set_scores _ _ _).
  destruct (Game._player_on_log lane (Game.player g)) as [on_log|] eqn:Hfind.
  - pose proof (find_some _ _ Hfind) as [Hin Hsup].
    set (p1 := Player.set_riding_dx (Obstacle.speed on_log) p0).
    destruct (player_update_alive_iff dt p1 Ha) as [Hiff Hride].
    split; [by rewrite player_update_row|]. split.
    + intros Hnone. rewrite (Hnone on_log Hin) in Hsup. done.
    + intros o [= <-]. done.
  - rewrite player_update_dead by done. cbn. split; [done|]. split; [done|].
    intros o Ho. done.
Qed.

Lemma start_state_reachable : Game.reachable Demo.RandomHalf Demo.start_state.
Proof. constructor. Qed.

Lemma road_state_reachable : Game.reachable Demo.RandomHalf Demo.road_state.
Proof.
  apply (steps_reachable Demo.RandomHalf Demo.road_actions Demo.start_state);
    [constructor|].
  vm_compute. reflexivity.
Qed.

Lemma tick_on_grass_witness :
  exists g',
    Game._update Demo.RandomHalf (1 # 60) Demo.start_state = Running g' /\
    Player.alive (Game.player g') = true /\
    Player.x (Game.player g') = Player.x (Game.player Demo.start_state) /\
    Player.row (Game.player g') = Player.row (Game.player Demo.start_state) /\
    Player.riding_dx (Game.player g') = 0%Q.
Proof.
  apply (tick_on_grass_is_safe Demo.RandomHalf Demo.start_state (1 # 60)
           (fst (World.update Demo.RandomHalf (1 # 60)
                   (Player.row (Game.player Demo.start_state))
                   (Game.world Demo.start_state) (Game.random Demo.start_state)))
           (snd (World.update Demo.RandomHalf (1 # 60)
                   (Player.row (Game.player Demo.start_state))
                   (Game.world Demo.start_state) (Game.random Demo.start_state)))
           (Demo.lane_under Demo.RandomHalf (1 # 60) Demo.start_state)).
  - exact start_state_reachable.
  - vm_compute. reflexivity.
  - apply surjective_pairing.
  - vm_compute. reflexivity.
  - vm_compute. reflexivity.
Defined.

Lemma tick_on_road_witness :
  exists g',
    Game._update Demo.RandomHalf (1 # 10) Demo.road_state = Running g' /\
    Player.x (Game.player g') = Player.x (Game.player Demo.road_state) /\
    Player.row (Game.player g') = Player.row (Game.player Demo.road_state) /\
    (Player.alive (Game.player g') = false <->
     exists o, In o (Lane.objects (Demo.lane_under Demo.RandomHalf (1 # 10)
                                     Demo.road_state)) /\
               Obstacle.kind o = car /\
               Rect.colliderect (Player.hitbox_world (Game.player Demo.road_state))
                 (Rect.inflate (-6) (-8) (Obstacle.rect o)) = true).
Proof.
  apply (tick_on_road Demo.RandomHalf Demo.road_state (1 # 10)
           (fst (World.update Demo.RandomHalf (1 # 10)
                   (Player.row (Game.player Demo.road_state))
                   (Game.world Demo.road_state) (Game.random Demo.road_state)))
           (snd (World.update Demo.RandomHalf (1 # 10)
                   (Player.row (Game.player Demo.road_state))
                   (Game.world Demo.road_state) (Game.random Demo.road_state)))
           (Demo.lane_under Demo.RandomHalf (1 # 10) Demo.road_state)).
  - exact road_state_reachable.
  - vm_compute. reflexivity.
  - apply surjective_pairing.
  - vm_compute. reflexivity.
  - vm_compute. reflexivity.
Defined.

Lemma tick_on_river_witness :
  exists g',
    Game._update Demo.RandomRiver (1 # 10) Demo.ride_state = Running g' /\
    Player.row (Game.player g') = Player.row (Game.player Demo.ride_state) /\
    ((forall o, In o (Lane.objects Demo.ride_lane) ->
                Game.supports (Game.player Demo.ride_state) o = false) ->
     Player.alive (Game.player g') = false /\
     Player.x (Game.player g') = Player.x (Game.player Demo.ride_state)) /\
    (forall o,
       Game._player_on_log Demo.ride_lane (Game.player Demo.ride_state) = Some o ->
       In o (Lane.objects Demo.ride_lane) /\
       Game.supports (Game.player Demo.ride_state) o = true /\
       Player.riding_dx (Game.player g') = Obstacle.speed o /\
       (Player.alive (Game.player g') = true <->
        -40 <= int (Player.x (Game.player g')) <= 712)).
Proof.
  apply (tick_on_river Demo.RandomRiver Demo.ride_state (1 # 10)
           (fst (World.update Demo.RandomRiver (1 # 10)
                   (Player.row (Game.player Demo.ride_state))
                   (Game.world Demo.ride_state) (Game.random Demo.ride_state)))
           (snd (World.update Demo.RandomRiver (1 # 10)
                   (Player.row (Game.player Demo.ride_state))
                   (Game.world Demo.ride_state) (Game.random Demo.ride_state)))
           Demo.ride_lane).
  - vm_compute. reflexivity.
  - apply surjective_pairing.
  - vm_compute. reflexivity.
  - vm_compute. reflexivity.
Defined.

(** ** Exits and exceptions *)

Section Exits.
Variable Random : Z -> Rng.t.

Lemma try_hop_runs now_ms dc dr g :
  exists g', Game.try_hop Random now_ms dc dr g = Running g'.
Proof.
  unfold Game.try_hop.
  destruct (can_move_to_spec Random dc dr g) as (lane & _ & ->). cbn. eauto.
Qed.

Lemma update_runs dt g : exists g', Game._update Random dt g = Running g'.
Proof.
  destruct (Player.alive (Game.player g)) eqn:Ha.
  - destruct (World.update Random dt (Player.row (Game.player g))
                (Game.world g) (Game.random g)) as [w random] eqn:Hw.
    destruct (ensure_lane_lookup Random (Player.row (Game.player g)) None w)
      as [lane Hlane].
    destruct (update_alive Random dt g w random lane Ha Hw Hlane) as (g' & H & _).
    eauto.
  - rewrite update_dead by done. eauto.
Qed.

(** An event either ends the process, exactly when it is the window's close
    button or the escape key, or is handled and the game goes on. *)
Lemma handle_event_outcome ev now_ms g :
  (ev = QUIT \/ ev = KEYDOWN K_ESCAPE) /\
  Game.handle_event Random (ev, now_ms) g = Exited
  \/ ev <> QUIT /\ ev <> KEYDOWN K_ESCAPE /\
     exists g', Game.handle_event Random (ev, now_ms) g = Running g'.
Proof.
  destruct ev as [|key|]; [left; auto | | right; cbn; eauto].
  destruct key; [right | right | right | right | right | left; auto | right];
    (split; [done|]); (split; [done|]); unfold Game.handle_event;
    try (destruct (negb (Player.alive (Game.player g)));
         [eauto | apply try_hop_runs]); destruct (negb _); eauto.
Qed.

Lemma handle_events_cons ev events g :
  Game._handle_events Random (ev :: events) g
  = bind (Game.handle_event Random ev g) (Game._handle_events Random events).
Proof.
  unfold Game._handle_events. cbn [fold_left bind].
  destruct (Game.handle_event Random ev g) as [g1| |]; cbn [bind]; [done | |].
  - induction events as [|b events IH]; [done | apply IH].
  - induction events as [|b events IH]; [done | apply IH].
Qed.

Lemma handle_events_outcome events : forall g,
  Exists (fun ev => fst ev = QUIT \/ fst ev = KEYDOWN K_ESCAPE) events /\
  Game._handle_events Random events g = Exited
  \/ ~ Exists (fun ev => fst ev = QUIT \/ fst ev = KEYDOWN K_ESCAPE) events /\
     exists g', Game._handle_events Random events g = Running g'.
Proof.
  induction events as [|[ev now_ms] events IH]; intros g.
  - right. split; [by intros H; inversion H | cbn; eauto].
  - rewrite handle_events_cons.
    destruct (handle_event_outcome ev now_ms g)
      as [[Hq ->] | (Hn1 & Hn2 & g1 & ->)]; cbn [bind].
    + left. split; [by left | done].
    + destruct (IH g1) as [[Hex ->] | (Hnex & g' & ->)].
      * left. split; [by right | done].
      * right. split; [|eauto].
        intros [[H | H] | H]%Exists_cons; cbn in H; done.
Qed.

Lemma frame_outcome ms events g :
  Exists (fun ev => fst ev = QUIT \/ fst ev = KEYDOWN K_ESCAPE) events /\
  Game.frame Random (ms, events) g = Exited
  \/ ~ Exists (fun ev => fst ev = QUIT \/ fst ev = KEYDOWN K_ESCAPE) events /\
     exists g', Game.frame Random (ms, events) g = Running g'.
Proof.
  unfold Game.frame.
  set (g0 := Game.mk _ _ _ _ _ _).
  destruct (handle_events_outcome events g0) as [[Hex ->] | (Hnex & g1 & ->)];
    cbn [bind]; [by left|].
  right. split; [done | apply update_runs].
Qed.

End Exits.

(** X10. No exception, and when the game exits.  However the frames go,
    [run] never ends in an exception: the lookup [self.lanes[row]] of
    [lane_at] always finds its key.  It ends the process exactly when some
    frame brings a QUIT event or the escape key; otherwise it returns a
    game. *)
Theorem run_never_raises :
  forall (Random : Z -> Rng.t) (inputs : list (Z * list (Event * Z)))
         (random0 : Rng.t),
    Game.run Random inputs random0 <> Raised /\
    (Game.run Random inputs random0 = Exited <->
     Exists (fun input =>
               Exists (fun ev => fst ev = QUIT \/ fst ev = KEYDOWN K_ESCAPE)
                      (snd input)) inputs).
Proof.
  intros Random inputs random0. unfold Game.run.
  assert (H : forall m,
    (exists g, m = Running g) ->
    Exists (fun input =>
              Exists (fun ev => fst ev = QUIT \/ fst ev = KEYDOWN K_ESCAPE)
                     (snd input)) inputs /\
    fold_left (fun m input => bind m (Game.frame Random input)) inputs m = Exited
    \/ ~ Exists (fun input =>
                   Exists (fun ev => fst ev = QUIT \/ fst ev = KEYDOWN K_ESCAPE)
                          (snd input)) inputs /\
       exists g', fold_left (fun m input => bind m (Game.frame Random input))
                            inputs m = Running g').
  { induction inputs as [|[ms events] inputs IH]; intros m [g ->].
    - right. split; [by intros H; inversion H | cbn; eauto].
    - cbn [fold_left bind].
      destruct (frame_outcome Random ms events g) as [[Hex ->] | (Hnex & g1 & ->)].
      + left. split; [by left|].
        clear. induction inputs as [|b inputs IH]; [done | apply IH].
      + destruct (IH (Running g1) ltac:(eauto)) as [[Hex ->] | (Hnex' & g' & ->)].
        * left. split; [by right | done].
        * right. split; [|eauto]. by intros [H | H]%Exists_cons. }
  destruct (H (Running (Game.__init__ Random random0)) ltac:(eauto))
    as [[Hex ->] | (Hnex & g' & ->)]; split; try done.
Qed.

(** ** Reset *)

Section Reset.
Variable Random : Z -> Rng.t.

Lemma band_loop rows : forall w,
  let w' :=
    fold_left (fun w r => World._ensure_lane Random r (Some LANE_GRASS) w)
              rows w in
  World.max_generated_row w' = World.max_generated_row w /\
  (forall r, is_Some (World.lanes w' !! r)
             <-> is_Some (World.lanes w !! r) \/ r ∈ rows) /\
  (forall r l, World.lanes w' !! r = Some l ->
     World.lanes w !! r = Some l \/
     Lane.lane_type l = LANE_GRASS /\ Lane.row l = r /\ Lane.objects l = [] /\
     Lane.speed l = 0%Q).
Proof.
  induction rows as [|r0 rows IH]; intros w; cbn [fold_left].
  - split; [done|]. split; [|by left].
    intros r. split; [by left | intros [H | H]; [done | by inversion H]].
  - pose proof (IH (World._ensure_lane Random r0 (Some LANE_GRASS) w))
      as (Hmax & Hdom & Hval).
    cbv zeta in *. rewrite Hmax, ensure_lane_max. split; [done|].
    destruct (World.lanes w !! r0) as [l0|] eqn:Hr0.
    + assert (E : World._ensure_lane Random r0 (Some LANE_GRASS) w = w)
        by (apply ensure_lane_present; eauto).
      rewrite E in Hdom, Hval |- *.
      split; [|done]. intros r. rewrite Hdom, elem_of_cons.
      split; [tauto|]. intros [H | [-> | H]]; [tauto | | tauto].
      left. by eexists.
    + destruct (ensure_lane_fresh Random r0 (Some LANE_GRASS) w (or_intror eq_refl) Hr0)
        as (l & g & E & Hrow & Hobjs & Hwf & Hty & _).
      rewrite E in Hdom, Hval |- *.
      specialize (Hty eq_refl). split.
      * intros r. rewrite Hdom, elem_of_cons. cbn [World.lanes].
        destruct (decide (r = r0)) as [-> | Hne].
        -- rewrite lookup_insert_eq. split; [intros _; right; by left|].
           intros _. left. by eexists.
        -- rewrite lookup_insert_ne by done. tauto.
      * intros r l' Hl'. destruct (Hval r l' Hl') as [H | H]; [|by right].
        cbn [World.lanes] in H. destruct (decide (r = r0)) as [-> | Hne].
        -- rewrite lookup_insert_eq in H. injection H as <-. right.
           destruct Hwf as (_ & _ & _ & Hsp & _). rewrite Hty in Hsp. done.
        -- rewrite lookup_insert_ne in H by done. by left.
Qed.

Lemma world_reset_band random :
  World.max_generated_row (fst (World.reset Random random)) = -1 /\
  (forall r, is_Some (World.lanes (fst (World.reset Random random)) !! r)
             <-> 0 <= r < 8) /\
  (forall r l, World.lanes (fst (World.reset Random random)) !! r = Some l ->
     Lane.lane_type l = LANE_GRASS /\ Lane.row l = r /\ Lane.objects l = [] /\
     Lane.speed l = 0%Q).
Proof.
  unfold World.reset.
  destruct (Rng.randint 0 10000000 random) as [seed random'].
  cbn [fst].
  pose proof (band_loop (range 0 8) (World.mk ∅ (Random seed) (-1)))
    as (Hmax & Hdom & Hval).
  cbv zeta in *. cbn [World.lanes World.max_generated_row] in *.
  split; [done|]. split.
  - intros r. rewrite Hdom, elem_of_range, lookup_empty.
    split; [intros [[? [=]] | H]; lia | intros H; right; lia].
  - intros r l Hl. destruct (Hval r l Hl) as [H | H]; [|done].
    by rewrite lookup_empty in H.
Qed.

End Reset.

Lemma game_reset_facts :
  forall (Random : Z -> Rng.t) (g : Game.t) (now_ms : Z),
    Game.handle_event Random (KEYDOWN K_r, now_ms) g
    = Running (Game.reset Random g) /\
    Game.player (Game.reset Random g)
    = Player.mk 336 2 true (Player.score_best (Game.player g)) 0
                (Player.last_hop_ms (Game.player g)) 0 0 false /\
    Game.camera_y (Game.reset Random g) = -576 /\
    Game.t_total (Game.reset Random g) = 0%Q /\
    Game.game_over (Game.reset Random g) = false /\
    World.max_generated_row (Game.world (Game.reset Random g)) = -1 /\
    (forall r, is_Some (World.lanes (Game.world (Game.reset Random g)) !! r)
               <-> 0 <= r < 8) /\
    (forall r l, World.lanes (Game.world (Game.reset Random g)) !! r = Some l ->
       Lane.lane_type l = LANE_GRASS /\ Lane.row l = r /\
       Lane.objects l = [] /\ Lane.speed l = 0%Q).
Proof.
  intros Random g now_ms.
  pose proof (world_reset_band Random (Game.random g)) as Hband.
  unfold Game.handle_event, Game.reset in *.
  destruct (World.reset Random (Game.random g)) as [w random] eqn:Hw.
  cbn [fst Game.player Game.world Game.camera_y Game.t_total Game.game_over
       Player.alive Player.row negb] in *.
  split; [done|]. split; [done|]. split; [done|]. split; [done|].
  split; [done|]. exact Hband.
Qed.


(** X11. What a reset restores.  [Game.reset] puts the player back on
    row 2 in the middle column, alive, with score 0 and no ride or hop
    in progress, and rebuilds the world as exactly the eight rows 0..7,
    all grass and empty, with nothing generated beyond them; the clock
    total and the game-over flag are cleared.  The best score and the
    time of the last hop survive the reset.  The key R does exactly
    this, whether the player was alive or not. *)
Theorem reset_restores_start :
  forall (Random : Z -> Rng.t) (g : Game.t) (now_ms : Z),
    Game.handle_event Random (KEYDOWN K_r, now_ms) g
    = Running (Game.reset Random g) /\
    Game.player (Game.reset Random g)
    = Player.mk 336 2 true (Player.score_best (Game.player g)) 0
                (Player.last_hop_ms (Game.player g)) 0 0 false /\
    Game.camera_y (Game.reset Random g) = -576 /\
    Game.t_total (Game.reset Random g) = 0%Q /\
    Game.game_over (Game.reset Random g) = false /\
    World.max_generated_row (Game.world (Game.reset Random g)) = -1 /\
    (forall r, is_Some (World.lanes (Game.world (Game.reset Random g)) !! r)
               <-> 0 <= r < 8) /\
    (forall r l, World.lanes (Game.world (Game.reset Random g)) !! r = Some l ->
       Lane.lane_type l = LANE_GRASS /\ Lane.row l = r /\
       Lane.objects l = [] /\ Lane.speed l = 0%Q).
Proof. exact game_reset_facts. Qed.

(** ** Scores *)

Section Scores.
Variable Random : Z -> Rng.t.

Lemma player_update_scores dt p :
  Player.score (Player.update dt p) = Player.score p /\
  Player.score_best (Player.update dt p) = Player.score_best p.
Proof.
  unfold Player.update. destruct (negb (Player.alive p)); [done|].
  destruct (if Player.hop_animating p then _ else _) as [progress animating].
  cbv zeta. by destruct (_ || _).
Qed.

Lemma update_scores dt g g' :
  Player.alive (Game.player g) = true ->
  Game._update Random dt g = Running g' ->
  Player.score (Game.player g')
  = Z.max (Player.score (Game.player g)) (Player.row (Game.player g) - 2) /\
  Player.score_best (Game.player g')
  = Z.max (Player.score_best (Game.player g))
          (Z.max (Player.score (Game.player g)) (Player.row (Game.player g) - 2)).
Proof.
  intros Ha Hup.
  destruct (World.update Random dt (Player.row (Game.player g))
              (Game.world g) (Game.random g)) as [w random] eqn:Hw.
  destruct (ensure_lane_lookup Random (Player.row (Game.player g)) None w)
    as [lane Hlane].
  destruct (update_alive_player Random dt g w random lane Ha Hw Hlane)
    as (g1 & Hg1 & Hp).
  rewrite Hg1 in Hup. injection Hup as <-. rewrite Hp. cbv zeta.
  set (p0 := Player.set_scores _ _ _).
  set (p1 := match Lane.lane_type lane with LANE_RIVER => _ | _ => p0 end).
  set (p2 := match Lane.lane_type lane with LANE_ROAD => _ | _ => p1 end).
  assert (H1 : Player.score p1 = Player.score p0 /\
               Player.score_best p1 = Player.score_best p0).
  { subst p1. destruct (Lane.lane_type lane); try done.
    by destruct (Game._player_on_log lane (Game.player g)). }
  assert (H2 : Player.score p2 = Player.score p0 /\
               Player.score_best p2 = Player.score_best p0).
  { subst p2. destruct (Lane.lane_type lane); try done.
    by destruct (Game._player_hit_car lane (Game.player g)). }
  destruct (player_update_scores dt p2) as [H3 H3'].
  destruct (_ && _); cbn [Player.set_alive Player.score Player.score_best];
    rewrite H3, H3'; destruct H2 as [-> ->]; done.
Qed.

Lemma step_scores a g g' :
  Game.step Random a g = Running g' ->
  Player.score_best (Game.player g) <= Player.score_best (Game.player g') /\
  (0 <= Player.score (Game.player g) <= Player.score_best (Game.player g) ->
   0 <= Player.score (Game.player g') <= Player.score_best (Game.player g')) /\
  (Player.score (Game.player g') < Player.score (Game.player g) ->
   Player.score (Game.player g') = 0 /\
   exists now_ms, a = Game.Handle (KEYDOWN K_r, now_ms)).
Proof.
  destruct a as [dt | [ev now_ms] | dt]; cbn [Game.step]; intros Hstep.
  - injection Hstep as <-. cbn. lia.
  - destruct (handle_event_cases Random ev now_ms g g' Hstep)
      as [-> | [[-> ->] | (key & dc & dr & -> & Hd & Ha & Hhop)]]; [lia | |].
    + destruct (game_reset_facts Random g now_ms) as (_ & -> & _).
      cbn. split; [lia|]. split; [lia|]. eauto.
    + destruct (try_hop_cases Random now_ms dc dr g g' Hhop) as [-> | ->];
        cbn [Game.set_world Game.set_player Game.player]; [lia|].
      destruct (hop_facts now_ms dc dr (Game.player g)) as (_ & -> & -> & _).
      lia.
  - destruct (Player.alive (Game.player g)) eqn:Ha.
    + destruct (update_scores dt g g' Ha Hstep) as [-> ->]. lia.
    + rewrite update_dead in Hstep by done. injection Hstep as <-. cbn. lia.
Qed.

End Scores.

(** X12. The scores.  In every state of the game the score is between 0
    and the best score.  Along any steps from there the best score never
    goes down, not even across a reset; one step lowers the score only
    if it is the key R, and then to 0.  After a frame update that finds
    the player alive, the score is at least the player's row minus 2. *)
Theorem reachable_scores :
  forall (Random : Z -> Rng.t) (g : Game.t),
    Game.reachable Random g ->
    0 <= Player.score (Game.player g) <= Player.score_best (Game.player g) /\
    (forall acts g',
       Game.steps Random acts g = Running g' ->
       Player.score_best (Game.player g) <= Player.score_best (Game.player g')) /\
    (forall a g',
       Game.step Random a g = Running g' ->
       Player.score (Game.player g) <= Player.score (Game.player g') \/
       Player.score (Game.player g') = 0 /\
       exists now_ms, a = Game.Handle (KEYDOWN K_r, now_ms)) /\
    (forall dt g',
       Player.alive (Game.player g) = true ->
       Game._update Random dt g = Running g' ->
       Player.row (Game.player g') - 2 <= Player.score (Game.player g')).
Proof.
  intros Random g Hg. split; [|split; [|split]].
  - induction Hg as [random0 | g g' a Hg IH Hstep].
    + unfold Game.__init__.
      destruct (game_reset_facts Random
                  (Game.mk (World.__init__ Random)
                     (Player.mk (inject_Z (GRID_COLS / 2 * TILE)) 2 true 0 0 0 0 0 false)
                     0 0 false random0) 0) as (_ & -> & _).
      cbn. lia.
    + by apply (step_scores Random a g g' Hstep).
  - clear Hg. intros acts. revert g.
    induction acts as [|a acts IH]; intros g g'.
    + cbn. intros [= <-]. lia.
    + rewrite steps_cons.
      destruct (Game.step Random a g) as [g1| |] eqn:Hstep; cbn [bind]; [|done..].
      intros Hsteps. pose proof (IH g1 g' Hsteps) as Hb.
      destruct (step_scores Random a g g1 Hstep) as (Hb1 & _). lia.
  - intros a g' Hstep.
    destruct (step_scores Random a g g' Hstep) as (_ & _ & Hs).
    destruct (Z.le_gt_cases (Player.score (Game.player g))
                            (Player.score (Game.player g'))); [by left|].
    right. apply Hs. lia.
  - intros dt g' Ha Hup.
    destruct (update_scores Random dt g g' Ha Hup) as [-> _].
    destruct (World.update Random dt (Player.row (Game.player g))
                (Game.world g) (Game.random g)) as [w random] eqn:Hw.
    destruct (ensure_lane_lookup Random (Player.row (Game.player g)) None w)
      as [lane Hlane].
    destruct (update_alive Random dt g w random lane Ha Hw Hlane)
      as (g1 & Hg1 & _ & Hrow & _).
    rewrite Hg1 in Hup. injection Hup as <-. rewrite Hrow. lia.
Qed.

Lemma reachable_scores_witness :
  0 <= Player.score (Game.player Demo.road_state)
    <= Player.score_best (Game.player Demo.road_state) /\
  (forall acts g',
     Game.steps Demo.RandomHalf acts Demo.road_state = Running g' ->
     Player.score_best (Game.player Demo.road_state)
     <= Player.score_best (Game.player g')) /\
  (forall a g',
     Game.step Demo.RandomHalf a Demo.road_state = Running g' ->
     Player.score (Game.player Demo.road_state) <= Player.score (Game.player g') \/
     Player.score (Game.player g') = 0 /\
     exists now_ms, a = Game.Handle (KEYDOWN K_r, now_ms)) /\
  (forall dt g',
     Player.alive (Game.player Demo.road_state) = true ->
     Game._update Demo.RandomHalf dt Demo.road_state = Running g' ->
     Player.row (Game.player g') - 2 <= Player.score (Game.player g')).
Proof.
  apply (reachable_scores Demo.RandomHalf Demo.road_state).
  exact road_state_reachable.
Defined.

(** ** Hops *)

(** X13. Where an accepted hop lands.  When a directional key changes the
    player, the player was alive and the cooldown had passed; the player
    now stands exactly on a tile column, the clamped target column, on
    the target row, which is not negative; the lane of that row exists,
    and if it is grass it has no tree in that column.  The time of the
    hop is recorded and the hop animation starts from 0. *)
Theorem accepted_hop_lands_on_free_cell :
  forall (Random : Z -> Rng.t) (key : Key) (dc dr now_ms : Z) (g g' : Game.t),
    Game.delta key = Some (dc, dr) ->
    Game.handle_event Random (KEYDOWN key, now_ms) g = Running g' ->
    Game.player g' <> Game.player g ->
    Player.alive (Game.player g) = true /\
    HOP_COOLDOWN_MS <= now_ms - Player.last_hop_ms (Game.player g) /\
    Player.row (Game.player g') = Z.max 0 (Player.row (Game.player g) + dr) /\
    Player._grid_col (Game.player g')
    = clamp (Player._grid_col (Game.player g) + dc) 0 (GRID_COLS - 1) /\
    Player.x (Game.player g')
    = inject_Z (Player._grid_col (Game.player g') * TILE) /\
    0 <= Player._grid_col (Game.player g') <= 14 /\
    Player.last_hop_ms (Game.player g') = now_ms /\
    Player.hop_progress (Game.player g') = 0%Q /\
    Player.hop_animating (Game.player g') = true /\
    Player.alive (Game.player g') = true /\
    exists lane,
      World.lanes (Game.world g') !! Player.row (Game.player g') = Some lane /\
      (Lane.lane_type lane = LANE_GRASS ->
       Lane.has_tree_at lane (Player._grid_col (Game.player g')) = false).
Proof.
  intros Random key dc dr now_ms g g' Hd Hev Hne.
  rewrite (handle_arrow Random key now_ms dc dr g Hd) in Hev.
  destruct (Player.alive (Game.player g)) eqn:Ha; cbn [negb] in Hev;
    [|by injection Hev as <-].
  unfold Game.try_hop in Hev.
  destruct (can_move_to_spec Random dc dr g) as (lane & Hlane & Hcan).
  rewrite Hcan in Hev. cbn [bind] in Hev.
  destruct (LaneType_eqb (Lane.lane_type lane) LANE_GRASS &&
            Lane.has_tree_at lane
              (clamp (Player._grid_col (Game.player g) + dc) 0 (GRID_COLS - 1)))
    eqn:Hblocked; cbn [negb] in Hev; injection Hev as <-; [done|].
  cbn [Game.set_player Game.set_world Game.player Game.world] in *.
  destruct (Player.can_hop now_ms (Game.player g)) eqn:Hcool;
    [|by rewrite hop_rejected in Hne by auto].
  rewrite (hop_accepted now_ms dc dr (Game.player g) Ha Hcool) in *.
  set (col := clamp (Player._grid_col (Game.player g) + dc) 0 (GRID_COLS - 1)) in *.
  set (p' := Player.mk _ _ _ _ _ _ _ _ _) in *.
  assert (Hcol : Player._grid_col p' = col) by apply round_grid.
  rewrite Hcol.
  pose proof (clamp_bounds (Player._grid_col (Game.player g) + dc) 0
                (GRID_COLS - 1) ltac:(done)) as Hb.
  fold col in Hb. change (GRID_COLS - 1) with 14 in Hb.
  split; [done|]. split; [by apply Z.leb_le|]. do 2 (split; [done|]).
  split; [done|]. split; [lia|]. do 4 (split; [done|]).
  exists lane. split; [done|]. intros Hty. rewrite Hty in Hblocked. exact Hblocked.
Qed.

(** X14. The hop cooldown.  After a hop that was accepted at time [t1],
    a hop asked for less than 110 ms later is ignored, whatever its
    direction. *)
Theorem hop_cooldown :
  forall (p : Player.t) (t1 t2 dc1 dr1 dc2 dr2 : Z),
    Player.hop t1 dc1 dr1 p <> p ->
    t2 - t1 < HOP_COOLDOWN_MS ->
    Player.hop t2 dc2 dr2 (Player.hop t1 dc1 dr1 p) = Player.hop t1 dc1 dr1 p.
Proof.
  intros p t1 t2 dc1 dr1 dc2 dr2 Hne Hlt.
  destruct (Player.alive p) eqn:Ha; [|by rewrite hop_rejected in Hne by auto].
  destruct (Player.can_hop t1 p) eqn:Hcool;
    [|by rewrite hop_rejected in Hne by auto].
  rewrite (hop_accepted t1 dc1 dr1 p Ha Hcool).
  apply hop_rejected. right. unfold Player.can_hop. cbn [Player.last_hop_ms].
  by apply Z.leb_gt.
Qed.

(** ** Pruning *)

Lemma generate_loop_mark Random rows : forall w,
  World.max_generated_row
    (fold_left
       (fun w r =>
          let w := World._ensure_lane Random r None w in
          World.mk (World.lanes w) (World.rng w)
                   (Z.max (World.max_generated_row w) r))
       rows w)
  = fold_left Z.max rows (World.max_generated_row w).
Proof.
  induction rows as [|r rows IH]; intros w; cbn [fold_left]; [done|].
  rewrite IH. cbn [World.max_generated_row]. by rewrite ensure_lane_max.
Qed.

Lemma fold_max_ge rows : forall m,
  (m <= fold_left Z.max rows m) /\
  (forall r, r ∈ rows -> r <= fold_left Z.max rows m).
Proof.
  induction rows as [|r0 rows IH]; intros m; cbn [fold_left].
  - split; [lia | by intros r H; inversion H].
  - destruct (IH (Z.max m r0)) as [H1 H2]. split; [lia|].
    intros r [-> | H]%elem_of_cons; [lia | by apply H2].
Qed.

Lemma generate_around_prunes_mark Random p w :
  Z.max (World.max_generated_row w) (p + 28)
  <= World.max_generated_row (World._generate_around Random p w).
Proof.
  unfold World._generate_around.
  set (rows := range _ _).
  pose proof (generate_loop_mark Random rows w) as Hmark.
  cbv zeta in *. set (w' := fold_left _ rows w) in *.
  cbn [World.lanes World.max_generated_row].
  rewrite Hmark.
  destruct (fold_max_ge rows (World.max_generated_row w)) as [H1 H2].
  destruct (Z.le_gt_cases (p + 28) (World.max_generated_row w)); [lia|].
  assert (Hin : p + 28 ∈ rows).
  { subst rows. apply elem_of_range. change AHEAD_ROWS with 28. lia. }
  specialize (H2 _ Hin). lia.
Qed.

(** X15. What streaming removes.  After [_generate_around] for a player
    on row [p], no lane is kept below row [max 0 (p - 20)], and every
    lane the world had at or above that row is still there, unchanged;
    the generated-row mark never moves back and reaches [p + 28]. *)
Theorem generate_around_prunes_below :
  forall (Random : Z -> Rng.t) (p : Z) (w : World.t),
    (forall r, r < Z.max 0 (p - 20) ->
       World.lanes (World._generate_around Random p w) !! r = None) /\
    (forall r l, Z.max 0 (p - 20) <= r ->
       World.lanes w !! r = Some l ->
       World.lanes (World._generate_around Random p w) !! r = Some l) /\
    Z.max (World.max_generated_row w) (p + 28)
    <= World.max_generated_row (World._generate_around Random p w).
Proof.
  intros Random p w. unfold World._generate_around.
  set (rows := range _ _).
  pose proof (generate_loop Random rows w) as (_ & Hkeep & _).
  pose proof (generate_loop_mark Random rows w) as Hmark.
  cbv zeta in *. set (w' := fold_left _ rows w) in *.
  cbn [World.lanes World.max_generated_row].
  change (BEHIND_ROWS + 8) with 20. split; [|split].
  - intros r Hr. apply map_lookup_filter_None. right. intros l _. cbn. lia.
  - intros r l Hr Hl. apply map_lookup_filter_Some. split; [by apply Hkeep|].
    cbn. lia.
  - rewrite Hmark.
    destruct (fold_max_ge rows (World.max_generated_row w)) as [H1 H2].
    destruct (Z.le_gt_cases (p + 28) (World.max_generated_row w)); [lia|].
    assert (Hin : p + 28 ∈ rows).
    { subst rows. apply elem_of_range. change AHEAD_ROWS with 28. lia. }
    specialize (H2 _ Hin). lia.
Qed.

Lemma accepted_hop_witness :
  Player.alive (Game.player Demo.start_state) = true /\
  HOP_COOLDOWN_MS <= 200 - Player.last_hop_ms (Game.player Demo.start_state) /\
  Player.row (Game.player Demo.hopped_state)
  = Z.max 0 (Player.row (Game.player Demo.start_state) + 1) /\
  Player._grid_col (Game.player Demo.hopped_state)
  = clamp (Player._grid_col (Game.player Demo.start_state) + 0) 0 (GRID_COLS - 1) /\
  Player.x (Game.player Demo.hopped_state)
  = inject_Z (Player._grid_col (Game.player Demo.hopped_state) * TILE) /\
  0 <= Player._grid_col (Game.player Demo.hopped_state) <= 14 /\
  Player.last_hop_ms (Game.player Demo.hopped_state) = 200 /\
  Player.hop_progress (Game.player Demo.hopped_state) = 0%Q /\
  Player.hop_animating (Game.player Demo.hopped_state) = true /\
  Player.alive (Game.player Demo.hopped_state) = true /\
  exists lane,
    World.lanes (Game.world Demo.hopped_state)
      !! Player.row (Game.player Demo.hopped_state) = Some lane /\
    (Lane.lane_type lane = LANE_GRASS ->
     Lane.has_tree_at lane (Player._grid_col (Game.player Demo.hopped_state))
     = false).
Proof.
  apply (accepted_hop_lands_on_free_cell Demo.RandomHalf K_UP 0 1 200
           Demo.start_state Demo.hopped_state).
  - reflexivity.
  - vm_compute. reflexivity.
  - vm_compute. discriminate.
Defined.

Lemma hop_cooldown_witness :
  Player.hop 250 (-1) 0 (Player.hop 200 0 1 (Game.player Demo.start_state))
  = Player.hop 200 0 1 (Game.player Demo.start_state).
Proof.
  apply (hop_cooldown (Game.player Demo.start_state) 200 250 0 1 (-1) 0).
  - vm_compute. discriminate.
  - vm_compute. reflexivity.
Defined.

(** ** The anti-streak rule under forward streaming *)

Section Forward.
Variable Random : Z -> Rng.t.

Lemma is_hazard_some o : World.is_hazard o = true -> is_Some o.
Proof. destruct o; [eauto | done]. Qed.

Lemma forward_generate_step r w :
  forward w -> no_streak w -> World.max_generated_row w = r - 1 ->
  forward (World.mk (World.lanes (World._ensure_lane Random r None w))
                    (World.rng (World._ensure_lane Random r None w))
                    (Z.max (World.max_generated_row
                              (World._ensure_lane Random r None w)) r)) /\
  no_streak (World.mk (World.lanes (World._ensure_lane Random r None w))
                      (World.rng (World._ensure_lane Random r None w))
                      (Z.max (World.max_generated_row
                                (World._ensure_lane Random r None w)) r)).
Proof.
  intros (Hmark & Hdom & Hband & Hleft) Hstreak Hr.
  rewrite ensure_lane_max, Hr. replace (Z.max (r - 1) r) with r by lia.
  destruct (World.lanes w !! r) as [l0|] eqn:Hr0.
  - rewrite (ensure_lane_present Random r None w) by eauto.
    split; [|exact Hstreak]. unfold forward. cbn [World.lanes World.max_generated_row].
    split; [lia|]. split; [|split; [exact Hband|]].
    + intros k Hk. specialize (Hdom k Hk). lia.
    + intros k Hk1 Hk2. apply Hleft; lia.
  - assert (Hr8 : 8 <= r).
    { destruct (Z.le_gt_cases 8 r) as [H | H]; [done|].
      destruct (Hleft r ltac:(lia) ltac:(lia)) as [l Hl]. congruence. }
    destruct (ensure_lane_fresh Random r None w (or_introl eq_refl) Hr0)
      as (l & g & -> & _ & _ & _ & _ & Hty).
    specialize (Hty eq_refl). cbn [World.lanes World.rng].
    split.
    + unfold forward. cbn [World.lanes World.max_generated_row].
      split; [lia|]. split; [|split].
      * intros k Hk. destruct (decide (k = r)) as [-> | Hne]; [lia|].
        rewrite lookup_insert_ne in Hk by done. specialize (Hdom k Hk). lia.
      * intros k l' Hl' Hk. rewrite lookup_insert_ne in Hl' by lia. eauto.
      * intros k Hk1 Hk2. lia.
    + intros k H0 H1 H2. cbn [World.lanes] in *.
      assert (Habove : forall j, r < j ->
                World.is_hazard (<[r := l]> (World.lanes w) !! j) = false).
      { intros j Hj. rewrite lookup_insert_ne by lia.
        destruct (World.lanes w !! j) as [lj|] eqn:Hlj; [|done].
        specialize (Hdom j ltac:(eauto)). lia. }
      destruct (Z.lt_trichotomy (k + 2) r) as [Hlt | [Heq | Hgt]].
      * rewrite lookup_insert_ne in H0, H1, H2 by lia. by apply (Hstreak k).
      * rewrite lookup_insert_ne in H0, H1 by lia.
        replace (k + 2) with r in H2 by lia. rewrite lookup_insert_eq in H2.
        cbn [World.is_hazard] in H2. rewrite Hty in H2.
        destruct (Z.le_gt_cases 10 r) as [H10 | H10].
        -- rewrite (choose_lane_type_forced r w H10) in H2; [done | |].
           ++ by replace (r - 1) with (k + 1) by lia.
           ++ by replace (r - 2) with k by lia.
        -- destruct (World.lanes w !! k) as [lk|] eqn:Hlk; [|done].
           cbn [World.is_hazard] in H0.
           by rewrite (Hband k lk Hlk ltac:(lia)) in H0.
      * destruct (decide (k + 1 = r)) as [Hk1 | Hk1].
        -- rewrite (Habove (k + 2)) in H2 by lia. done.
        -- destruct (decide (k = r)) as [Hk | Hk].
           ++ rewrite (Habove (k + 1)) in H1 by lia. done.
           ++ rewrite (Habove k) in H0 by lia. done.
Qed.

Lemma forward_generate_loop n : forall a w,
  forward w -> no_streak w -> World.max_generated_row w = a - 1 ->
  forward
    (fold_left
       (fun w r =>
          let w := World._ensure_lane Random r None w in
          World.mk (World.lanes w) (World.rng w)
                   (Z.max (World.max_generated_row w) r))
       (seqZ a (Z.of_nat n)) w) /\
  no_streak
    (fold_left
       (fun w r =>
          let w := World._ensure_lane Random r None w in
          World.mk (World.lanes w) (World.rng w)
                   (Z.max (World.max_generated_row w) r))
       (seqZ a (Z.of_nat n)) w).
Proof.
  induction n as [|n IH]; intros a w Hf Hs Ha; [done|].
  rewrite seqZ_cons by lia. cbn [fold_left].
  replace (Z.pred (Z.of_nat (S n))) with (Z.of_nat n) by lia.
  destruct (forward_generate_step a w Hf Hs Ha) as [Hf1 Hs1].
  apply IH; [done | done |].
  cbn [World.max_generated_row]. rewrite ensure_lane_max. lia.
Qed.

Lemma forward_generate_around p w :
  forward w -> no_streak w ->
  forward (World._generate_around Random p w) /\
  no_streak (World._generate_around Random p w).
Proof.
  intros Hf Hs.
  pose proof (generate_around_prunes_mark Random p w) as Hmark.
  revert Hmark. unfold World._generate_around, range. cbv zeta.
  set (a := World.max_generated_row w + 1).
  assert (Hlen : seqZ a (p + AHEAD_ROWS + 1 - a)
                 = seqZ a (Z.of_nat (Z.to_nat (p + AHEAD_ROWS + 1 - a)))).
  { unfold seqZ. by rewrite Nat2Z.id. }
  rewrite Hlen.
  destruct (forward_generate_loop (Z.to_nat (p + AHEAD_ROWS + 1 - a)) a w Hf Hs
              ltac:(subst a; lia)) as [(Hm & Hdom & Hband & Hleft) Hs'].
  set (w' := fold_left _ _ w) in *.
  cbn [World.lanes World.max_generated_row]. intros Hmark. split.
  - unfold forward. cbn [World.lanes World.max_generated_row].
    split; [done|]. split; [|split].
    + intros r [l [Hl _]%map_lookup_filter_Some]. apply Hdom. eauto.
    + intros r l [Hl _]%map_lookup_filter_Some. by apply Hband.
    + intros r Hr Hlt. destruct (Hleft r Hr Hlt) as [l Hl]. exists l.
      apply map_lookup_filter_Some. split; [done|]. cbn.
      change (BEHIND_ROWS + 8) with 20. lia.
  - intros r H0 H1 H2. cbn [World.lanes] in *. apply (Hs' r).
    + destruct (is_hazard_some _ H0) as [l Hl]. rewrite Hl in H0.
      apply map_lookup_filter_Some in Hl as [-> _]. done.
    + destruct (is_hazard_some _ H1) as [l Hl]. rewrite Hl in H1.
      apply map_lookup_filter_Some in Hl as [-> _]. done.
    + destruct (is_hazard_some _ H2) as [l Hl]. rewrite Hl in H2.
      apply map_lookup_filter_Some in Hl as [-> _]. done.
Qed.

Lemma forward_same w1 w2 :
  World.static <$> World.lanes w1 = World.static <$> World.lanes w2 ->
  World.max_generated_row w1 = World.max_generated_row w2 ->
  forward w2 -> no_streak w2 -> forward w1 /\ no_streak w1.
Proof.
  intros Hst Hmax (Hm & Hdom & Hband & Hleft) Hs. split.
  - unfold forward. rewrite Hmax. split; [done|]. split; [|split].
    + intros r [l Hl].
      destruct (static_lookup w2 w1 r l (eq_sym Hst) Hl) as (l' & Hl' & _).
      apply Hdom. eauto.
    + intros r l Hl Hr.
      destruct (static_lookup w2 w1 r l (eq_sym Hst) Hl) as (l' & Hl' & He).
      injection He as He _ _ _. rewrite <- He. by apply (Hband r).
    + intros r Hr Hlt. destruct (Hleft r Hr Hlt) as [l Hl].
      destruct (static_lookup w1 w2 r l Hst Hl) as (l' & Hl' & _). eauto.
  - intros r. rewrite !(is_hazard_same w1 w2) by done. apply Hs.
Qed.

Lemma forward_apply op st :
  World.op_player_row op <> None ->
  forward (fst st) -> no_streak (fst st) ->
  forward (fst (World.apply Random op st)) /\
  no_streak (fst (World.apply Random op st)).
Proof.
  intros Hop Hf Hs. destruct op as [p | dt p | row]; [| |done];
    cbn [World.apply fst].
  - by apply forward_generate_around.
  - unfold World.update.
    destruct (forward_generate_around p (fst st) Hf Hs) as [Hf1 Hs1].
    pose proof (update_loop dt
                  (range (p - BEHIND_ROWS) (p + AHEAD_ROWS + 1))
                  (World._generate_around Random p (fst st)) (snd st))
      as (_ & _ & Hmax & Hst).
    cbv zeta in Hmax, Hst. by apply (forward_same _ _ Hst Hmax).
Qed.

Lemma forward_reset random :
  forward (fst (World.reset Random random)) /\
  no_streak (fst (World.reset Random random)).
Proof.
  destruct (world_reset_band Random random) as (Hmax & Hdom & Hval).
  split.
  - unfold forward. rewrite Hmax. split; [done|]. split; [|split].
    + intros r Hr%Hdom. lia.
    + intros r l Hl _. by apply (Hval r l).
    + intros r Hr _. apply Hdom. lia.
  - intros r H0 _ _. destruct (is_hazard_some _ H0) as [l Hl].
    rewrite Hl in H0. cbn [World.is_hazard] in H0.
    destruct (Hval r l Hl) as (Hty & _). by rewrite Hty in H0.
Qed.

End Forward.

(** X16. The anti-streak rule under forward streaming.  Start from a
    reset world and let it be driven only by [_generate_around] and
    [update], for any player rows in any order: the map then never holds
    three hazard lanes (road or river) on consecutive rows.  The lazy
    [lane_at] is what this leaves out. *)
Theorem forward_streaming_no_streak :
  forall (Random : Z -> Rng.t) (random : Rng.t) (ops : list World.Op),
    Forall (fun op => World.op_player_row op <> None) ops ->
    no_streak (fst (World.exec Random ops (World.reset Random random))).
Proof.
  intros Random random ops Hops.
  destruct (forward_reset Random random) as [Hf Hs].
  revert Hf Hs. generalize (World.reset Random random).
  induction Hops as [|op ops Hop Hops IH]; intros st Hf Hs; [done|].
  change (World.exec Random (op :: ops) st)
    with (World.exec Random ops (World.apply Random op st)).
  destruct (forward_apply Random op st Hop Hf Hs) as [Hf1 Hs1].
  by apply IH.
Qed.

Lemma forward_streaming_witness :
  no_streak
    (fst (World.exec Demo.RandomHalf
            [World.OpGenerate 2; World.OpUpdate (1 # 10) 30; World.OpGenerate 12]
            (World.reset Demo.RandomHalf Demo.random0))).
Proof.
  apply (forward_streaming_no_streak Demo.RandomHalf Demo.random0
           [World.OpGenerate 2; World.OpUpdate (1 # 10) 30; World.OpGenerate 12]).
  repeat constructor; discriminate.
Defined.

(** ** The camera and the hop animation *)

Lemma clampf_unit v :
  (0 <= clampf v 0 1)%Q /\ (clampf v 0 1 <= 1)%Q /\
  ((1 <= v)%Q -> (clampf v 0 1 == 1)%Q) /\
  ((v <= 0)%Q -> (clampf v 0 1 == 0)%Q).
Proof.
  unfold clampf.
  destruct (Qltb v 0) eqn:H0.
  - apply Qltb_lt in H0. repeat split; try lra; reflexivity.
  - destruct (Qltb 1 v) eqn:H1.
    + apply Qltb_lt in H1. repeat split; try lra; reflexivity.
    + assert (~ (v < 0)%Q) by (intros H; apply Qltb_lt in H; congruence).
      assert (~ (1 < v)%Q) by (intros H'; apply Qltb_lt in H'; congruence).
      repeat split; lra.
Qed.

(** The camera moves by [int ((d - c) * k)] with [k] in [0, 1]: toward
    the target [d] and never past it. *)
Lemma camera_step (c d : Z) (k : Q) :
  (0 <= k)%Q -> (k <= 1)%Q ->
  (c <= d -> c <= c + int (inject_Z (d - c) * k) <= d) /\
  (d <= c -> d <= c + int (inject_Z (d - c) * k) <= c) /\
  ((k == 1)%Q -> c + int (inject_Z (d - c) * k) = d) /\
  ((k == 0)%Q -> c + int (inject_Z (d - c) * k) = c).
Proof.
  intros Hk0 Hk1. set (f := (inject_Z (d - c) * k)%Q).
  destruct (int_toward_zero f) as [Hpos Hneg].
  destruct (int_close f) as [Hlo Hhi].
  split; [|split; [|split]].
  - intros Hcd. assert (Hz : (inject_Z 0 <= inject_Z (d - c))%Q) by (rewrite <- Zle_Qle; lia).
    change (inject_Z 0) with 0%Q in Hz.
    assert (Hf0 : (0 <= f)%Q) by (subst f; nra).
    assert (Hf1 : (f <= inject_Z (d - c))%Q) by (subst f; nra).
    destruct (Hpos Hf0) as [Hi0 Hi1].
    assert (Hi : (inject_Z (int f) <= inject_Z (d - c))%Q) by lra.
    rewrite <- Zle_Qle in Hi. lia.
  - intros Hdc. assert (Hz : (inject_Z (d - c) <= inject_Z 0)%Q) by (rewrite <- Zle_Qle; lia).
    change (inject_Z 0) with 0%Q in Hz.
    assert (Hf0 : (f <= 0)%Q) by (subst f; nra).
    assert (Hf1 : (inject_Z (d - c) <= f)%Q) by (subst f; nra).
    destruct (Hneg Hf0) as [Hi0 Hi1].
    assert (Hi : (inject_Z (d - c) <= inject_Z (int f))%Q) by lra.
    rewrite <- Zle_Qle in Hi. lia.
  - intros Hk. assert (Hf : (f == inject_Z (d - c))%Q) by (subst f; rewrite Hk; ring).
    assert (H1 : (inject_Z (int f) < inject_Z (d - c + 1))%Q).
    { rewrite inject_Z_plus. change (inject_Z 1) with 1%Q. lra. }
    assert (H2 : (inject_Z (d - c - 1) < inject_Z (int f))%Q).
    { replace (d - c - 1) with ((d - c) + (-1)) by lia. rewrite inject_Z_plus.
      change (inject_Z (-1)) with (-1)%Q. lra. }
    rewrite <- Zlt_Qlt in H1, H2. lia.
  - intros Hk. assert (Hf : (f == 0)%Q) by (subst f; rewrite Hk; ring).
    assert (H1 : (inject_Z (int f) < inject_Z 1)%Q) by (change (inject_Z 1) with 1%Q; lra).
    assert (H2 : (inject_Z (-1) < inject_Z (int f))%Q)
      by (change (inject_Z (-1)) with (-1)%Q; lra).
    rewrite <- Zlt_Qlt in H1, H2. lia.
Qed.

Section Frame.
Variable Random : Z -> Rng.t.

(** What [_update] leaves of the game around a living player, the player
    and the world apart. *)
Lemma update_alive_frame dt g :
  Player.alive (Game.player g) = true ->
  exists g',
    Game._update Random dt g = Running g' /\
    Game.camera_y g'
    = Game.camera_y g
      + int (inject_Z (- Player.row (Game.player g) * TILE - WINDOW_H + 10 * TILE
                       - Game.camera_y g)
             * clampf (dt * 6) 0 1) /\
    Game.t_total g' = Game.t_total g /\
    Game.game_over g' = Game.game_over g.
Proof.
  intros Ha.
  destruct (World.update Random dt (Player.row (Game.player g))
              (Game.world g) (Game.random g)) as [w random] eqn:Hw.
  destruct (ensure_lane_lookup Random (Player.row (Game.player g)) None w)
    as [lane Hlane].
  unfold Game._update. rewrite Ha, Hw. cbn [negb].
  set (p0 := Player.set_scores _ _ (Player.set_riding_dx 0 (Game.player g))).
  set (row := Player.row (Game.player g)) in *.
  set (w1 := World._ensure_lane Random row None w) in *.
  assert (Hat : World.lane_at Random row w1 = (Some lane, w1)).
  { unfold World.lane_at. rewrite (ensure_lane_present Random row None w1) by eauto.
    by rewrite Hlane. }
  change (Player.row p0) with row.
  change (World.lane_at Random row w) with (World.lanes w1 !! row, w1).
  rewrite Hlane. cbn zeta.
  set (p1 := match Lane.lane_type lane with LANE_RIVER => _ | _ => p0 end).
  set (p2 := match Lane.lane_type lane with LANE_ROAD => _ | _ => p1 end).
  assert (Hrow : Player.row (Player.update dt p2) = row).
  { rewrite player_update_row. subst p2 p1.
    destruct (Lane.lane_type lane); try done.
    - by destruct (Game._player_hit_car lane p0).
    - by destruct (Game._player_on_log lane p0). }
  destruct (Player.alive (Player.update dt p2)); cbn [bind].
  - rewrite Hrow, Hat. cbn [bind]. eexists. split; [reflexivity|].
    cbn [Game.camera_y Game.t_total Game.game_over].
    destruct (_ && _); cbn [Player.set_alive Player.row]; by rewrite Hrow.
  - eexists. split; [reflexivity|].
    cbn [Game.camera_y Game.t_total Game.game_over]. by rewrite Hrow.
Qed.

Lemma player_update_animation dt p :
  ((Player.hop_progress p <= 1)%Q /\
   (Player.hop_animating p = false ->
    Player.hop_progress p = 0%Q \/ Player.hop_progress p = 1%Q)) ->
  (Player.hop_progress (Player.update dt p) <= 1)%Q /\
  (Player.hop_animating (Player.update dt p) = false ->
   Player.hop_progress (Player.update dt p) = 0%Q \/
   Player.hop_progress (Player.update dt p) = 1%Q).
Proof.
  intros [Hle Hrest]. unfold Player.update.
  destruct (negb (Player.alive p)); [done|].
  destruct (Player.hop_animating p) eqn:Han.
  - destruct (Qle_bool 1 (Player.hop_progress p + dt * 8)) eqn:Hdone; cbv zeta;
      destruct (_ || _);
      cbn [Player.set_alive Player.hop_progress Player.hop_animating].
    + split; [lra | by right].
    + split; [lra | by right].
    + split; [|done].
      apply Qnot_lt_le. intros Hlt.
      assert (Qle_bool 1 (Player.hop_progress p + dt * 8) = true)
        by (apply Qle_bool_iff; lra). congruence.
    + split; [|done].
      apply Qnot_lt_le. intros Hlt.
      assert (Qle_bool 1 (Player.hop_progress p + dt * 8) = true)
        by (apply Qle_bool_iff; lra). congruence.
  - cbv zeta. destruct (_ || _);
      cbn [Player.set_alive Player.hop_progress Player.hop_animating]; auto.
Qed.

Lemma step_animation a g g' :
  Game.step Random a g = Running g' ->
  ((Player.hop_progress (Game.player g) <= 1)%Q /\
   (Player.hop_animating (Game.player g) = false ->
    Player.hop_progress (Game.player g) = 0%Q \/
    Player.hop_progress (Game.player g) = 1%Q)) ->
  (Player.hop_progress (Game.player g') <= 1)%Q /\
  (Player.hop_animating (Game.player g') = false ->
   Player.hop_progress (Game.player g') = 0%Q \/
   Player.hop_progress (Game.player g') = 1%Q).
Proof.
  destruct a as [dt | [ev now_ms] | dt]; cbn [Game.step]; intros Hstep Hinv.
  - by injection Hstep as <-.
  - destruct (handle_event_cases Random ev now_ms g g' Hstep)
      as [-> | [[-> ->] | (key & dc & dr & -> & Hd & Ha & Hhop)]]; [done | |].
    + destruct (game_reset_facts Random g now_ms) as (_ & -> & _).
      cbn. split; [lra | by left].
    + destruct (try_hop_cases Random now_ms dc dr g g' Hhop) as [-> | ->];
        cbn [Game.set_world Game.set_player Game.player]; [done|].
      destruct (Player.can_hop now_ms (Game.player g)) eqn:Hcool.
      * rewrite (hop_accepted now_ms dc dr _ Ha Hcool). cbn. split; [lra | done].
      * by rewrite hop_rejected by auto.
  - destruct (Player.alive (Game.player g)) eqn:Ha.
    + destruct (World.update Random dt (Player.row (Game.player g))
                  (Game.world g) (Game.random g)) as [w random] eqn:Hw.
      destruct (ensure_lane_lookup Random (Player.row (Game.player g)) None w)
        as [lane Hlane].
      destruct (update_alive_player Random dt g w random lane Ha Hw Hlane)
        as (g1 & Hg1 & Hp).
      rewrite Hg1 in Hstep. injection Hstep as <-. rewrite Hp. cbv zeta.
      set (p0 := Player.set_scores _ _ _).
      set (p1 := match Lane.lane_type lane with LANE_RIVER => _ | _ => p0 end).
      set (p2 := match Lane.lane_type lane with LANE_ROAD => _ | _ => p1 end).
      assert (H2 : Player.hop_progress p2 = Player.hop_progress (Game.player g) /\
                   Player.hop_animating p2 = Player.hop_animating (Game.player g)).
      { subst p2 p1. destruct (Lane.lane_type lane); try done.
        - by destruct (Game._player_hit_car lane (Game.player g)).
        - by destruct (Game._player_on_log lane (Game.player g)). }
      destruct H2 as [H2 H2'].
      pose proof (player_update_animation dt p2 ltac:(by rewrite H2, H2')) as H3.
      by destruct (_ && _).
    + rewrite update_dead in Hstep by done. by injection Hstep as <-.
Qed.

End Frame.

(** X17. The camera.  A frame update around a living player moves the
    camera toward the row of the player, [- row * TILE - WINDOW_H +
    10 * TILE], and never past it; with a frame time of a sixth of a second
    or more it lands on it exactly, and with a frame time of zero or less
    it stays.  Around a dead player the camera does not move.  The clock
    total is not touched, and the game-over flag is set exactly when the
    player was already dead. *)
Theorem camera_eases_toward_player :
  forall (Random : Z -> Rng.t) (dt : Q) (g : Game.t),
    exists g',
      Game._update Random dt g = Running g' /\
      Game.t_total g' = Game.t_total g /\
      (Player.alive (Game.player g) = false ->
       Game.camera_y g' = Game.camera_y g /\ Game.game_over g' = true) /\
      (Player.alive (Game.player g) = true ->
       Game.game_over g' = Game.game_over g /\
       (Game.camera_y g
        <= - Player.row (Game.player g) * TILE - WINDOW_H + 10 * TILE ->
        Game.camera_y g <= Game.camera_y g'
        <= - Player.row (Game.player g) * TILE - WINDOW_H + 10 * TILE) /\
       (- Player.row (Game.player g) * TILE - WINDOW_H + 10 * TILE
        <= Game.camera_y g ->
        - Player.row (Game.player g) * TILE - WINDOW_H + 10 * TILE
        <= Game.camera_y g' <= Game.camera_y g) /\
       ((1 # 6 <= dt)%Q ->
        Game.camera_y g'
        = - Player.row (Game.player g) * TILE - WINDOW_H + 10 * TILE) /\
       ((dt <= 0)%Q -> Game.camera_y g' = Game.camera_y g)).
Proof.
  intros Random dt g. destruct (Player.alive (Game.player g)) eqn:Ha.
  - destruct (update_alive_frame Random dt g Ha) as (g' & Hup & Hcam & Ht & Hover).
    exists g'. split; [done|]. split; [done|]. split; [done|]. intros _.
    split; [done|]. rewrite Hcam.
    destruct (clampf_unit (dt * 6)) as (Hk0 & Hk1 & Hone & Hzero).
    destruct (camera_step (Game.camera_y g)
                (- Player.row (Game.player g) * TILE - WINDOW_H + 10 * TILE)
                (clampf (dt * 6) 0 1) Hk0 Hk1) as (Hup' & Hdown & Hsnap & Hstay).
    split; [done|]. split; [done|]. split.
    + intros Hdt. apply Hsnap, Hone. lra.
    + intros Hdt. apply Hstay, Hzero. lra.
  - exists (Game.mk (Game.world g) (Game.player g) (Game.camera_y g)
                    (Game.t_total g) true (Game.random g)).
    split; [by apply update_dead|]. by cbn.
Qed.

(** X18. The hop animation.  In every state of the game the progress of
    the hop animation is at most 1, and when no animation is running it
    is 0, before the first hop, or 1, after a finished one. *)
Theorem reachable_hop_animation :
  forall (Random : Z -> Rng.t) (g : Game.t),
    Game.reachable Random g ->
    (Player.hop_progress (Game.player g) <= 1)%Q /\
    (Player.hop_animating (Game.player g) = false ->
     Player.hop_progress (Game.player g) = 0%Q \/
     Player.hop_progress (Game.player g) = 1%Q).
Proof.
  intros Random g Hg. induction Hg as [random0 | g g' a Hg IH Hstep].
  - unfold Game.__init__.
    destruct (game_reset_facts Random
                (Game.mk (World.__init__ Random)
                   (Player.mk (inject_Z (GRID_COLS / 2 * TILE)) 2 true 0 0 0 0 0 false)
                   0 0 false random0) 0) as (_ & -> & _).
    cbn. split; [lra | by left].
  - by apply (step_animation Random a g g' Hstep).
Qed.

Lemma reachable_hop_animation_witness :
  (Player.hop_progress (Game.player Demo.road_state) <= 1)%Q /\
  (Player.hop_animating (Game.player Demo.road_state) = false ->
   Player.hop_progress (Game.player Demo.road_state) = 0%Q \/
   Player.hop_progress (Game.player Demo.road_state) = 1%Q).
Proof.
  apply (reachable_hop_animation Demo.RandomHalf Demo.road_state).
  exact road_state_reachable.
Defined.
